(** * Snake: the simulation core of CJendantix/snake, embedded in Rocq

    The repository holds three revisions of one program.  [snake.cpp] is the
    documented revision (it enumerates the free cells to place the apple and
    computes the reset layout from the direction offset); [src/main.cpp] and
    an earlier revision place the apple by rejection sampling, lay the snake
    out with a [switch] and coalesce duplicate key presses.  The functions
    the revisions share word for word are embedded once; the ones that differ
    live in [Module Snake_cpp], [Module Main_cpp] and, for the [GetCellSize]
    of the earlier revision, which divides in [float], [Module Part_001]. *)

From Stdlib Require Import ZArith List Bool Lia.
From Stdlib Require Import Permutation.
Import ListNotations.
Local Open Scope Z_scope.

(** ** Machine integers

    [int] is a 32-bit two's-complement integer, carried as a [Z] with the
    wrap-around of every operation written out.  (The standard leaves signed
    overflow undefined; wrapping is what the machine does.  No statement
    below rests on a wrap actually happening.) *)

Definition min_int : Z := - 2 ^ 31.
Definition max_int : Z := 2 ^ 31 - 1.

Definition wrap (z : Z) : Z := (z + 2 ^ 31) mod 2 ^ 32 - 2 ^ 31.

Definition in_int (z : Z) : Prop := min_int <= z <= max_int.

Definition int_add (a b : Z) : Z := wrap (a + b).
Definition int_sub (a b : Z) : Z := wrap (a - b).
Definition int_mul (a b : Z) : Z := wrap (a * b).

(** C++ [/] on [int] truncates toward zero: [Z.quot], not [Z.div]. *)
Definition int_quot (a b : Z) : Z := wrap (Z.quot a b).

(** [static_cast<int>] of a [size_t]. *)
Definition static_cast_int (n : nat) : Z := wrap (Z.of_nat n).

(** ** Outcomes

    [Undefined] stands for a step the C++ standard leaves undefined
    ([front()] of an empty deque, an index past the end of a vector, a
    division by zero, a distribution built with [a > b]); [OutOfFuel] for a
    loop that has not finished within the fuel it was given. *)

Inductive result (A : Type) : Type :=
| Done (a : A)
| Undefined
| OutOfFuel.

Arguments Done {A} a.
Arguments Undefined {A}.
Arguments OutOfFuel {A}.

Definition bind {A B : Type} (m : result A) (k : A -> result B) : result B :=
  match m with
  | Done a => k a
  | Undefined => Undefined
  | OutOfFuel => OutOfFuel
  end.

Notation "v <- m ;; k" := (bind m (fun v => k))
  (at level 61, m at next level, right associativity).

Definition int_div (a b : Z) : result Z :=
  if b =? 0 then Undefined
  else if (a =? min_int) && (b =? -1) then Undefined
  else Done (int_quot a b).

(** [v[i]] on a [std::vector]. *)
Definition vector_at {A : Type} (v : list A) (i : Z) : result A :=
  if i <? 0 then Undefined
  else match nth_error v (Z.to_nat i) with
       | Some a => Done a
       | None => Undefined
       end.

(** ** Randomness

    The program draws integers from a closed interval, through
    [std::uniform_int_distribution] or raylib's [GetRandomValue].  The
    engine is an interface: a draw returns a value and the next engine
    state, and the value lies in the interval asked for. *)

Class RandomEngine (G : Type) : Type := {
  draw : Z -> Z -> G -> Z * G;
  draw_range : forall a b g, a <= b -> a <= fst (draw a b g) <= b
}.

(** [std::uniform_int_distribution dis(a, b); dis(gen)] requires [a <= b]. *)
Definition uniform_int_distribution {G : Type} `{RandomEngine G}
    (a b : Z) (gen : G) : result (Z * G) :=
  if b <? a then Undefined else Done (draw a b gen).

(** raylib's [GetRandomValue(min, max)] swaps its bounds when [min > max]. *)
Definition GetRandomValue {G : Type} `{RandomEngine G}
    (lo hi : Z) (gen : G) : Z * G :=
  if hi <? lo then draw hi lo gen else draw lo hi gen.

(** ** Data model *)

Inductive Direction : Type := UP | DOWN | LEFT | RIGHT.

Definition Direction_eqb (a b : Direction) : bool :=
  match a, b with
  | UP, UP | DOWN, DOWN | LEFT, LEFT | RIGHT, RIGHT => true
  | _, _ => false
  end.

Record Vector2Int : Type := { x : Z; y : Z }.

(** [operator==], componentwise. *)
Definition Vector2Int_eqb (a b : Vector2Int) : bool :=
  (x a =? x b) && (y a =? y b).

(** [snake] is the deque, head first; [directionQueue] is the FIFO, front
    first: [push] appends at the end, [pop] drops the first entry. *)
Record Game : Type := {
  width : Z;
  height : Z;
  snake : list Vector2Int;
  apple : Vector2Int;
  direction : Direction;
  directionQueue : list Direction
}.

Definition set_snake (g : Game) (s : list Vector2Int) : Game :=
  {| width := width g; height := height g; snake := s; apple := apple g;
     direction := direction g; directionQueue := directionQueue g |}.

Definition set_apple (g : Game) (a : Vector2Int) : Game :=
  {| width := width g; height := height g; snake := snake g; apple := a;
     direction := direction g; directionQueue := directionQueue g |}.

Definition set_direction (g : Game) (d : Direction) : Game :=
  {| width := width g; height := height g; snake := snake g; apple := apple g;
     direction := d; directionQueue := directionQueue g |}.

Definition set_directionQueue (g : Game) (q : list Direction) : Game :=
  {| width := width g; height := height g; snake := snake g; apple := apple g;
     direction := direction g; directionQueue := q |}.

Definition BORDER_THICKNESS : Z := 2.

(** ** [GetCellSize] of [snake.cpp] and [src/main.cpp]

    These two revisions divide in [int].  The revision before
    [src/main.cpp] divides in [float] and truncates afterwards: that one is
    [Part_001.GetCellSize] below. *)

Definition GetCellSize (gameWidth gameHeight screenWidth screenHeight : Z)
    : result Z :=
  cellWidth <- int_div (int_sub screenWidth (int_mul BORDER_THICKNESS 2)) gameWidth ;;
  cellHeight <- int_div (int_sub screenHeight (int_mul BORDER_THICKNESS 2)) gameHeight ;;
  Done (Z.min cellWidth cellHeight).

(** ** Functions shared by every revision *)

Definition OffsetFromDirection (dir : Direction) : Vector2Int :=
  match dir with
  | UP => {| x := 0; y := -1 |}
  | DOWN => {| x := 0; y := 1 |}
  | LEFT => {| x := -1; y := 0 |}
  | RIGHT => {| x := 1; y := 0 |}
  end.

(** [std::ranges::find(game.snake, pos) != game.snake.end()]. *)
Definition contains (cells : list Vector2Int) (pos : Vector2Int) : bool :=
  existsb (fun c => Vector2Int_eqb c pos) cells.

Definition IsGameOver (game : Game) (newHead : Vector2Int) : bool :=
  if (x newHead <? 0) || (x newHead >=? width game)
     || (y newHead <? 0) || (y newHead >=? height game)
  then true
  else contains (snake game) newHead.

(** The first three statements of [Update]: the queue front, if any, becomes
    the committed direction. *)
Definition consume_queue (game : Game) : Game :=
  match directionQueue game with
  | [] => game
  | d :: rest => set_directionQueue (set_direction game d) rest
  end.

(** [newHead] as [Update] computes it from the deque front [head]. *)
Definition step_head (head : Vector2Int) (dir : Direction) : Vector2Int :=
  let offset := OffsetFromDirection dir in
  {| x := int_add (x head) (x offset); y := int_add (y head) (y offset) |}.

(** [pop_back] on a deque known to be non-empty. *)
Definition pop_back (cells : list Vector2Int) : list Vector2Int :=
  removelast cells.

(** The values [i] takes in [for (int i = 0; i < n; ++i)]. *)
Definition count_up (n : Z) : list Z := map Z.of_nat (seq 0 (Z.to_nat n)).

Definition empty {A : Type} (v : list A) : bool :=
  match v with
  | [] => true
  | _ :: _ => false
  end.

(** [q.back()] of a queue; [dflt] only fills the case the callers exclude. *)
Definition back (q : list Direction) (dflt : Direction) : Direction :=
  last q dflt.

(** The test both revisions of [QueueDirection] apply to the requested
    direction and the one it would follow. *)
Definition turn_allowed (newDirection lastDirection : Direction) : bool :=
  (Direction_eqb newDirection LEFT && negb (Direction_eqb lastDirection RIGHT))
  || (Direction_eqb newDirection RIGHT && negb (Direction_eqb lastDirection LEFT))
  || (Direction_eqb newDirection UP && negb (Direction_eqb lastDirection DOWN))
  || (Direction_eqb newDirection DOWN && negb (Direction_eqb lastDirection UP)).

(** Edge-triggered keys of one frame, as [HandleInput] polls them. *)
Record Keys : Type := {
  key_left : bool;
  key_right : bool;
  key_up : bool;
  key_down : bool
}.

(** ** Rendering

    [Render] of [snake.cpp] and [src/main.cpp] (the same text in both) works
    in [int]; what it hands to raylib is recorded as a list of draw calls, in
    the order they are made. *)

Module Color.
Record t : Type := { r : Z; g : Z; b : Z; a : Z }.
End Color.

Definition SNAKE_HEAD_COLOR : Color.t :=
  {| Color.r := 71; Color.g := 130; Color.b := 255; Color.a := 255 |}.
Definition BORDER_COLOR : Color.t :=
  {| Color.r := 0; Color.g := 0; Color.b := 0; Color.a := 255 |}.
Definition BORDER_BG : Color.t :=
  {| Color.r := 160; Color.g := 255; Color.b := 112; Color.a := 255 |}.

(** [static_cast<unsigned char>] of an [int]. *)
Definition static_cast_uchar (z : Z) : Z := z mod 256.

(** The calls into raylib.  [DrawRectangleLinesEx] takes its rectangle and
    thickness as [float]; the call records the [int] values that are cast. *)
Inductive DrawCall : Type :=
| ClearBackground (color : Color.t)
| DrawRectangle (posX posY w h : Z) (color : Color.t)
| DrawRectangleLinesEx (recX recY recW recH lineThick : Z) (color : Color.t).

(** A [for] loop whose body can be undefined, run over the values of its
    index. *)
Fixpoint for_each {A B : Type} (body : A -> result B) (l : list A)
    : result (list B) :=
  match l with
  | [] => Done []
  | i :: rest =>
      v <- body i ;;
      vs <- for_each body rest ;;
      Done (v :: vs)
  end.

Section Rendering.
(** The two colours [Render] takes from raylib.h. *)
Variable RAYWHITE : Color.t.
Variable RED : Color.t.

(** The colour of segment [i] of a snake of [snakeLength] segments. *)
Definition segment_color (snakeLength i : Z) : result Color.t :=
  factor <- int_div (int_mul (int_sub snakeLength i) 255) snakeLength ;;
  cr <- int_div (int_mul (Color.r SNAKE_HEAD_COLOR) factor) 255 ;;
  cg <- int_div (int_mul (Color.g SNAKE_HEAD_COLOR) factor) 255 ;;
  cb <- int_div (int_mul (Color.b SNAKE_HEAD_COLOR) factor) 255 ;;
  Done {| Color.r := static_cast_uchar cr; Color.g := static_cast_uchar cg;
          Color.b := static_cast_uchar cb; Color.a := 255 |}.

(** The square of a grid cell on the screen. *)
Definition cell_rectangle (offsetX offsetY cellSize : Z) (coord : Vector2Int)
    (color : Color.t) : DrawCall :=
  DrawRectangle (int_add offsetX (int_mul (x coord) cellSize))
                (int_add offsetY (int_mul (y coord) cellSize))
                cellSize cellSize color.

Definition Render (game : Game) (screenWidth screenHeight : Z)
    : result (list DrawCall) :=
  cellSize <- GetCellSize (width game) (height game) screenWidth screenHeight ;;
  let gameWidthPx := int_mul cellSize (width game) in
  let gameHeightPx := int_mul cellSize (height game) in
  offsetX <- int_div (int_sub screenWidth gameWidthPx) 2 ;;
  offsetY <- int_div (int_sub screenHeight gameHeightPx) 2 ;;
  let snakeLength := static_cast_int (length (snake game)) in
  segments <-
    for_each (fun i =>
      coord <- vector_at (snake game) i ;;
      color <- segment_color snakeLength i ;;
      Done (cell_rectangle offsetX offsetY cellSize coord color))
      (count_up snakeLength) ;;
  Done (ClearBackground RAYWHITE
        :: DrawRectangle (int_sub offsetX BORDER_THICKNESS)
                         (int_sub offsetY BORDER_THICKNESS)
                         (int_add gameWidthPx (int_mul BORDER_THICKNESS 2))
                         (int_add gameHeightPx (int_mul BORDER_THICKNESS 2))
                         BORDER_BG
        :: DrawRectangleLinesEx (int_sub offsetX BORDER_THICKNESS)
                                (int_sub offsetY BORDER_THICKNESS)
                                (int_add gameWidthPx (int_mul BORDER_THICKNESS 2))
                                (int_add gameHeightPx (int_mul BORDER_THICKNESS 2))
                                BORDER_THICKNESS BORDER_COLOR
        :: cell_rectangle offsetX offsetY cellSize (apple game) RED
        :: segments).

End Rendering.

(** ** The documented revision, [snake.cpp] *)

Module Snake_cpp.
Section WithEngine.
Context {G : Type} `{RandomEngine G}.

Definition emptyCells (game : Game) : list Vector2Int :=
  flat_map (fun cx =>
    flat_map (fun cy =>
      let pos := {| x := cx; y := cy |} in
      if negb (contains (snake game) pos) then [pos] else [])
      (count_up (height game)))
    (count_up (width game)).

(** [gen] is the engine freshly seeded from [std::random_device] by this
    call; it does not outlive the call. *)
Definition GetNewApplePosition (gen : G) (game : Game) : result Vector2Int :=
  let cells := emptyCells game in
  if negb (empty cells) then
    r <- uniform_int_distribution 0
           (int_sub (static_cast_int (length cells)) 1) gen ;;
    vector_at cells (fst r)
  else Done {| x := 0; y := 0 |}.

Definition ResetGame (gen : G) (game : Game) : result Game :=
  let centerX := int_quot (width game) 2 in
  let centerY := int_quot (height game) 2 in
  let head := {| x := centerX; y := centerY |} in
  let offset := OffsetFromDirection (direction game) in
  let second := {| x := int_sub (x head) (x offset);
                   y := int_sub (y head) (y offset) |} in
  let third := {| x := int_sub (x second) (x offset);
                  y := int_sub (y second) (y offset) |} in
  let game1 := set_snake game [head; second; third] in
  a <- GetNewApplePosition gen game1 ;;
  Done (set_apple game1 a).

Definition QueueDirection (game : Game) (newDirection : Direction) : Game :=
  if Nat.leb 3 (length (directionQueue game)) then game
  else
    let lastDirection :=
      if empty (directionQueue game) then direction game
      else back (directionQueue game) (direction game) in
    if turn_allowed newDirection lastDirection
    then set_directionQueue game (directionQueue game ++ [newDirection])
    else game.

Definition HandleInput (keys : Keys) (game : Game) : Game :=
  let game1 := if key_left keys then QueueDirection game LEFT else game in
  let game2 := if key_right keys then QueueDirection game1 RIGHT else game1 in
  let game3 := if key_up keys then QueueDirection game2 UP else game2 in
  if key_down keys then QueueDirection game3 DOWN else game3.

Definition Update (gen : G) (game : Game) : result (bool * Game) :=
  let game1 := consume_queue game in
  match snake game1 with
  | [] => Undefined
  | front :: _ =>
      let newHead := step_head front (direction game1) in
      if IsGameOver game1 newHead then Done (true, game1)
      else
        let game2 := set_snake game1 (newHead :: snake game1) in
        if Vector2Int_eqb newHead (apple game2) then
          a <- GetNewApplePosition gen game2 ;;
          Done (false, set_apple game2 a)
        else Done (false, set_snake game2 (pop_back (snake game2)))
  end.

(** One iteration of the loop of [main], rendering left out.  The timer is a
    [float]; only its operations are named, none is computed. *)
Section GameLoop.
Variable float : Type.
Variable float_zero : float.
Variable float_add : float -> float -> float.
Variable float_ge : float -> float -> bool.
Variable MOVE_INTERVAL : float.

Definition Frame (frameTime : float) (keys : Keys) (genUpdate genReset : G)
    (st : float * Game) : result (float * Game) :=
  let moveTimer := float_add (fst st) frameTime in
  let game := HandleInput keys (snd st) in
  if float_ge moveTimer MOVE_INTERVAL then
    let moveTimer := float_zero in
    r <- Update genUpdate game ;;
    if fst r then
      game' <- ResetGame genReset (snd r) ;;
      Done (moveTimer, game')
    else Done (moveTimer, snd r)
  else Done (moveTimer, game).

(** What one pass of the loop takes from outside: the frame time, the keys
    pressed, and the engines the two possible apple placements would seed. *)
Record FrameInput : Type := {
  frameTime : float;
  pressed : Keys;
  genUpdate : G;
  genReset : G
}.

(** The loop of [main], run until [WindowShouldClose]: one [Frame] for each
    entry of [inputs]. *)
Fixpoint main_loop (inputs : list FrameInput) (st : float * Game)
    : result (float * Game) :=
  match inputs with
  | [] => Done st
  | i :: rest =>
      st' <- Frame (frameTime i) (pressed i) (genUpdate i) (genReset i) st ;;
      main_loop rest st'
  end.

(** [main], from the construction of the game to the end of the loop. *)
Definition main (genStart : G) (inputs : list FrameInput)
    : result (float * Game) :=
  let game := {| width := 25; height := 25; snake := []; apple := {| x := 0; y := 0 |};
                 direction := RIGHT; directionQueue := [] |} in
  game' <- ResetGame genStart game ;;
  main_loop inputs (float_zero, game').

End GameLoop.
End WithEngine.
End Snake_cpp.

(** ** [src/main.cpp] and the revision before it

    The two differ from each other only outside the simulation (frame
    timing, rendering), in the engine they draw from
    ([GetRandomValue] against [std::uniform_int_distribution]; the same on
    any grid of at least 1 x 1) and in the earlier [GetCellSize], which
    divides in [float] before it truncates ([Part_001.GetCellSize]). *)

(** The keys the program polls. *)
Inductive KeyboardKey : Type :=
| KEY_A | KEY_D | KEY_W | KEY_S | KEY_LEFT | KEY_RIGHT | KEY_UP | KEY_DOWN.

Module Main_cpp.
Section WithEngine.
Context {G : Type} `{RandomEngine G}.

(** [IsKeyDown] is the keyboard as raylib reports it in this frame. *)
Definition GetNewDirection (IsKeyDown : KeyboardKey -> bool)
    (current : Direction) : Direction :=
  if (IsKeyDown KEY_A || IsKeyDown KEY_LEFT)
     && negb (Direction_eqb current RIGHT) then LEFT
  else if (IsKeyDown KEY_D || IsKeyDown KEY_RIGHT)
          && negb (Direction_eqb current LEFT) then RIGHT
  else if (IsKeyDown KEY_W || IsKeyDown KEY_UP)
          && negb (Direction_eqb current DOWN) then UP
  else if (IsKeyDown KEY_S || IsKeyDown KEY_DOWN)
          && negb (Direction_eqb current UP) then DOWN
  else current.

(** The [do ... while] loop; the engine is global and keeps its state. *)
Fixpoint GetNewApplePosition (fuel : nat) (gen : G) (game : Game)
    : result (Vector2Int * G) :=
  match fuel with
  | O => OutOfFuel
  | S fuel' =>
      let rx := GetRandomValue 0 (int_sub (width game) 1) gen in
      let ry := GetRandomValue 0 (int_sub (height game) 1) (snd rx) in
      let pos := {| x := fst rx; y := fst ry |} in
      if contains (snake game) pos
      then GetNewApplePosition fuel' (snd ry) game
      else Done (pos, snd ry)
  end.

(** The cell drawn by pass [n] of that loop (counting from 0) and the engine
    after it, should the loop run that long. *)
Fixpoint attempt (n : nat) (gen : G) (game : Game) : Vector2Int * G :=
  let rx := GetRandomValue 0 (int_sub (width game) 1) gen in
  let ry := GetRandomValue 0 (int_sub (height game) 1) (snd rx) in
  match n with
  | O => ({| x := fst rx; y := fst ry |}, snd ry)
  | S n' => attempt n' (snd ry) game
  end.

Definition ResetGame (fuel : nat) (gen : G) (game : Game)
    : result (Game * G) :=
  let centerX := int_quot (width game) 2 in
  let centerY := int_quot (height game) 2 in
  let head := {| x := centerX; y := centerY |} in
  let body :=
    match direction game with
    | UP => ({| x := centerX; y := int_add centerY 1 |},
             {| x := centerX; y := int_add centerY 2 |})
    | DOWN => ({| x := centerX; y := int_sub centerY 1 |},
               {| x := centerX; y := int_sub centerY 2 |})
    | LEFT => ({| x := int_add centerX 1; y := centerY |},
               {| x := int_add centerX 2; y := centerY |})
    | RIGHT => ({| x := int_sub centerX 1; y := centerY |},
                {| x := int_sub centerX 2; y := centerY |})
    end in
  let game1 := set_snake game [head; fst body; snd body] in
  r <- GetNewApplePosition fuel gen game1 ;;
  let game2 := set_apple game1 (fst r) in
  let game3 :=
    if negb (Direction_eqb (direction game2) UP)
       && negb (Direction_eqb (direction game2) DOWN)
       && negb (Direction_eqb (direction game2) LEFT)
       && negb (Direction_eqb (direction game2) RIGHT)
    then set_direction game2 RIGHT
    else game2 in
  Done (game3, snd r).

Definition QueueDirection (game : Game) (newDirection : Direction) : Game :=
  if Nat.leb 3 (length (directionQueue game)) then game
  else if negb (empty (directionQueue game))
          && Direction_eqb (back (directionQueue game) (direction game))
                           newDirection
  then game
  else if empty (directionQueue game) then
    if turn_allowed newDirection (direction game)
    then set_directionQueue game (directionQueue game ++ [newDirection])
    else game
  else
    let lastQueued := back (directionQueue game) (direction game) in
    if turn_allowed newDirection lastQueued
    then set_directionQueue game (directionQueue game ++ [newDirection])
    else game.

Definition HandleInput (keys : Keys) (game : Game) : Game :=
  let game1 := if key_left keys then QueueDirection game LEFT else game in
  let game2 := if key_right keys then QueueDirection game1 RIGHT else game1 in
  let game3 := if key_up keys then QueueDirection game2 UP else game2 in
  if key_down keys then QueueDirection game3 DOWN else game3.

Definition Update (fuel : nat) (gen : G) (game : Game)
    : result (bool * Game * G) :=
  let game1 := consume_queue game in
  match snake game1 with
  | [] => Undefined
  | front :: _ =>
      let newHead := step_head front (direction game1) in
      if IsGameOver game1 newHead then Done (true, game1, gen)
      else
        let game2 := set_snake game1 (newHead :: snake game1) in
        if Vector2Int_eqb newHead (apple game2) then
          r <- GetNewApplePosition fuel gen game2 ;;
          Done (false, set_apple game2 (fst r), snd r)
        else Done (false, set_snake game2 (pop_back (snake game2)), gen)
  end.

End WithEngine.
End Main_cpp.

(** ** [GetCellSize] of the revision before [src/main.cpp]

    [float] is IEEE binary32: 24 significant bits, round to nearest, ties
    to even.  Every value the function computes is the conversion of an
    [int] or the quotient of two such conversions, so its magnitude is 0,
    infinite, or between 2^-31 and 2^31: well inside the normal range
    (2^-126 to 2^128), where only the 24 bits of the significand round.  A
    finite value is carried exactly, as a fraction [num / den] with a
    positive denominator; a zero carries no sign (the sign of a zero changes
    neither [<] nor the conversion to [int]). *)

Module Part_001.

Inductive float : Type :=
| Finite (num den : Z)
| PlusInfinity
| MinusInfinity
| NaN.

(** [n / d] for [0 <= n] and [0 < d], rounded to the nearest integer, a tie
    to the even one. *)
Definition round_half_even (n d : Z) : Z :=
  let q := n / d in
  let r := n mod d in
  if 2 * r <? d then q
  else if d <? 2 * r then q + 1
  else if Z.even q then q else q + 1.

(** [(float)n] for an [int n], and the implicit conversion of the [int]
    divisor.  An [int] below 2^24 in magnitude is a [float]; from there on
    the [float]s around [n] are [2 ^ (log2 |n| - 23)] apart.  The result is
    an integer again. *)
Definition float_of_int (n : Z) : Z :=
  if Z.abs n <? 2 ^ 24 then n
  else
    let u := 2 ^ (Z.log2 (Z.abs n) - 23) in
    Z.sgn n * (round_half_even (Z.abs n) u * u).

(** [a / b] in [float], for two [float]s that are integers (as both
    operands here are).  [e] is the exponent of the exact quotient:
    [2 ^ e <= |a| / |b| < 2 ^ (e + 1)]; the quotient is rounded to a multiple
    of [2 ^ (e - 23)].  The divisor is the conversion of an [int], so a zero
    divisor is [+0]. *)
Definition float_div (a b : Z) : float :=
  if b =? 0 then
    if a =? 0 then NaN else if 0 <? a then PlusInfinity else MinusInfinity
  else if a =? 0 then Finite 0 1
  else
    let n := Z.abs a in
    let d := Z.abs b in
    let k := Z.log2 d + 1 in
    let e := Z.log2 (n * 2 ^ k / d) - k in
    let s := 2 ^ Z.max 0 (23 - e) in
    let u := 2 ^ Z.max 0 (e - 23) in
    Finite (Z.sgn a * Z.sgn b * (round_half_even (n * s) (d * u) * u)) s.

(** [a < b] on [float]: false as soon as one side is a NaN. *)
Definition float_lt (a b : float) : bool :=
  match a, b with
  | NaN, _ | _, NaN => false
  | Finite n d, Finite n' d' => n * d' <? n' * d
  | _, MinusInfinity => false
  | MinusInfinity, _ => true
  | PlusInfinity, _ => false
  | Finite _ _, PlusInfinity => true
  end.

(** [std::min(a, b)] is [(b < a) ? b : a]. *)
Definition std_min (a b : float) : float := if float_lt b a then b else a.

(** [static_cast<int>] of a [float] drops the fraction; the standard leaves
    it undefined when the result does not fit [int], as for an infinity or a
    NaN. *)
Definition static_cast_int (v : float) : result Z :=
  match v with
  | Finite n d =>
      let t := Z.quot n d in
      if (min_int <=? t) && (t <=? max_int) then Done t else Undefined
  | PlusInfinity | MinusInfinity | NaN => Undefined
  end.

Definition GetCellSize (gameWidth gameHeight screenWidth screenHeight : Z)
    : result Z :=
  let cellWidth :=
    float_div (float_of_int (int_sub screenWidth (int_mul BORDER_THICKNESS 2)))
              (float_of_int gameWidth) in
  let cellHeight :=
    float_div (float_of_int (int_sub screenHeight (int_mul BORDER_THICKNESS 2)))
              (float_of_int gameHeight) in
  static_cast_int (std_min cellWidth cellHeight).

End Part_001.

(** ** Vocabulary of the specification *)

(** The opposite relation in the specification's words (Up with Down, Left
    with Right); the source spells the four cases out in [QueueDirection],
    see [turn_allowed]. *)
Definition IsOpposite (a b : Direction) : bool :=
  match a, b with
  | UP, DOWN | DOWN, UP | LEFT, RIGHT | RIGHT, LEFT => true
  | _, _ => false
  end.

(** No two neighbours of the sequence are opposite. *)
Fixpoint no_reversal (ds : list Direction) : bool :=
  match ds with
  | a :: (b :: _) as rest => negb (IsOpposite a b) && no_reversal rest
  | _ => true
  end.

(** The committed direction followed by the queue contents, in order. *)
Definition effective (g : Game) : list Direction :=
  direction g :: directionQueue g.

(** The invariant of the queue: no reversal along the effective sequence, at
    most three entries pending. *)
Definition queue_ok (g : Game) : Prop :=
  no_reversal (effective g) = true /\ (length (directionQueue g) <= 3)%nat.

Definition in_grid (g : Game) (p : Vector2Int) : Prop :=
  0 <= x p < width g /\ 0 <= y p < height g.

(** Number of cells of the grid; the free-cell vector never holds more. *)
Definition cell_count (g : Game) : Z :=
  Z.of_nat (Z.to_nat (width g) * Z.to_nat (height g)).

(** The collision rule in the specification's words, with its tail-vacancy
    exception, to be compared with [IsGameOver]: on a move that eats no food
    the tail cell is not counted. *)
Definition Tick_collision_spec (g : Game) (newHead : Vector2Int) : bool :=
  let counted :=
    if Vector2Int_eqb newHead (apple g) then snake g
    else removelast (snake g) in
  (x newHead <? 0) || (x newHead >=? width g)
  || (y newHead <? 0) || (y newHead >=? height g)
  || contains counted newHead.

(** The cell size in the specification's words, with floor division, to be
    compared with [GetCellSize]. *)
Definition CellSize_spec (gridW gridH viewportW viewportH border : Z) : Z :=
  Z.min ((viewportW - 2 * border) / gridW) ((viewportH - 2 * border) / gridH).

(** The cells [ResetGame] is meant to lay out: the center and the two cells
    behind it, against the committed direction. *)
Definition reset_layout (g : Game) : list Vector2Int :=
  let cx := Z.quot (width g) 2 in
  let cy := Z.quot (height g) 2 in
  let o := OffsetFromDirection (direction g) in
  [ {| x := cx; y := cy |};
    {| x := cx - x o; y := cy - y o |};
    {| x := cx - 2 * x o; y := cy - 2 * y o |} ].

(** The grid is large enough to hold that layout: two cells of room behind
    the center against the committed direction. *)
Definition room_for_layout (g : Game) : Prop :=
  match direction g with
  | UP => 1 <= width g /\ 5 <= height g
  | DOWN => 1 <= width g /\ 4 <= height g
  | LEFT => 5 <= width g /\ 1 <= height g
  | RIGHT => 4 <= width g /\ 1 <= height g
  end.

(** Every cell of the grid, in the order the two loops of
    [GetNewApplePosition] visit them. *)
Definition all_cells (g : Game) : list Vector2Int :=
  flat_map (fun cx => map (fun cy => {| x := cx; y := cy |})
                          (count_up (height g)))
           (count_up (width g)).

(** Two cells that share a side. *)
Definition adjacent (p q : Vector2Int) : Prop :=
  Z.abs (x p - x q) + Z.abs (y p - y q) = 1.

(** Every cell of the body touches the next one. *)
Fixpoint connected (cells : list Vector2Int) : Prop :=
  match cells with
  | p :: (q :: _) as rest => adjacent p q /\ connected rest
  | _ => True
  end.

(** A snake in play: it has a head, no cell twice, every cell on the grid,
    and its body in one piece. *)
Definition snake_ok (g : Game) : Prop :=
  snake g <> [] /\ NoDup (snake g) /\ Forall (in_grid g) (snake g)
  /\ connected (snake g).

(** The apple lies on the grid, and off the snake unless the snake covers
    the whole grid. *)
Definition apple_ok (g : Game) : Prop :=
  in_grid g (apple g)
  /\ (~ In (apple g) (snake g) \/ Z.of_nat (length (snake g)) = cell_count g).

(** A state of a running session: a grid with room for the reset layout in
    every direction and a cell count that fits an [int], a snake in play of
    at least the three cells it starts with, the apple where it may be, the
    queue within its bounds. *)
Definition session_ok (g : Game) : Prop :=
  5 <= width g /\ 5 <= height g /\ cell_count g <= max_int
  /\ snake_ok g /\ (3 <= length (snake g))%nat /\ apple_ok g /\ queue_ok g.

(** What both revisions of [QueueDirection] have in common: a call leaves the
    state alone or appends the request, and it appends only onto fewer than
    three entries and only a request that does not reverse the last effective
    direction. *)
Definition enqueues_legal_turns (Q : Game -> Direction -> Game) : Prop :=
  forall g d,
    Q g d = g
    \/ (Q g d = set_directionQueue g (directionQueue g ++ [d])
        /\ (length (directionQueue g) < 3)%nat
        /\ IsOpposite (last (effective g) (direction g)) d = false).

(** The four polls of [HandleInput], over either [QueueDirection]. *)
Definition poll_keys (Q : Game -> Direction -> Game) (keys : Keys)
    (game : Game) : Game :=
  let game1 := if key_left keys then Q game LEFT else game in
  let game2 := if key_right keys then Q game1 RIGHT else game1 in
  let game3 := if key_up keys then Q game2 UP else game2 in
  if key_down keys then Q game3 DOWN else game3.

(** Whether one of the two keys of a direction is held down. *)
Definition direction_key_down (IsKeyDown : KeyboardKey -> bool)
    (d : Direction) : bool :=
  match d with
  | LEFT => IsKeyDown KEY_A || IsKeyDown KEY_LEFT
  | RIGHT => IsKeyDown KEY_D || IsKeyDown KEY_RIGHT
  | UP => IsKeyDown KEY_W || IsKeyDown KEY_UP
  | DOWN => IsKeyDown KEY_S || IsKeyDown KEY_DOWN
  end.

(** The quantities of [Render], free of wrap-around: the cell size, the
    offset that centers [n] cells of that size in [screen] pixels, the
    brightness factor of segment [i] of [n], and the colour it gives. *)
Definition board_cell_size (g : Game) (screenWidth screenHeight : Z) : Z :=
  Z.min ((screenWidth - 4) / width g) ((screenHeight - 4) / height g).

Definition board_offset (screen cellSize n : Z) : Z :=
  (screen - cellSize * n) / 2.

Definition gradient_factor (snakeLength i : Z) : Z :=
  (snakeLength - i) * 255 / snakeLength.

Definition shaded (snakeLength i : Z) : Color.t :=
  {| Color.r := Color.r SNAKE_HEAD_COLOR * gradient_factor snakeLength i / 255;
     Color.g := Color.g SNAKE_HEAD_COLOR * gradient_factor snakeLength i / 255;
     Color.b := Color.b SNAKE_HEAD_COLOR * gradient_factor snakeLength i / 255;
     Color.a := 255 |}.

(** What [Render] needs to stay within [int]: a grid of at least one cell, a
    viewport of at least the two borders, a snake short enough for the
    brightness arithmetic. *)
Definition renderable (g : Game) (screenWidth screenHeight : Z) : Prop :=
  1 <= width g /\ 1 <= height g
  /\ 4 <= screenWidth <= max_int /\ 4 <= screenHeight <= max_int
  /\ Z.of_nat (length (snake g)) * 255 <= max_int.

(** Neighbouring entries are neither equal nor opposite: each is a quarter
    turn from the one before. *)
Fixpoint quarter_turns (ds : list Direction) : bool :=
  match ds with
  | d :: (d' :: _) as rest =>
      negb (Direction_eqb d d') && negb (IsOpposite d d') && quarter_turns rest
  | _ => true
  end.

(** The same, as a test that can be run on a state. *)
Definition in_gridb (g : Game) (p : Vector2Int) : bool :=
  (0 <=? x p) && (x p <? width g) && (0 <=? y p) && (y p <? height g).

Definition adjacentb (p q : Vector2Int) : bool :=
  Z.abs (x p - x q) + Z.abs (y p - y q) =? 1.

Fixpoint connectedb (cells : list Vector2Int) : bool :=
  match cells with
  | p :: (q :: _) as rest => adjacentb p q && connectedb rest
  | _ => true
  end.

Fixpoint distinctb (cells : list Vector2Int) : bool :=
  match cells with
  | [] => true
  | p :: rest => negb (contains rest p) && distinctb rest
  end.

Definition snake_okb (g : Game) : bool :=
  negb (empty (snake g)) && distinctb (snake g)
  && forallb (in_gridb g) (snake g) && connectedb (snake g).

(** ** Engines to run the model on *)

(** The stub that always draws the lower bound. *)
#[global] Instance lowest_engine : RandomEngine unit.
Proof.
  refine {| draw := fun a _ g => (a, g) |}.
  intros a b g Hab. simpl. lia.
Defined.

(** A counter: the [n]-th draw from [[a, b]] is [a + n mod (b - a + 1)]. *)
#[global] Instance counter_engine : RandomEngine Z.
Proof.
  refine {| draw := fun a b n => (a + n mod (b - a + 1), n + 1) |}.
  intros a b n Hab. simpl.
  pose proof (Z.mod_pos_bound n (b - a + 1)). lia.
Defined.

(** ** States used as examples *)

Definition cell (cx cy : Z) : Vector2Int := {| x := cx; y := cy |}.

(** [Game game(25, 25, Direction::RIGHT, {0, 0}, {})], as [main] builds it. *)
Definition initial_game : Game :=
  {| width := 25; height := 25; snake := []; apple := cell 0 0;
     direction := RIGHT; directionQueue := [] |}.

(** A snake curled in a square, about to step onto its own tail cell. *)
Definition tail_chase : Game :=
  {| width := 5; height := 5;
     snake := [cell 1 1; cell 1 2; cell 2 2; cell 2 1];
     apple := cell 4 4; direction := RIGHT; directionQueue := [] |}.

(** A snake one bite away from filling a 2 x 1 grid. *)
Definition last_bite : Game :=
  {| width := 2; height := 1; snake := [cell 0 0]; apple := cell 1 0;
     direction := RIGHT; directionQueue := [] |}.

(** The boustrophedon walk over a [w] x [h] grid, from (0,0) upward in [y]. *)
Definition serpentine (w h : Z) : list Vector2Int :=
  flat_map (fun cy =>
    map (fun cx => cell cx cy)
        (if Z.even cy then count_up w else rev (count_up w)))
    (count_up h).

(** The 25 x 25 session grid with one free cell left, the apple on it and the
    head next to it. *)
Definition last_bite_25 : Game :=
  {| width := 25; height := 25;
     snake := tl (rev (serpentine 25 25));
     apple := cell 24 24; direction := RIGHT; directionQueue := [] |}.

(** The state [Update] hands to [GetNewApplePosition] on that last bite: the
    snake on all 625 cells. *)
Definition after_last_bite_25 : Game :=
  set_snake last_bite_25 (cell 24 24 :: snake last_bite_25).

(** A 1 x 1 grid that the snake fills. *)
Definition full_1x1 : Game :=
  {| width := 1; height := 1; snake := [cell 0 0]; apple := cell 0 0;
     direction := RIGHT; directionQueue := [] |}.

(** Heading right with one [UP] already queued. *)
Definition up_queued : Game :=
  {| width := 25; height := 25;
     snake := [cell 12 12; cell 11 12; cell 10 12];
     apple := cell 3 3; direction := RIGHT; directionQueue := [UP] |}.

(** About to run into the right wall, with a turn queued behind the next. *)
Definition wall_ahead : Game :=
  {| width := 5; height := 5;
     snake := [cell 4 2; cell 3 2; cell 2 2];
     apple := cell 0 0; direction := UP; directionQueue := [RIGHT; DOWN] |}.

(** The two colours [Render] takes from raylib.h, with the values they have
    there. *)
Definition raylib_RAYWHITE : Color.t :=
  {| Color.r := 245; Color.g := 245; Color.b := 245; Color.a := 255 |}.
Definition raylib_RED : Color.t :=
  {| Color.r := 230; Color.g := 41; Color.b := 55; Color.a := 255 |}.

(** Heading left from the left wall. *)
Definition wall_left : Game :=
  {| width := 5; height := 5;
     snake := [cell 0 2; cell 1 2; cell 2 2];
     apple := cell 4 4; direction := LEFT; directionQueue := [] |}.

(** Food straight ahead. *)
Definition food_ahead : Game :=
  {| width := 5; height := 5;
     snake := [cell 2 2; cell 1 2; cell 0 2];
     apple := cell 3 2; direction := RIGHT; directionQueue := [] |}.

(** * Properties *)

(** ** Integers, cells and lists *)

Lemma wrap_small (z : Z) : in_int z -> wrap z = z.
Proof.
  unfold in_int, min_int, max_int, wrap. intros Hz.
  rewrite Z.mod_small; lia.
Qed.

Lemma wrap_in_int (z : Z) : in_int (wrap z).
Proof.
  unfold in_int, min_int, max_int, wrap.
  pose proof (Z.mod_pos_bound (z + 2 ^ 31) (2 ^ 32)). lia.
Qed.

Lemma Direction_eqb_eq (a b : Direction) : Direction_eqb a b = true <-> a = b.
Proof. destruct a, b; simpl; split; congruence. Qed.

Lemma Direction_eqb_refl (a : Direction) : Direction_eqb a a = true.
Proof. now destruct a. Qed.

Lemma Vector2Int_eqb_eq (a b : Vector2Int) :
  Vector2Int_eqb a b = true <-> a = b.
Proof.
  destruct a as [ax ay], b as [bx by']. unfold Vector2Int_eqb. simpl.
  rewrite andb_true_iff, !Z.eqb_eq. split.
  - intros [-> ->]. reflexivity.
  - intros E. injection E as -> ->. auto.
Qed.

Lemma Vector2Int_eqb_neq (a b : Vector2Int) :
  Vector2Int_eqb a b = false <-> a <> b.
Proof.
  rewrite <- Vector2Int_eqb_eq. destruct (Vector2Int_eqb a b); split; congruence.
Qed.

Lemma contains_In (cells : list Vector2Int) (p : Vector2Int) :
  contains cells p = true <-> In p cells.
Proof.
  unfold contains. rewrite existsb_exists. split.
  - intros [c [Hc E]]. apply Vector2Int_eqb_eq in E. now subst.
  - intros Hp. exists p. split; [assumption | now apply Vector2Int_eqb_eq].
Qed.

Lemma contains_not_In (cells : list Vector2Int) (p : Vector2Int) :
  contains cells p = false <-> ~ In p cells.
Proof.
  rewrite <- contains_In. destruct (contains cells p); split; congruence.
Qed.

Lemma count_up_In (n z : Z) : In z (count_up n) <-> 0 <= z < n.
Proof.
  unfold count_up. rewrite in_map_iff. split.
  - intros [k [<- Hk]]. apply in_seq in Hk. lia.
  - intros Hz. exists (Z.to_nat z). split; [lia | apply in_seq; lia].
Qed.

Lemma count_up_length (n : Z) : length (count_up n) = Z.to_nat n.
Proof. unfold count_up. now rewrite length_map, length_seq. Qed.

Lemma flat_map_length_le {A B : Type} (f : A -> list B) (k : nat) (l : list A) :
  (forall a, (length (f a) <= k)%nat) ->
  (length (flat_map f l) <= length l * k)%nat.
Proof.
  intros Hf. induction l as [|a l IH]; simpl.
  - lia.
  - rewrite length_app. specialize (Hf a). lia.
Qed.

Lemma IsGameOver_true_iff (g : Game) (p : Vector2Int) :
  IsGameOver g p = true <-> ~ in_grid g p \/ In p (snake g).
Proof.
  unfold IsGameOver, in_grid. rewrite !Z.geb_leb.
  destruct (Z.ltb_spec (x p) 0), (Z.leb_spec (width g) (x p)),
           (Z.ltb_spec (y p) 0), (Z.leb_spec (height g) (y p)); simpl;
    try (split; [intros _; left; lia | reflexivity]).
  rewrite contains_In. split.
  - now right.
  - intros [Hout | Hin]; [exfalso; apply Hout; lia | assumption].
Qed.

Lemma IsGameOver_false_iff (g : Game) (p : Vector2Int) :
  IsGameOver g p = false <-> in_grid g p /\ ~ In p (snake g).
Proof.
  pose proof (IsGameOver_true_iff g p) as Ht. unfold in_grid in *.
  destruct (IsGameOver g p); split; try congruence.
  - intros [Hin Hn]. destruct (proj1 Ht eq_refl); tauto.
  - intros _. split.
    + destruct (Z.ltb_spec (x p) 0), (Z.leb_spec (width g) (x p)),
               (Z.ltb_spec (y p) 0), (Z.leb_spec (height g) (y p));
        try lia;
        (assert (false = true) by (apply Ht; left; lia); discriminate).
    + intros Hin. assert (false = true) by (apply Ht; now right). discriminate.
Qed.

(** ** Free cells and apple placement in [snake.cpp] *)

Section SnakeCppPlacement.
Context {G : Type} {E : RandomEngine G}.

Lemma emptyCells_In (g : Game) (p : Vector2Int) :
  In p (Snake_cpp.emptyCells g) <-> in_grid g p /\ ~ In p (snake g).
Proof.
  unfold Snake_cpp.emptyCells, in_grid. rewrite in_flat_map. split.
  - intros [cx [Hx Hp]]. apply in_flat_map in Hp as [cy [Hy Hp]].
    apply count_up_In in Hx. apply count_up_In in Hy.
    destruct (contains (snake g) {| x := cx; y := cy |}) eqn:Hc; simpl in Hp.
    + contradiction.
    + destruct Hp as [<- | []]. simpl.
      apply contains_not_In in Hc. auto.
  - intros [[Hx Hy] Hfree]. exists (x p). split.
    + now apply count_up_In.
    + apply in_flat_map. exists (y p). split.
      * now apply count_up_In.
      * destruct p as [px py]. simpl.
        apply contains_not_In in Hfree. rewrite Hfree. simpl. now left.
Qed.

Lemma emptyCells_length (g : Game) :
  Z.of_nat (length (Snake_cpp.emptyCells g)) <= cell_count g.
Proof.
  unfold cell_count, Snake_cpp.emptyCells. apply inj_le.
  rewrite <- (count_up_length (width g)).
  apply flat_map_length_le. intros cx.
  rewrite <- (Nat.mul_1_r (Z.to_nat (height g))).
  rewrite <- (count_up_length (height g)).
  apply flat_map_length_le. intros cy.
  destruct (negb _); simpl; lia.
Qed.

(** With a free cell on the grid the call returns one. *)
Lemma GetNewApplePosition_free (gen : G) (g : Game) :
  cell_count g <= max_int ->
  (exists c, in_grid g c /\ ~ In c (snake g)) ->
  exists p, Snake_cpp.GetNewApplePosition gen g = Done p
            /\ in_grid g p /\ ~ In p (snake g).
Proof.
  intros Hfit [c Hc]. apply emptyCells_In in Hc.
  pose proof (emptyCells_length g) as Hlen.
  unfold Snake_cpp.GetNewApplePosition.
  remember (Snake_cpp.emptyCells g) as cells eqn:Ecells.
  assert (Hne : empty cells = false) by (destruct cells; [contradiction | reflexivity]).
  assert (Hpos : 1 <= Z.of_nat (length cells)) by (destruct cells; [contradiction | simpl; lia]).
  cbv zeta. rewrite Hne. cbn [negb].
  assert (Hcast : static_cast_int (length cells) = Z.of_nat (length cells)).
  { apply wrap_small. unfold in_int, min_int, max_int in *. lia. }
  assert (Hsub : int_sub (static_cast_int (length cells)) 1
                 = Z.of_nat (length cells) - 1).
  { rewrite Hcast. apply wrap_small. unfold in_int, min_int, max_int in *. lia. }
  rewrite Hsub. unfold uniform_int_distribution.
  destruct (Z.ltb_spec (Z.of_nat (length cells) - 1) 0) as [Hlt | Hge]; [lia|].
  cbn [bind].
  pose proof (draw_range 0 (Z.of_nat (length cells) - 1) gen Hge) as Hr.
  set (i := fst (draw 0 (Z.of_nat (length cells) - 1) gen)) in *.
  unfold vector_at.
  destruct (Z.ltb_spec i 0) as [Hneg | _]; [lia|].
  destruct (nth_error cells (Z.to_nat i)) as [p|] eqn:Hnth.
  - exists p. split; [reflexivity|].
    apply emptyCells_In. rewrite <- Ecells. eapply nth_error_In; eassumption.
  - apply nth_error_None in Hnth. lia.
Qed.

Lemma emptyCells_nil_full (g : Game) :
  Snake_cpp.emptyCells g = [] -> forall c, in_grid g c -> In c (snake g).
Proof.
  intros Hnil c Hc. destruct (contains (snake g) c) eqn:Hin.
  - now apply contains_In.
  - apply contains_not_In in Hin.
    assert (Hmem : In c (Snake_cpp.emptyCells g)) by now apply emptyCells_In.
    rewrite Hnil in Hmem. contradiction.
Qed.

(** With no free cell the call returns the sentinel. *)
Lemma GetNewApplePosition_full (gen : G) (g : Game) :
  (forall c, in_grid g c -> In c (snake g)) ->
  Snake_cpp.GetNewApplePosition gen g = Done (cell 0 0).
Proof.
  intros Hfull. unfold Snake_cpp.GetNewApplePosition.
  destruct (Snake_cpp.emptyCells g) as [|c0 rest] eqn:Ecells; [reflexivity|].
  assert (Hc : In c0 (Snake_cpp.emptyCells g)) by (rewrite Ecells; now left).
  apply emptyCells_In in Hc as [Hin Hfree]. exfalso. auto.
Qed.

(** The call always returns, a free cell if there is one and the sentinel
    otherwise, as long as the number of grid cells fits an [int]. *)
Lemma GetNewApplePosition_returns (gen : G) (g : Game) :
  cell_count g <= max_int ->
  exists p, Snake_cpp.GetNewApplePosition gen g = Done p
    /\ ((exists c, in_grid g c /\ ~ In c (snake g)) ->
        in_grid g p /\ ~ In p (snake g))
    /\ ((forall c, in_grid g c -> In c (snake g)) -> p = cell 0 0).
Proof.
  intros Hfit. destruct (Snake_cpp.emptyCells g) as [|c0 cells] eqn:Ecells.
  - exists (cell 0 0). split; [|split].
    + unfold Snake_cpp.GetNewApplePosition. now rewrite Ecells.
    + intros [c Hc]. apply emptyCells_In in Hc. rewrite Ecells in Hc.
      contradiction.
    + reflexivity.
  - assert (Hc0 : in_grid g c0 /\ ~ In c0 (snake g)).
    { apply emptyCells_In. rewrite Ecells. now left. }
    destruct (GetNewApplePosition_free gen g Hfit (ex_intro _ c0 Hc0))
      as [p [Hp Hfree]].
    exists p. split; [assumption | split].
    + intros _. assumption.
    + intros Hfull. exfalso. destruct Hc0 as [Hin Hout]. auto.
Qed.

End SnakeCppPlacement.

(** ** The tick *)

Lemma consume_queue_snake (g : Game) : snake (consume_queue g) = snake g.
Proof. unfold consume_queue. now destruct (directionQueue g). Qed.

Lemma consume_queue_apple (g : Game) : apple (consume_queue g) = apple g.
Proof. unfold consume_queue. now destruct (directionQueue g). Qed.

Lemma consume_queue_width (g : Game) : width (consume_queue g) = width g.
Proof. unfold consume_queue. now destruct (directionQueue g). Qed.

Lemma consume_queue_height (g : Game) : height (consume_queue g) = height g.
Proof. unfold consume_queue. now destruct (directionQueue g). Qed.

Lemma consume_queue_cons (g : Game) (d : Direction) (q : list Direction) :
  directionQueue g = d :: q ->
  consume_queue g = set_directionQueue (set_direction g d) q.
Proof. unfold consume_queue. now intros ->. Qed.

Lemma IsGameOver_consume_queue (g : Game) (p : Vector2Int) :
  IsGameOver (consume_queue g) p = IsGameOver g p.
Proof.
  unfold IsGameOver.
  now rewrite consume_queue_snake, consume_queue_width, consume_queue_height.
Qed.

Section Tick.
Context {G : Type} {E : RandomEngine G}.

(** [Update] of [snake.cpp], one equation per path through its body. *)
Lemma Update_game_over (gen : G) (g : Game) (front : Vector2Int)
    (rest : list Vector2Int) :
  snake g = front :: rest ->
  IsGameOver g (step_head front (direction (consume_queue g))) = true ->
  Snake_cpp.Update gen g = Done (true, consume_queue g).
Proof.
  intros Hs Hover. unfold Snake_cpp.Update.
  rewrite consume_queue_snake, Hs, IsGameOver_consume_queue, Hover.
  reflexivity.
Qed.

Lemma Update_eat (gen : G) (g : Game) (front : Vector2Int)
    (rest : list Vector2Int) :
  snake g = front :: rest ->
  let g1 := consume_queue g in
  let newHead := step_head front (direction g1) in
  IsGameOver g newHead = false ->
  newHead = apple g ->
  Snake_cpp.Update gen g =
    (a <- Snake_cpp.GetNewApplePosition gen (set_snake g1 (newHead :: snake g)) ;;
     Done (false, set_apple (set_snake g1 (newHead :: snake g)) a)).
Proof.
  intros Hs g1 newHead Hfree Heat. subst g1 newHead.
  unfold Snake_cpp.Update. cbv zeta.
  rewrite consume_queue_snake, Hs, IsGameOver_consume_queue, Hfree.
  cbn [apple set_snake]. rewrite consume_queue_apple, <- Heat.
  now rewrite (proj2 (Vector2Int_eqb_eq _ _) eq_refl).
Qed.

Lemma Update_move (gen : G) (g : Game) (front : Vector2Int)
    (rest : list Vector2Int) :
  snake g = front :: rest ->
  let g1 := consume_queue g in
  let newHead := step_head front (direction g1) in
  IsGameOver g newHead = false ->
  newHead <> apple g ->
  Snake_cpp.Update gen g =
    Done (false, set_snake g1 (newHead :: removelast (snake g))).
Proof.
  intros Hs g1 newHead Hfree Hmove. subst g1 newHead.
  unfold Snake_cpp.Update. cbv zeta.
  rewrite consume_queue_snake, Hs, IsGameOver_consume_queue, Hfree.
  cbn [apple set_snake snake]. rewrite consume_queue_apple.
  rewrite (proj2 (Vector2Int_eqb_neq _ _) Hmove).
  reflexivity.
Qed.

(** The flag [Update] returns is the value of [IsGameOver], in both
    revisions, whatever the apple placement does. *)
Lemma Update_flag (gen : G) (g : Game) (front : Vector2Int)
    (rest : list Vector2Int) (b : bool) (g' : Game) :
  snake g = front :: rest ->
  Snake_cpp.Update gen g = Done (b, g') ->
  b = IsGameOver g (step_head front (direction (consume_queue g)))
  /\ (b = true -> g' = consume_queue g).
Proof.
  intros Hs. unfold Snake_cpp.Update.
  rewrite consume_queue_snake, Hs, IsGameOver_consume_queue.
  destruct (IsGameOver g _).
  - intros [= <- <-]. auto.
  - destruct (Vector2Int_eqb _ _).
    + destruct (Snake_cpp.GetNewApplePosition _ _); cbn [bind]; try discriminate.
      intros [= <- <-]. split; [reflexivity | discriminate].
    + intros [= <- <-]. split; [reflexivity | discriminate].
Qed.

Lemma Main_Update_game_over (fuel : nat) (gen : G) (g : Game)
    (front : Vector2Int) (rest : list Vector2Int) :
  snake g = front :: rest ->
  IsGameOver g (step_head front (direction (consume_queue g))) = true ->
  Main_cpp.Update fuel gen g = Done (true, consume_queue g, gen).
Proof.
  intros Hs Hover. unfold Main_cpp.Update.
  rewrite consume_queue_snake, Hs, IsGameOver_consume_queue, Hover.
  reflexivity.
Qed.

Lemma Main_Update_flag (fuel : nat) (gen : G) (g : Game) (front : Vector2Int)
    (rest : list Vector2Int) (b : bool) (g' : Game) (gen' : G) :
  snake g = front :: rest ->
  Main_cpp.Update fuel gen g = Done (b, g', gen') ->
  b = IsGameOver g (step_head front (direction (consume_queue g)))
  /\ (b = true -> g' = consume_queue g).
Proof.
  intros Hs. unfold Main_cpp.Update.
  rewrite consume_queue_snake, Hs, IsGameOver_consume_queue.
  destruct (IsGameOver g _).
  - intros [= <- <- <-]. auto.
  - destruct (Vector2Int_eqb _ _).
    + destruct (Main_cpp.GetNewApplePosition _ _ _); cbn [bind]; try discriminate.
      intros [= <- <- <-]. split; [reflexivity | discriminate].
    + intros [= <- <- <-]. split; [reflexivity | discriminate].
Qed.

(** An empty deque has no [front()]: the call is undefined, it returns no
    flag. *)
Lemma Update_empty_snake (gen : G) (g : Game) :
  snake g = [] -> Snake_cpp.Update gen g = Undefined.
Proof.
  intros Hs. unfold Snake_cpp.Update. now rewrite consume_queue_snake, Hs.
Qed.

End Tick.

Section TickClaims.
Context {G : Type} {E : RandomEngine G}.

(** Claim C1, as the code has it: for a game whose snake has a head, [Update]
    returns true exactly when the new head (the old head moved by the offset
    of the direction committed after the queue front was consumed) lies
    outside the grid or equals a cell of the snake as it stands before the
    move, the tail cell included.  This holds for [Update] of [snake.cpp] and
    of [src/main.cpp] alike. *)
Theorem C1_Update_true_iff_collision (gen : G) (fuel : nat) (g : Game)
    (front : Vector2Int) (rest : list Vector2Int) :
  snake g = front :: rest ->
  let newHead := step_head front (direction (consume_queue g)) in
  ((exists g', Snake_cpp.Update gen g = Done (true, g'))
   <-> ~ in_grid g newHead \/ In newHead (snake g))
  /\ ((exists g' gen', Main_cpp.Update fuel gen g = Done (true, g', gen'))
      <-> ~ in_grid g newHead \/ In newHead (snake g)).
Proof.
  intros Hs newHead. rewrite <- IsGameOver_true_iff. split; split.
  - intros [g' Hup]. destruct (Update_flag gen g front rest true g' Hs Hup) as [Hb _].
    now symmetry.
  - intros Hover. exists (consume_queue g). now apply Update_game_over with front rest.
  - intros [g' [gen' Hup]].
    destruct (Main_Update_flag fuel gen g front rest true g' gen' Hs Hup) as [Hb _].
    now symmetry.
  - intros Hover. exists (consume_queue g), gen.
    now apply Main_Update_game_over with front rest.
Qed.

(** Claim C8: when [Update] returns true, the snake body and the apple of the
    state it leaves behind are those of the state it was called on (in
    [snake.cpp] and in [src/main.cpp]). *)
Theorem C8_game_over_keeps_snake_and_apple (gen : G) (fuel : nat) (g : Game) :
  (forall g', Snake_cpp.Update gen g = Done (true, g') ->
              snake g' = snake g /\ apple g' = apple g)
  /\ (forall g' gen', Main_cpp.Update fuel gen g = Done (true, g', gen') ->
                      snake g' = snake g /\ apple g' = apple g).
Proof.
  split.
  - intros g' Hup. destruct (snake g) as [|front rest] eqn:Hs.
    + rewrite (Update_empty_snake gen g Hs) in Hup. discriminate.
    + destruct (Update_flag gen g front rest true g' Hs Hup) as [_ Hg'].
      rewrite (Hg' eq_refl), consume_queue_snake, consume_queue_apple. auto.
  - intros g' gen' Hup. destruct (snake g) as [|front rest] eqn:Hs.
    + unfold Main_cpp.Update in Hup. rewrite consume_queue_snake, Hs in Hup.
      discriminate.
    + destruct (Main_Update_flag fuel gen g front rest true g' gen' Hs Hup)
        as [_ Hg'].
      rewrite (Hg' eq_refl), consume_queue_snake, consume_queue_apple. auto.
Qed.

End TickClaims.

(** Claim C1 as the specification words it fails on the code: in [tail_chase]
    the head at (1,1) moves right onto (2,1), the cell of its own tail, the
    apple is elsewhere, the rule with the tail-vacancy exception reports no
    collision, and [Update] returns true in both revisions. *)
Lemma C1_tail_cell_counterexample :
  let newHead := step_head (cell 1 1) (direction (consume_queue tail_chase)) in
  hd newHead (snake tail_chase) = cell 1 1
  /\ newHead = last (snake tail_chase) newHead
  /\ Vector2Int_eqb newHead (apple tail_chase) = false
  /\ Tick_collision_spec tail_chase newHead = false
  /\ Snake_cpp.Update tt tail_chase = Done (true, tail_chase)
  /\ Main_cpp.Update 1 tt tail_chase = Done (true, tail_chase, tt).
Proof. vm_compute. repeat split; reflexivity. Qed.

Lemma C1_Update_true_iff_collision_witness :
  snake tail_chase = [cell 1 1; cell 1 2; cell 2 2; cell 2 1]
  /\ ((exists g', Snake_cpp.Update tt tail_chase = Done (true, g'))
      <-> ~ in_grid tail_chase (cell 2 1) \/ In (cell 2 1) (snake tail_chase)).
Proof.
  split.
  - reflexivity.
  - exact (proj1 (C1_Update_true_iff_collision tt 1%nat tail_chase (cell 1 1)
                    [cell 1 2; cell 2 2; cell 2 1] eq_refl)).
Defined.

Lemma C8_game_over_keeps_snake_and_apple_witness :
  Snake_cpp.Update tt wall_ahead = Done (true, consume_queue wall_ahead)
  /\ snake (consume_queue wall_ahead) = snake wall_ahead
  /\ apple (consume_queue wall_ahead) = apple wall_ahead.
Proof.
  split.
  - reflexivity.
  - apply (proj1 (C8_game_over_keeps_snake_and_apple tt 1%nat wall_ahead)).
    reflexivity.
Defined.

(** ** Reset *)

Lemma int_quot_half (w : Z) :
  in_int w -> int_quot w 2 = Z.quot w 2 /\ - 2 ^ 30 <= Z.quot w 2 <= 2 ^ 30.
Proof.
  unfold in_int, min_int, max_int. intros Hw.
  assert (Hq : - 2 ^ 30 <= Z.quot w 2 <= 2 ^ 30).
  { Z.to_euclidean_division_equations. lia. }
  split; [|assumption].
  apply wrap_small. unfold in_int, min_int, max_int. lia.
Qed.

Section Reset.
Context {G : Type} {E : RandomEngine G}.

(** The three cells [ResetGame] of [snake.cpp] computes, free of wrap-around. *)
Lemma ResetGame_unfold (gen : G) (g : Game) :
  in_int (width g) -> in_int (height g) ->
  Snake_cpp.ResetGame gen g =
    (a <- Snake_cpp.GetNewApplePosition gen (set_snake g (reset_layout g)) ;;
     Done (set_apple (set_snake g (reset_layout g)) a)).
Proof.
  intros Hw Hh. unfold Snake_cpp.ResetGame, reset_layout. cbv zeta.
  destruct (int_quot_half _ Hw) as [-> Hcx].
  destruct (int_quot_half _ Hh) as [-> Hcy].
  assert (Hsub : forall c o, - 2 ^ 30 <= c <= 2 ^ 30 -> -1 <= o <= 1 ->
            int_sub c o = c - o /\ int_sub (c - o) o = c - 2 * o).
  { intros c o Hc Ho. unfold int_sub.
    rewrite !wrap_small; unfold in_int, min_int, max_int; lia. }
  assert (Ho : -1 <= x (OffsetFromDirection (direction g)) <= 1
               /\ -1 <= y (OffsetFromDirection (direction g)) <= 1).
  { destruct (direction g); simpl; lia. }
  destruct Ho as [Hox Hoy]. cbn [x y].
  destruct (Hsub _ _ Hcx Hox) as [Ex1 Ex2].
  destruct (Hsub _ _ Hcy Hoy) as [Ey1 Ey2].
  rewrite Ex1, Ey1, Ex2, Ey2. reflexivity.
Qed.

(** [ResetGame] of [src/main.cpp] lays out the same three cells. *)
Lemma Main_ResetGame_unfold (fuel : nat) (gen : G) (g : Game) :
  in_int (width g) -> in_int (height g) ->
  Main_cpp.ResetGame fuel gen g =
    (r <- Main_cpp.GetNewApplePosition fuel gen (set_snake g (reset_layout g)) ;;
     Done (set_apple (set_snake g (reset_layout g)) (fst r), snd r)).
Proof.
  intros Hw Hh. unfold Main_cpp.ResetGame, reset_layout. cbv zeta.
  destruct (int_quot_half _ Hw) as [-> Hcx].
  destruct (int_quot_half _ Hh) as [-> Hcy].
  assert (Hadd : forall c k, - 2 ^ 30 <= c <= 2 ^ 30 -> -2 <= k <= 2 ->
            int_add c k = c + k /\ int_sub c k = c - k).
  { intros c k Hc Hk. unfold int_add, int_sub.
    rewrite !wrap_small; unfold in_int, min_int, max_int; lia. }
  destruct (direction g) eqn:Hd; cbn [fst snd OffsetFromDirection x y];
    repeat match goal with
    | |- context [int_add ?c ?k] =>
        rewrite (proj1 (Hadd c k ltac:(assumption) ltac:(lia)))
    | |- context [int_sub ?c ?k] =>
        rewrite (proj2 (Hadd c k ltac:(assumption) ltac:(lia)))
    end;
    replace (Z.quot (width g) 2 - 0) with (Z.quot (width g) 2) by lia;
    replace (Z.quot (height g) 2 - 0) with (Z.quot (height g) 2) by lia;
    cbn [direction set_apple set_snake Direction_eqb negb andb];
    try rewrite Hd; cbn [Direction_eqb negb andb];
    repeat match goal with
    | |- context [?a - 2 * 0] => replace (a - 2 * 0) with a by lia
    | |- context [?a - -1] => replace (a - -1) with (a + 1) by lia
    | |- context [?a - 2 * -1] => replace (a - 2 * -1) with (a + 2) by lia
    | |- context [?a - 2 * 1] => replace (a - 2 * 1) with (a - 2) by lia
    end;
    reflexivity.
Qed.

(** The rejection loop of [src/main.cpp]: what it returns is a cell of the
    grid outside the snake. *)
Lemma Main_GetNewApplePosition_sound (fuel : nat) (gen gen' : G) (g : Game)
    (p : Vector2Int) :
  1 <= width g -> 1 <= height g -> in_int (width g) -> in_int (height g) ->
  Main_cpp.GetNewApplePosition fuel gen g = Done (p, gen') ->
  in_grid g p /\ ~ In p (snake g).
Proof.
  intros Hw Hh Hiw Hih. revert gen.
  assert (Hsub : forall n, 1 <= n -> in_int n -> int_sub n 1 = n - 1).
  { intros n Hn Hin. apply wrap_small. unfold in_int, min_int, max_int in *. lia. }
  induction fuel as [|fuel IH]; intros gen; cbn [Main_cpp.GetNewApplePosition].
  - discriminate.
  - rewrite (Hsub _ Hw Hiw), (Hsub _ Hh Hih). unfold GetRandomValue.
    destruct (Z.ltb_spec (width g - 1) 0) as [Hlt | Hx]; [lia|].
    destruct (Z.ltb_spec (height g - 1) 0) as [Hlt | Hy]; [lia|].
    set (rx := draw 0 (width g - 1) gen).
    set (ry := draw 0 (height g - 1) (snd rx)).
    destruct (contains (snake g) _) eqn:Hc.
    + apply IH.
    + intros [= <- <-]. split.
      * pose proof (draw_range 0 (width g - 1) gen Hx) as Hrx.
        pose proof (draw_range 0 (height g - 1) (snd rx) Hy) as Hry.
        unfold in_grid. cbn [x y]. fold rx in Hrx. fold ry in Hry. lia.
      * now apply contains_not_In.
Qed.

(** It returns as soon as one pass draws a cell outside the snake. *)
Lemma Main_GetNewApplePosition_hits (n : nat) (gen : G) (g : Game) :
  contains (snake g) (fst (Main_cpp.attempt n gen g)) = false ->
  exists p gen', Main_cpp.GetNewApplePosition (S n) gen g = Done (p, gen').
Proof.
  revert gen. induction n as [|n IH]; intros gen Hfree.
  - cbn [Main_cpp.attempt fst] in Hfree.
    cbn [Main_cpp.GetNewApplePosition]. rewrite Hfree. eauto.
  - cbn [Main_cpp.attempt] in Hfree.
    change (Main_cpp.GetNewApplePosition (S (S n)) gen g) with
      (let rx := GetRandomValue 0 (int_sub (width g) 1) gen in
       let ry := GetRandomValue 0 (int_sub (height g) 1) (snd rx) in
       let pos := {| x := fst rx; y := fst ry |} in
       if contains (snake g) pos
       then Main_cpp.GetNewApplePosition (S n) (snd ry) g
       else Done (pos, snd ry)).
    cbv zeta. destruct (contains (snake g) {| x := _; y := _ |}).
    + apply IH. assumption.
    + eauto.
Qed.

(** On a grid the snake covers, no amount of fuel makes it return. *)
Lemma Main_GetNewApplePosition_full (fuel : nat) (gen : G) (g : Game) :
  1 <= width g -> 1 <= height g -> in_int (width g) -> in_int (height g) ->
  (forall c, in_grid g c -> In c (snake g)) ->
  Main_cpp.GetNewApplePosition fuel gen g = OutOfFuel.
Proof.
  intros Hw Hh Hiw Hih Hfull.
  destruct (Main_cpp.GetNewApplePosition fuel gen g) as [[p gen']| |] eqn:Hr.
  - destruct (Main_GetNewApplePosition_sound fuel gen gen' g p Hw Hh Hiw Hih Hr)
      as [Hin Hout].
    exfalso. auto.
  - exfalso. revert gen Hr. induction fuel as [|fuel IH]; intros gen;
      cbn [Main_cpp.GetNewApplePosition]; [discriminate|].
    destruct (contains (snake g) _); [apply IH | discriminate].
  - reflexivity.
Qed.

End Reset.

Lemma cell_count_nonneg (g : Game) :
  0 <= width g -> 0 <= height g -> cell_count g = width g * height g.
Proof.
  intros Hw Hh. unfold cell_count. rewrite Nat2Z.inj_mul, !Z2Nat.id; lia.
Qed.

Lemma room_for_layout_5x5 (g : Game) :
  5 <= width g -> 5 <= height g -> room_for_layout g.
Proof. unfold room_for_layout. destruct (direction g); lia. Qed.

(** With that room the layout lies on the grid, and so does the cell ahead
    of the head, which the layout leaves free. *)
Lemma reset_layout_fits (g : Game) :
  room_for_layout g ->
  let ahead := cell (Z.quot (width g) 2 + x (OffsetFromDirection (direction g)))
                    (Z.quot (height g) 2 + y (OffsetFromDirection (direction g))) in
  Forall (in_grid (set_snake g (reset_layout g))) (reset_layout g)
  /\ in_grid (set_snake g (reset_layout g)) ahead
  /\ ~ In ahead (reset_layout g).
Proof.
  unfold room_for_layout, reset_layout, in_grid, cell.
  cbn [width height set_snake].
  destruct (direction g); cbn [OffsetFromDirection x y In]; intros [Hw Hh];
    (split; [|split];
     [ repeat constructor; cbn [x y]; Z.to_euclidean_division_equations; lia
     | cbn [x y]; Z.to_euclidean_division_equations; lia
     | intros [K | [K | [K | []]]]; injection K; lia ]).
Qed.

Section ResetClaims.
Context {G : Type} {E : RandomEngine G}.


End ResetClaims.


Section ResetFrame.
Context {G : Type} {E : RandomEngine G}.

Lemma ResetGame_returns (gen : G) (g : Game) :
  cell_count g <= max_int ->
  exists cells a, Snake_cpp.ResetGame gen g = Done (set_apple (set_snake g cells) a).
Proof.
  intros Hfit. unfold Snake_cpp.ResetGame. cbv zeta.
  match goal with
  | |- context [Snake_cpp.GetNewApplePosition gen ?g1] =>
      destruct (GetNewApplePosition_returns gen g1 Hfit) as [a [Ha _]];
      rewrite Ha; cbn [bind]
  end.
  eauto.
Qed.

Lemma Main_ResetGame_shape (fuel : nat) (gen gen' : G) (g g' : Game) :
  Main_cpp.ResetGame fuel gen g = Done (g', gen') ->
  exists cells a, g' = set_apple (set_snake g cells) a.
Proof.
  unfold Main_cpp.ResetGame. cbv zeta.
  destruct (Main_cpp.GetNewApplePosition fuel gen _) as [[a gen1]| |];
    cbn [bind]; try discriminate.
  cbn [direction set_apple set_snake fst snd].
  destruct (direction g) eqn:Hd; cbn [Direction_eqb negb andb];
    intros [= <- <-]; eexists; eexists; reflexivity.
Qed.

(** In a frame whose tick fires, the timer that comes out is the zero the
    loop wrote before calling [Update]. *)
Lemma Frame_tick_zeroes_timer (float : Type) (float_zero : float)
    (float_add : float -> float -> float) (float_ge : float -> float -> bool)
    (MOVE_INTERVAL frameTime : float) (keys : Keys) (genUpdate genReset : G)
    (st st' : float * Game) :
  float_ge (float_add (fst st) frameTime) MOVE_INTERVAL = true ->
  Snake_cpp.Frame float float_zero float_add float_ge MOVE_INTERVAL
    frameTime keys genUpdate genReset st = Done st' ->
  fst st' = float_zero.
Proof.
  intros Hfire. unfold Snake_cpp.Frame. cbv zeta. rewrite Hfire.
  destruct (Snake_cpp.Update genUpdate _) as [[over g1]| |]; cbn [bind fst snd];
    try discriminate.
  destruct over.
  - destruct (Snake_cpp.ResetGame genReset g1); cbn [bind]; try discriminate.
    now intros [= <-].
  - now intros [= <-].
Qed.

(** Claim C5, as the code has it: [ResetGame] replaces the snake and the apple
    in place and leaves the grid width and height, the committed direction
    and the pending-direction queue exactly as they were: the queue is not
    cleared.  The move timer is no part of the state [ResetGame] works on;
    the loop has set it to zero before the tick that led to the reset. *)
Theorem C5_ResetGame_keeps_grid_and_queue (gen : G) (g : Game) :
  cell_count g <= max_int ->
  (exists g', Snake_cpp.ResetGame gen g = Done g'
     /\ width g' = width g /\ height g' = height g
     /\ direction g' = direction g
     /\ directionQueue g' = directionQueue g)
  /\ (forall fuel g' gen', Main_cpp.ResetGame fuel gen g = Done (g', gen') ->
        width g' = width g /\ height g' = height g
        /\ direction g' = direction g
        /\ directionQueue g' = directionQueue g)
  /\ (forall (float : Type) (float_zero : float)
        (float_add : float -> float -> float)
        (float_ge : float -> float -> bool)
        (MOVE_INTERVAL frameTime moveTimer : float) (keys : Keys)
        (genReset : G) (st' : float * Game),
        float_ge (float_add moveTimer frameTime) MOVE_INTERVAL = true ->
        Snake_cpp.Frame float float_zero float_add float_ge MOVE_INTERVAL
          frameTime keys gen genReset (moveTimer, g) = Done st' ->
        fst st' = float_zero).
Proof.
  intros Hfit. split; [|split].
  - destruct (ResetGame_returns gen g Hfit) as [cells [a Hr]].
    eexists. split; [exact Hr|]. cbn. auto.
  - intros fuel g' gen' Hr.
    destruct (Main_ResetGame_shape fuel gen gen' g g' Hr) as [cells [a ->]].
    cbn. auto.
  - intros float float_zero float_add float_ge MOVE_INTERVAL frameTime
      moveTimer keys genReset st' Hfire Hframe.
    eapply Frame_tick_zeroes_timer; [|exact Hframe]. exact Hfire.
Qed.

Lemma Update_commits_front (gen : G) (g : Game) (d : Direction)
    (q : list Direction) (b : bool) (g' : Game) :
  directionQueue g = d :: q ->
  Snake_cpp.Update gen g = Done (b, g') ->
  direction g' = d /\ directionQueue g' = q.
Proof.
  intros Hq. unfold Snake_cpp.Update. rewrite (consume_queue_cons g d q Hq).
  destruct (snake _) as [|front rest]; [discriminate|].
  destruct (IsGameOver _ _).
  - intros [= <- <-]. auto.
  - destruct (Vector2Int_eqb _ _).
    + destruct (Snake_cpp.GetNewApplePosition _ _); cbn [bind]; try discriminate.
      intros [= <- <-]. auto.
    + intros [= <- <-]. auto.
Qed.

Lemma Main_Update_commits_front (fuel : nat) (gen gen' : G) (g : Game)
    (d : Direction) (q : list Direction) (b : bool) (g' : Game) :
  directionQueue g = d :: q ->
  Main_cpp.Update fuel gen g = Done (b, g', gen') ->
  direction g' = d /\ directionQueue g' = q.
Proof.
  intros Hq. unfold Main_cpp.Update. rewrite (consume_queue_cons g d q Hq).
  destruct (snake _) as [|front rest]; [discriminate|].
  destruct (IsGameOver _ _).
  - intros [= <- <- <-]. auto.
  - destruct (Vector2Int_eqb _ _).
    + destruct (Main_cpp.GetNewApplePosition _ _ _); cbn [bind]; try discriminate.
      intros [= <- <- <-]. auto.
    + intros [= <- <- <-]. auto.
Qed.

End ResetFrame.

(** Claim C5 as the specification words it fails on the code: [wall_ahead]
    runs into the wall with [DOWN] still queued; [Update] returns true, and
    after the [ResetGame] that follows the queue still holds [DOWN]. *)
Lemma C5_queue_survives_reset_counterexample :
  Snake_cpp.Update tt wall_ahead = Done (true, consume_queue wall_ahead)
  /\ Snake_cpp.ResetGame tt (consume_queue wall_ahead)
     = Done {| width := 5; height := 5;
               snake := [cell 2 2; cell 1 2; cell 0 2];
               apple := cell 0 0; direction := RIGHT;
               directionQueue := [DOWN] |}
  /\ Main_cpp.ResetGame 1 tt (consume_queue wall_ahead)
     = Done ({| width := 5; height := 5;
                snake := [cell 2 2; cell 1 2; cell 0 2];
                apple := cell 0 0; direction := RIGHT;
                directionQueue := [DOWN] |}, tt)
  /\ [DOWN] <> @nil Direction.
Proof. vm_compute. repeat split; (reflexivity || discriminate). Qed.

Lemma C5_ResetGame_keeps_grid_and_queue_witness :
  cell_count up_queued <= max_int
  /\ exists g', Snake_cpp.ResetGame 3 up_queued = Done g'
       /\ width g' = 25 /\ height g' = 25
       /\ direction g' = RIGHT /\ directionQueue g' = [UP].
Proof.
  assert (Hfit : cell_count up_queued <= max_int) by (vm_compute; discriminate).
  split.
  - exact Hfit.
  - exact (proj1 (C5_ResetGame_keeps_grid_and_queue 3 up_queued Hfit)).
Defined.

(** ** Eating *)

Section Eating.
Context {G : Type} {E : RandomEngine G}.

Lemma Main_Update_eat (fuel : nat) (gen : G) (g : Game) (front : Vector2Int)
    (rest : list Vector2Int) :
  snake g = front :: rest ->
  let g1 := consume_queue g in
  let newHead := step_head front (direction g1) in
  IsGameOver g newHead = false ->
  newHead = apple g ->
  Main_cpp.Update fuel gen g =
    (r <- Main_cpp.GetNewApplePosition fuel gen
            (set_snake g1 (newHead :: snake g)) ;;
     Done (false, set_apple (set_snake g1 (newHead :: snake g)) (fst r), snd r)).
Proof.
  intros Hs g1 newHead Hfree Heat. subst g1 newHead.
  unfold Main_cpp.Update. cbv zeta.
  rewrite consume_queue_snake, Hs, IsGameOver_consume_queue, Hfree.
  cbn [apple set_snake]. rewrite consume_queue_apple, <- Heat.
  now rewrite (proj2 (Vector2Int_eqb_eq _ _) eq_refl).
Qed.

(** Eating while the grid has room: when the new head is the apple cell and
    there is no collision, [Update] of [snake.cpp] returns false and the
    snake is the new head in front of the whole old body, one cell longer;
    the new apple is a grid cell outside this new body whenever the grid has
    such a cell, and (0,0) when it has none.  [Update] of [src/main.cpp]
    does the same as soon as a pass of its loop draws a free cell.  The
    grid's cell count is taken to fit an [int]. *)
Lemma eating_grows_by_one (gen : G) (g : Game) (front : Vector2Int)
    (rest : list Vector2Int) :
  snake g = front :: rest ->
  let g1 := consume_queue g in
  let newHead := step_head front (direction g1) in
  newHead = apple g ->
  IsGameOver g newHead = false ->
  cell_count g <= max_int ->
  (exists g', Snake_cpp.Update gen g = Done (false, g')
     /\ snake g' = newHead :: snake g
     /\ length (snake g') = S (length (snake g))
     /\ ((exists c, in_grid g c /\ ~ In c (snake g')) ->
         in_grid g (apple g') /\ ~ In (apple g') (snake g'))
     /\ ((forall c, in_grid g c -> In c (snake g')) -> apple g' = cell 0 0))
  /\ (forall n,
        contains (newHead :: snake g)
          (fst (Main_cpp.attempt n gen (set_snake g1 (newHead :: snake g))))
        = false ->
        exists g' gen', Main_cpp.Update (S n) gen g = Done (false, g', gen')
          /\ snake g' = newHead :: snake g
          /\ length (snake g') = S (length (snake g))
          /\ in_grid g (apple g') /\ ~ In (apple g') (snake g')).
Proof.
  intros Hs g1 newHead Heat Hfree Hfit.
  set (g2 := set_snake g1 (newHead :: snake g)).
  assert (Hgrid : forall c, in_grid g2 c <-> in_grid g c).
  { intros c. unfold in_grid, g2, g1. cbn [width height set_snake].
    now rewrite consume_queue_width, consume_queue_height. }
  assert (Hfit2 : cell_count g2 <= max_int).
  { unfold cell_count, g2, g1 in *. cbn [width height set_snake].
    now rewrite consume_queue_width, consume_queue_height. }
  split.
  - destruct (GetNewApplePosition_returns gen g2 Hfit2) as [a [Ha [Hplace Hfull]]].
    exists (set_apple g2 a). split; [|split; [|split; [|split]]].
    + rewrite (Update_eat gen g front rest Hs Hfree Heat).
      fold g1 newHead g2. now rewrite Ha.
    + reflexivity.
    + reflexivity.
    + cbn [snake set_apple apple set_snake g2]. intros [c [Hc Hout]].
      rewrite <- Hgrid. apply Hplace. exists c. now rewrite Hgrid.
    + cbn [snake set_apple apple set_snake g2]. intros Hall.
      apply Hfull. intros c Hc. apply Hall. now apply Hgrid.
  - intros n Hdraw.
    destruct (Main_GetNewApplePosition_hits n gen g2 Hdraw) as [a [gen' Ha]].
    exists (set_apple g2 a), gen'. split; [|split; [|split]].
    + rewrite (Main_Update_eat (S n) gen g front rest Hs Hfree Heat).
      fold g1 newHead g2. now rewrite Ha.
    + reflexivity.
    + reflexivity.
    + apply IsGameOver_false_iff in Hfree as [[Hx Hy] _].
      assert (Hw : 1 <= width g) by lia.
      assert (Hh : 1 <= height g) by lia.
      assert (Hcount : width g * height g <= max_int)
        by (rewrite <- cell_count_nonneg; (lia || assumption)).
      assert (Hsound : in_grid g2 a /\ ~ In a (snake g2)).
      { apply Main_GetNewApplePosition_sound with (S n) gen gen';
          unfold g2, g1; cbn [width height set_snake];
          rewrite ?consume_queue_width, ?consume_queue_height;
          try assumption; try lia;
          unfold in_int, min_int, max_int in *; nia. }
      cbn [snake set_apple apple set_snake g2].
      split; [apply Hgrid|]; apply Hsound.
Qed.

(** [Update] of [src/main.cpp] does not return from the bite that fills the
    grid. *)
Lemma Main_Update_last_bite_diverges (fuel : nat) (gen : G) :
  Main_cpp.Update fuel gen last_bite = OutOfFuel.
Proof.
  rewrite (Main_Update_eat fuel gen last_bite (cell 0 0) [] eq_refl eq_refl eq_refl).
  rewrite Main_GetNewApplePosition_full; [reflexivity | | | | |];
    try (vm_compute; (discriminate || (split; discriminate))).
  intros [cx cy] [Hx Hy]. cbn in *.
  assert (Hcy : cy = 0) by lia. assert (Hcx : cx = 0 \/ cx = 1) by lia.
  subst cy. destruct Hcx as [-> | ->]; auto.
Qed.

End Eating.

(** Claim C2 fails on the bite that fills the grid.  In [last_bite] the head
    at (0,0) moves right onto the apple at (1,0) without collision.  [Update]
    of [snake.cpp] returns false and the snake grows to [(1,0); (0,0)], but
    the new apple is (0,0), inside the snake, where the comment on
    [GetNewApplePosition] promises a position avoiding the snake.  [Update]
    of [src/main.cpp] does not return at all, whatever the engine and
    however much fuel. *)
Theorem C2_last_bite_leaves_apple_in_snake {G : Type} {E : RandomEngine G}
    (gen : G) (fuel : nat) :
  let newHead := step_head (cell 0 0) (direction (consume_queue last_bite)) in
  (snake last_bite = [cell 0 0]
   /\ newHead = apple last_bite
   /\ IsGameOver last_bite newHead = false)
  /\ (exists g', Snake_cpp.Update gen last_bite = Done (false, g')
        /\ snake g' = [cell 1 0; cell 0 0]
        /\ length (snake g') = S (length (snake last_bite))
        /\ apple g' = cell 0 0
        /\ In (apple g') (snake g'))
  /\ Main_cpp.Update fuel gen last_bite = OutOfFuel.
Proof.
  cbv zeta. split; [|split].
  - repeat split; reflexivity.
  - eexists. split; [reflexivity|].
    cbn. repeat split; try reflexivity. right. now left.
  - apply Main_Update_last_bite_diverges.
Qed.

(** The same on the 25 x 25 session grid: the last bite of a perfect game
    leaves the apple on (0,0), under the tail. *)
Lemma last_bite_on_session_grid :
  exists g', Snake_cpp.Update tt last_bite_25 = Done (false, g')
    /\ length (snake g') = 625%nat
    /\ apple g' = cell 0 0
    /\ contains (snake g') (apple g') = true.
Proof.
  destruct (Snake_cpp.Update tt last_bite_25) as [[b g']| |] eqn:Hup;
    vm_compute in Hup; try discriminate.
  injection Hup as <- <-. eexists. split; [reflexivity|].
  vm_compute. repeat split; reflexivity.
Qed.

Lemma eating_grows_by_one_example :
  (snake food_ahead = [cell 2 2; cell 1 2; cell 0 2]
   /\ step_head (cell 2 2) RIGHT = apple food_ahead
   /\ IsGameOver food_ahead (cell 3 2) = false
   /\ cell_count food_ahead <= max_int)
  /\ exists g', Snake_cpp.Update 5 food_ahead = Done (false, g')
       /\ snake g' = [cell 3 2; cell 2 2; cell 1 2; cell 0 2]
       /\ length (snake g') = 4%nat
       /\ ((exists c, in_grid food_ahead c /\ ~ In c (snake g')) ->
           in_grid food_ahead (apple g') /\ ~ In (apple g') (snake g'))
       /\ ((forall c, in_grid food_ahead c -> In c (snake g')) ->
           apple g' = cell 0 0).
Proof.
  assert (Hfit : cell_count food_ahead <= max_int) by (vm_compute; discriminate).
  split.
  - repeat split; (reflexivity || exact Hfit).
  - exact (proj1 (eating_grows_by_one 5 food_ahead (cell 2 2)
                    [cell 1 2; cell 0 2] eq_refl eq_refl eq_refl Hfit)).
Defined.

(** ** The queue front is committed before the collision check *)

Section QueueCommit.
Context {G : Type} {E : RandomEngine G}.

Lemma Main_Update_move (fuel : nat) (gen : G) (g : Game) (front : Vector2Int)
    (rest : list Vector2Int) :
  snake g = front :: rest ->
  let g1 := consume_queue g in
  let newHead := step_head front (direction g1) in
  IsGameOver g newHead = false ->
  newHead <> apple g ->
  Main_cpp.Update fuel gen g =
    Done (false, set_snake g1 (newHead :: removelast (snake g)), gen).
Proof.
  intros Hs g1 newHead Hfree Hmove. subst g1 newHead.
  unfold Main_cpp.Update. cbv zeta.
  rewrite consume_queue_snake, Hs, IsGameOver_consume_queue, Hfree.
  cbn [apple set_snake snake]. rewrite consume_queue_apple.
  rewrite (proj2 (Vector2Int_eqb_neq _ _) Hmove).
  reflexivity.
Qed.

(** Claim C10: with a non-empty queue, [Update] returns, and it pops the
    front entry into the committed direction before it checks for a
    collision: the flag it returns is that of the head moved along the popped
    direction, and whatever the flag, the state it leaves has that direction
    committed and the rest of the queue pending.  On a game over the state
    left is the popped one, unchanged otherwise, and the [ResetGame] that
    follows returns with the three cells laid out against the popped
    direction.  This holds in [snake.cpp] outright, and in [src/main.cpp]
    with the proviso of its rejection loop: where the tick eats, and in
    [ResetGame], the call returns as soon as a pass of the loop draws a cell
    off the snake. *)
Theorem C10_dequeue_before_collision_check (gen genReset : G) (g : Game)
    (d : Direction) (q : list Direction) (front : Vector2Int)
    (rest : list Vector2Int) :
  directionQueue g = d :: q ->
  snake g = front :: rest ->
  in_int (width g) -> in_int (height g) -> cell_count g <= max_int ->
  let g1 := set_directionQueue (set_direction g d) q in
  let newHead := step_head front d in
  let o := OffsetFromDirection d in
  let cx := Z.quot (width g) 2 in
  let cy := Z.quot (height g) 2 in
  let body := [cell cx cy; cell (cx - x o) (cy - y o);
               cell (cx - 2 * x o) (cy - 2 * y o)] in
  ((exists g', Snake_cpp.Update gen g = Done (IsGameOver g newHead, g')
      /\ direction g' = d /\ directionQueue g' = q)
   /\ (IsGameOver g newHead = true ->
       Snake_cpp.Update gen g = Done (true, g1)
       /\ exists g2, Snake_cpp.ResetGame genReset g1 = Done g2
            /\ direction g2 = d /\ snake g2 = body))
  /\ ((forall fuel b g' gen', Main_cpp.Update fuel gen g = Done (b, g', gen') ->
       b = IsGameOver g newHead
       /\ direction g' = d /\ directionQueue g' = q)
      /\ (IsGameOver g newHead = false -> newHead <> apple g ->
          forall fuel,
            exists g', Main_cpp.Update fuel gen g = Done (false, g', gen)
              /\ direction g' = d /\ directionQueue g' = q)
      /\ (IsGameOver g newHead = false -> newHead = apple g ->
          forall n,
            contains (newHead :: snake g)
              (fst (Main_cpp.attempt n gen (set_snake g1 (newHead :: snake g))))
            = false ->
            exists g' gen', Main_cpp.Update (S n) gen g = Done (false, g', gen')
              /\ direction g' = d /\ directionQueue g' = q)
      /\ (IsGameOver g newHead = true ->
          (forall fuel, Main_cpp.Update fuel gen g = Done (true, g1, gen))
          /\ (forall n,
                contains body
                  (fst (Main_cpp.attempt n genReset (set_snake g1 body)))
                = false ->
                exists g2 gen2,
                  Main_cpp.ResetGame (S n) genReset g1 = Done (g2, gen2)
                  /\ direction g2 = d /\ snake g2 = body)
          /\ (forall fuel g2 gen2,
                Main_cpp.ResetGame fuel genReset g1 = Done (g2, gen2) ->
                direction g2 = d /\ snake g2 = body))).
Proof.
  intros Hq Hs Hiw Hih Hfit g1 newHead o cx cy body.
  pose proof (consume_queue_cons g d q Hq) as Hcons. fold g1 in Hcons.
  assert (Hdir : direction (consume_queue g) = d) by now rewrite Hcons.
  assert (Hhead : step_head front (direction (consume_queue g)) = newHead)
    by now rewrite Hdir.
  split; [split | split; [|split; [|split]]].
  - destruct (IsGameOver g newHead) eqn:Hover.
    + exists g1. split; [|split; reflexivity].
      rewrite <- Hcons. apply Update_game_over with front rest; [assumption|].
      now rewrite Hhead.
    + destruct (Vector2Int_eqb newHead (apple g)) eqn:Heq.
      * apply Vector2Int_eqb_eq in Heq.
        pose proof (Update_eat gen g front rest Hs) as Heat.
        cbv zeta in Heat. rewrite Hhead, Hcons in Heat.
        specialize (Heat Hover Heq).
        assert (Hfit2 : cell_count (set_snake g1 (newHead :: snake g)) <= max_int)
          by exact Hfit.
        destruct (GetNewApplePosition_returns gen
                    (set_snake g1 (newHead :: snake g)) Hfit2) as [a [Ha _]].
        exists (set_apple (set_snake g1 (newHead :: snake g)) a).
        split; [|split; reflexivity].
        rewrite Heat, Ha. reflexivity.
      * apply Vector2Int_eqb_neq in Heq.
        pose proof (Update_move gen g front rest Hs) as Hmove.
        cbv zeta in Hmove. rewrite Hhead, Hcons in Hmove.
        specialize (Hmove Hover Heq).
        exists (set_snake g1 (newHead :: removelast (snake g))).
        split; [exact Hmove|split; reflexivity].
  - intros Hover. split.
    + rewrite <- Hcons. apply Update_game_over with front rest; [assumption|].
      now rewrite Hhead.
    + assert (Hfit1 : cell_count g1 <= max_int) by exact Hfit.
      destruct (GetNewApplePosition_returns genReset
                  (set_snake g1 (reset_layout g1)) Hfit1) as [a [Ha _]].
      exists (set_apple (set_snake g1 (reset_layout g1)) a). split; [|split].
      * rewrite ResetGame_unfold by assumption. now rewrite Ha.
      * reflexivity.
      * reflexivity.
  - intros fuel b g' gen' Hup.
    destruct (Main_Update_flag fuel gen g front rest b g' gen' Hs Hup) as [Hb _].
    rewrite Hhead in Hb. split; [assumption|].
    now apply Main_Update_commits_front with fuel gen gen' g b.
  - intros Hover Hne fuel.
    pose proof (Main_Update_move fuel gen g front rest Hs) as Hmove.
    cbv zeta in Hmove. rewrite Hhead, Hcons in Hmove.
    specialize (Hmove Hover Hne).
    exists (set_snake g1 (newHead :: removelast (snake g))).
    split; [exact Hmove|split; reflexivity].
  - intros Hover Heq n Hdraw.
    pose proof (Main_Update_eat (S n) gen g front rest Hs) as Heat.
    cbv zeta in Heat. rewrite Hhead, Hcons in Heat.
    specialize (Heat Hover Heq).
    destruct (Main_GetNewApplePosition_hits n gen
                (set_snake g1 (newHead :: snake g)) Hdraw) as [a [gen' Ha]].
    exists (set_apple (set_snake g1 (newHead :: snake g)) a), gen'.
    split; [|split; reflexivity].
    rewrite Heat, Ha. reflexivity.
  - intros Hover. split; [|split].
    + intros fuel. rewrite <- Hcons.
      apply Main_Update_game_over with front rest; [assumption|].
      now rewrite Hhead.
    + intros n Hdraw.
      destruct (Main_GetNewApplePosition_hits n genReset
                  (set_snake g1 (reset_layout g1)) Hdraw) as [a [gen2 Ha]].
      exists (set_apple (set_snake g1 (reset_layout g1)) a), gen2.
      split; [|split; reflexivity].
      rewrite Main_ResetGame_unfold by assumption. now rewrite Ha.
    + intros fuel g2 gen2. rewrite Main_ResetGame_unfold by assumption.
      destruct (Main_cpp.GetNewApplePosition _ _ _) as [[a gen3]| |];
        cbn [bind]; try discriminate.
      intros [= <- <-]. split; reflexivity.
Qed.

End QueueCommit.

Lemma C10_dequeue_before_collision_check_witness :
  (directionQueue wall_ahead = [RIGHT; DOWN]
   /\ snake wall_ahead = [cell 4 2; cell 3 2; cell 2 2]
   /\ in_int (width wall_ahead) /\ in_int (height wall_ahead)
   /\ cell_count wall_ahead <= max_int
   /\ IsGameOver wall_ahead (step_head (cell 4 2) RIGHT) = true
   /\ IsGameOver wall_ahead (step_head (cell 4 2) (direction wall_ahead)) = false
   /\ contains [cell 2 2; cell 1 2; cell 0 2]
        (fst (Main_cpp.attempt 0 tt
                (set_snake (set_directionQueue (set_direction wall_ahead RIGHT) [DOWN])
                   [cell 2 2; cell 1 2; cell 0 2]))) = false)
  /\ (Snake_cpp.Update tt wall_ahead
      = Done (true, set_directionQueue (set_direction wall_ahead RIGHT) [DOWN])
      /\ exists g2,
           Snake_cpp.ResetGame tt
             (set_directionQueue (set_direction wall_ahead RIGHT) [DOWN]) = Done g2
           /\ direction g2 = RIGHT
           /\ snake g2 = [cell 2 2; cell 1 2; cell 0 2])
  /\ (Main_cpp.Update 0 tt wall_ahead
      = Done (true, set_directionQueue (set_direction wall_ahead RIGHT) [DOWN], tt)
      /\ exists g2 gen2,
           Main_cpp.ResetGame 1 tt
             (set_directionQueue (set_direction wall_ahead RIGHT) [DOWN])
           = Done (g2, gen2)
           /\ direction g2 = RIGHT
           /\ snake g2 = [cell 2 2; cell 1 2; cell 0 2]).
Proof.
  assert (Hiw : in_int (width wall_ahead)) by (vm_compute; split; discriminate).
  assert (Hih : in_int (height wall_ahead)) by (vm_compute; split; discriminate).
  assert (Hfit : cell_count wall_ahead <= max_int) by (vm_compute; discriminate).
  pose proof (C10_dequeue_before_collision_check tt tt wall_ahead
                RIGHT [DOWN] (cell 4 2) [cell 3 2; cell 2 2]
                eq_refl eq_refl Hiw Hih Hfit) as [[_ Hsnake] [_ [_ [_ Hmain]]]].
  split; [|split].
  - repeat split; first [reflexivity | apply Hiw | apply Hih | exact Hfit].
  - exact (Hsnake eq_refl).
  - destruct (Hmain eq_refl) as [Hup [Hreset _]].
    split; [exact (Hup 0%nat)|exact (Hreset 0%nat eq_refl)].
Defined.

(** ** The direction queue *)

Lemma turn_allowed_not_opposite (newDirection lastDirection : Direction) :
  turn_allowed newDirection lastDirection
  = negb (IsOpposite lastDirection newDirection).
Proof. now destruct newDirection, lastDirection. Qed.

Lemma last_cons (a dflt : Direction) (l : list Direction) :
  last (a :: l) dflt = last l a.
Proof.
  revert a dflt. induction l as [|b l IH]; intros a dflt.
  - reflexivity.
  - change (last (a :: b :: l) dflt) with (last (b :: l) dflt).
    now rewrite !IH.
Qed.

(** The direction a new entry has to follow is the last of the effective
    sequence. *)
Lemma back_is_last_effective (g : Game) :
  (if empty (directionQueue g) then direction g
   else back (directionQueue g) (direction g))
  = last (effective g) (direction g).
Proof.
  unfold effective, back. rewrite last_cons.
  now destruct (directionQueue g).
Qed.

Lemma no_reversal_snoc (ds : list Direction) (a d : Direction) :
  no_reversal ((a :: ds) ++ [d])
  = no_reversal (a :: ds) && negb (IsOpposite (last ds a) d).
Proof.
  revert a. induction ds as [|b ds IH]; intros a.
  - simpl. now rewrite andb_true_r.
  - change (no_reversal ((a :: b :: ds) ++ [d]))
      with (negb (IsOpposite a b) && no_reversal ((b :: ds) ++ [d])).
    rewrite IH.
    change (no_reversal (a :: b :: ds))
      with (negb (IsOpposite a b) && no_reversal (b :: ds)).
    change (last (b :: ds) a) with (last (b :: ds) a).
    rewrite last_cons. now rewrite andb_assoc.
Qed.

(** What one call can do to the state: nothing, or append the request, and
    then only a request that is no reversal of the entry before it and only
    onto a queue of fewer than three. *)
Lemma QueueDirection_cases (g : Game) (d : Direction) :
  Snake_cpp.QueueDirection g d = g
  \/ (Snake_cpp.QueueDirection g d
        = set_directionQueue g (directionQueue g ++ [d])
      /\ (length (directionQueue g) < 3)%nat
      /\ IsOpposite (last (effective g) (direction g)) d = false).
Proof.
  unfold Snake_cpp.QueueDirection.
  destruct (Nat.leb_spec 3 (length (directionQueue g))) as [Hfull | Hroom];
    [now left|].
  cbv zeta. rewrite back_is_last_effective, turn_allowed_not_opposite.
  destruct (IsOpposite _ d); cbn [negb]; [now left | right; auto].
Qed.

Lemma Main_QueueDirection_cases (g : Game) (d : Direction) :
  Main_cpp.QueueDirection g d = g
  \/ (Main_cpp.QueueDirection g d
        = set_directionQueue g (directionQueue g ++ [d])
      /\ (length (directionQueue g) < 3)%nat
      /\ IsOpposite (last (effective g) (direction g)) d = false).
Proof.
  unfold Main_cpp.QueueDirection.
  destruct (Nat.leb_spec 3 (length (directionQueue g))) as [Hfull | Hroom];
    [now left|].
  destruct (negb (empty (directionQueue g)) && _); [now left|].
  rewrite <- (back_is_last_effective g). cbv zeta.
  destruct (empty (directionQueue g)); rewrite turn_allowed_not_opposite;
    destruct (IsOpposite _ d); cbn [negb]; auto.
Qed.

Lemma queue_ok_step (Q : Game -> Direction -> Game) :
  (forall g d, Q g d = g
     \/ (Q g d = set_directionQueue g (directionQueue g ++ [d])
         /\ (length (directionQueue g) < 3)%nat
         /\ IsOpposite (last (effective g) (direction g)) d = false)) ->
  forall g d, queue_ok g -> queue_ok (Q g d) /\ direction (Q g d) = direction g.
Proof.
  intros HQ g d [Hrev Hlen]. destruct (HQ g d) as [-> | [-> [Hroom Hturn]]].
  - split; [split|]; auto.
  - split; [split|].
    + unfold effective in *. cbn [direction directionQueue set_directionQueue].
      change (direction g :: directionQueue g ++ [d])
        with ((direction g :: directionQueue g) ++ [d]).
      rewrite no_reversal_snoc, Hrev. rewrite last_cons in Hturn.
      now rewrite Hturn.
    + cbn [directionQueue set_directionQueue]. rewrite length_app. simpl. lia.
    + reflexivity.
Qed.

Lemma queue_ok_fold (Q : Game -> Direction -> Game) :
  (forall g d, queue_ok g -> queue_ok (Q g d) /\ direction (Q g d) = direction g) ->
  forall ds g, queue_ok g ->
    queue_ok (fold_left Q ds g) /\ direction (fold_left Q ds g) = direction g.
Proof.
  intros Hstep ds. induction ds as [|d ds IH]; intros g Hok.
  - now split.
  - cbn [fold_left]. destruct (Hstep g d Hok) as [Hok' Hdir].
    destruct (IH _ Hok') as [Hfin Hdir']. split; [assumption | congruence].
Qed.

(** Claim C6: from a state whose effective sequence (committed direction,
    then the queue in order) has no two neighbours opposite and whose queue
    holds at most three entries, any sequence of [QueueDirection] calls leads
    to a state with the same two properties; the committed direction is
    untouched.  Both revisions of [QueueDirection] keep the invariant. *)
Theorem C6_enqueue_keeps_queue_invariant (g : Game) (ds : list Direction) :
  no_reversal (effective g) = true ->
  (length (directionQueue g) <= 3)%nat ->
  (no_reversal (effective (fold_left Snake_cpp.QueueDirection ds g)) = true
   /\ (length (directionQueue (fold_left Snake_cpp.QueueDirection ds g)) <= 3)%nat
   /\ direction (fold_left Snake_cpp.QueueDirection ds g) = direction g)
  /\ (no_reversal (effective (fold_left Main_cpp.QueueDirection ds g)) = true
      /\ (length (directionQueue (fold_left Main_cpp.QueueDirection ds g)) <= 3)%nat
      /\ direction (fold_left Main_cpp.QueueDirection ds g) = direction g).
Proof.
  intros Hrev Hlen. assert (Hok : queue_ok g) by now split.
  split.
  - destruct (queue_ok_fold Snake_cpp.QueueDirection
                (queue_ok_step _ QueueDirection_cases) ds g Hok)
      as [[H1 H2] H3].
    auto.
  - destruct (queue_ok_fold Main_cpp.QueueDirection
                (queue_ok_step _ Main_QueueDirection_cases) ds g Hok)
      as [[H1 H2] H3].
    auto.
Qed.

(** [QueueDirection] of [src/main.cpp] does what claim C4 says: a request
    equal to the last queued entry leaves the state as it is. *)
Lemma Main_QueueDirection_coalesces (g : Game) (q : list Direction)
    (d : Direction) :
  directionQueue g = q ++ [d] -> Main_cpp.QueueDirection g d = g.
Proof.
  intros Hq. unfold Main_cpp.QueueDirection.
  destruct (Nat.leb 3 (length (directionQueue g))); [reflexivity|].
  rewrite Hq. unfold back. rewrite last_last, Direction_eqb_refl.
  now destruct q.
Qed.

(** Claim C4 fails on [QueueDirection] of [snake.cpp]: with [UP] as the only
    queued entry and the snake heading right, a second request for [UP] is
    appended, and the queue holds the duplicate pair. *)
Theorem C4_snake_cpp_queues_duplicate :
  directionQueue up_queued = [UP]
  /\ directionQueue (Snake_cpp.QueueDirection up_queued UP) = [UP; UP]
  /\ Snake_cpp.QueueDirection up_queued UP <> up_queued
  /\ Main_cpp.QueueDirection up_queued UP = up_queued.
Proof.
  repeat split; try reflexivity. intros K.
  apply (f_equal directionQueue) in K. discriminate K.
Qed.

Lemma C6_enqueue_keeps_queue_invariant_witness :
  (no_reversal (effective up_queued) = true
   /\ (length (directionQueue up_queued) <= 3)%nat)
  /\ no_reversal
       (effective (fold_left Snake_cpp.QueueDirection
                     [DOWN; LEFT; RIGHT; DOWN; UP; LEFT] up_queued)) = true
  /\ (length (directionQueue
                (fold_left Snake_cpp.QueueDirection
                   [DOWN; LEFT; RIGHT; DOWN; UP; LEFT] up_queued)) <= 3)%nat
  /\ direction (fold_left Snake_cpp.QueueDirection
                  [DOWN; LEFT; RIGHT; DOWN; UP; LEFT] up_queued) = RIGHT.
Proof.
  assert (Hlen : (length (directionQueue up_queued) <= 3)%nat) by (simpl; lia).
  split.
  - split; [reflexivity | exact Hlen].
  - exact (proj1 (C6_enqueue_keeps_queue_invariant up_queued
                    [DOWN; LEFT; RIGHT; DOWN; UP; LEFT] eq_refl Hlen)).
Defined.

(** ** Cell size *)

Lemma quot_in_int (a b : Z) : in_int a -> 1 <= b -> in_int (Z.quot a b).
Proof.
  unfold in_int, min_int, max_int. intros Ha Hb.
  destruct (Z.le_gt_cases 0 a) as [Hpos | Hneg].
  - pose proof (Z.quot_pos a b Hpos ltac:(lia)).
    assert (Z.quot a b <= a) by (apply Z.quot_le_upper_bound; nia).
    lia.
  - assert (Hopp : Z.quot a b = - Z.quot (- a) b).
    { rewrite Z.quot_opp_l by lia. lia. }
    pose proof (Z.quot_pos (- a) b ltac:(lia) ltac:(lia)).
    assert (Z.quot (- a) b <= - a) by (apply Z.quot_le_upper_bound; nia).
    lia.
Qed.

Lemma int_div_quot (a b : Z) :
  in_int a -> 1 <= b -> int_div a b = Done (Z.quot a b).
Proof.
  intros Ha Hb. unfold int_div.
  destruct (Z.eqb_spec b 0) as [-> | _]; [lia|].
  destruct (Z.eqb_spec b (-1)) as [-> | _]; [lia|].
  rewrite andb_false_r. unfold int_quot.
  now rewrite wrap_small by now apply quot_in_int.
Qed.

(** *** The [float] revision

    Rounding moves to one of the two neighbouring integers, and upward only
    from the upper half. *)
Lemma round_half_even_cases n d :
  Part_001.round_half_even n d = n / d
  \/ (Part_001.round_half_even n d = n / d + 1 /\ d <= 2 * (n mod d)).
Proof.
  unfold Part_001.round_half_even.
  destruct (2 * (n mod d) <? d) eqn:H1; [now left|].
  apply Z.ltb_ge in H1.
  destruct (d <? 2 * (n mod d)) eqn:H2; [right; split; [reflexivity|lia]|].
  destruct (Z.even (n / d)); [now left|right; split; [reflexivity|lia]].
Qed.

(** Rounding the mantissa of a quotient whose numerator has fewer than 25
    bits never reaches the next integer. *)
Lemma round_half_even_no_cross a b s :
  1 <= b -> 0 <= a < 2 ^ 24 -> 1 <= s -> 2 ^ 23 * b <= a * s ->
  a / b * s <= Part_001.round_half_even (a * s) b < (a / b + 1) * s.
Proof.
  intros Hb Ha Hs Hnorm.
  pose proof (Z.div_mod a b ltac:(lia)) as Ediv.
  pose proof (Z.mod_pos_bound a b ltac:(lia)) as Rdiv.
  pose proof (Z.div_mod (a * s) b ltac:(lia)) as EF.
  pose proof (Z.mod_pos_bound (a * s) b ltac:(lia)) as RF.
  set (k := a / b) in *. set (r0 := a mod b) in *.
  set (F := a * s / b) in *. set (r := (a * s) mod b) in *.
  assert (HkF : k * s <= F).
  { apply Z.div_le_lower_bound; [lia|]. nia. }
  assert (HFk : F <= (k + 1) * s - 1).
  { assert (F < (k + 1) * s); [|lia].
    apply Z.div_lt_upper_bound; [lia|]. nia. }
  destruct (round_half_even_cases (a * s) b) as [-> | [-> Hup]]; fold F.
  - lia.
  - split; [lia|].
    fold r in Hup.
    assert (F <> (k + 1) * s - 1); [|lia].
    intros HF.
    assert (Hr : r = b - s * (b - r0)) by nia.
    assert (b >= 2 * s) by nia.
    assert (2 ^ 24 * s <= a * s) by nia.
    nia.
Qed.

(** The quotient of a numerator below 2^24 by a positive divisor rounds to a
    [float] that lies in the same unit interval as the exact quotient. *)
Lemma float_div_small a b :
  1 <= a < 2 ^ 24 -> 1 <= b ->
  exists m s, Part_001.float_div a b = Part_001.Finite m s
    /\ 1 <= s /\ a / b * s <= m < (a / b + 1) * s.
Proof.
  intros Ha Hb. unfold Part_001.float_div.
  destruct (Z.eqb_spec b 0) as [|_]; [lia|].
  destruct (Z.eqb_spec a 0) as [|_]; [lia|].
  rewrite (Z.abs_eq a), (Z.abs_eq b) by lia.
  rewrite (Z.sgn_pos a), (Z.sgn_pos b) by lia.
  set (k := Z.log2 b + 1).
  set (q0 := a * 2 ^ k / b).
  set (l := Z.log2 q0).
  pose proof (Z.log2_nonneg b) as Hlb.
  pose proof (Z.log2_spec b ltac:(lia)) as Hb2. fold k in Hb2.
  replace (Z.succ (Z.log2 b)) with k in Hb2 by (unfold k; lia).
  assert (Hk : 0 <= k) by (unfold k; lia).
  assert (Hpk : 0 < 2 ^ k) by (apply Z.pow_pos_nonneg; lia).
  assert (Hq0 : 1 <= q0).
  { apply Z.div_le_lower_bound; [lia|]. nia. }
  pose proof (Z.log2_nonneg q0) as Hl. fold l in Hl.
  pose proof (Z.log2_spec q0 ltac:(lia)) as Hq2. fold l in Hq2.
  assert (Hmul : b * q0 <= a * 2 ^ k) by (apply Z.mul_div_le; lia).
  assert (Hle : q0 <= a * 2 ^ k).
  { apply Z.div_le_upper_bound; [lia|]. nia. }
  assert (Hl24 : l < 24 + k).
  { apply (Z.pow_lt_mono_r_iff 2); [lia|lia|].
    rewrite Z.pow_add_r by lia. nia. }
  rewrite (Z.max_r 0 (23 - (l - k))) by lia.
  rewrite (Z.max_l 0 (l - k - 23)) by lia.
  set (p := 23 - (l - k)).
  assert (Hp : 0 <= p) by (unfold p; lia).
  assert (Hs : 0 < 2 ^ p) by (apply Z.pow_pos_nonneg; lia).
  assert (Hpl : 0 < 2 ^ l) by (apply Z.pow_pos_nonneg; lia).
  assert (Hnorm : 2 ^ 23 * b <= a * 2 ^ p).
  { assert (E : 2 ^ p * 2 ^ l = 2 ^ 23 * 2 ^ k).
    { rewrite <- !Z.pow_add_r by lia. f_equal. unfold p. lia. }
    assert (b * 2 ^ l <= a * 2 ^ k) by nia.
    apply (Z.mul_le_mono_pos_r _ _ (2 ^ l)); [lia|].
    replace (a * 2 ^ p * 2 ^ l) with (a * (2 ^ p * 2 ^ l)) by ring.
    rewrite E. nia. }
  change (2 ^ 0) with 1. rewrite !Z.mul_1_r, !Z.mul_1_l.
  eexists _, _. split; [reflexivity|]. split; [lia|].
  apply round_half_even_no_cross; lia.
Qed.

(** Truncation toward zero, in inequalities. *)
Lemma quot_bounds n d :
  0 < d ->
  (0 <= n -> d * Z.quot n d <= n < d * (Z.quot n d + 1))
  /\ (n <= 0 -> d * (Z.quot n d - 1) < n <= d * Z.quot n d).
Proof.
  intros Hd. split; intros Hn.
  - pose proof (Z.quot_rem' n d). pose proof (Z.rem_bound_pos n d Hn Hd). lia.
  - pose proof (Z.quot_rem' (- n) d) as E.
    pose proof (Z.rem_bound_pos (- n) d ltac:(lia) Hd).
    rewrite Z.quot_opp_l in E by lia. lia.
Qed.

(** [static_cast<int>] truncates toward zero, and truncation is monotone. *)
Lemma quot_monotone n d n' d' :
  0 < d -> 0 < d' -> n * d' <= n' * d -> Z.quot n d <= Z.quot n' d'.
Proof.
  intros Hd Hd' H.
  destruct (quot_bounds n d Hd) as [P N].
  destruct (quot_bounds n' d' Hd') as [P' N'].
  set (q := Z.quot n d) in *. set (q' := Z.quot n' d') in *.
  destruct (Z_lt_le_dec q' q) as [Hlt|]; [exfalso|lia].
  destruct (Z_lt_le_dec n 0) as [Hn|Hn]; destruct (Z_lt_le_dec n' 0) as [Hn'|Hn'].
  - specialize (N ltac:(lia)). specialize (N' ltac:(lia)).
    assert (d' * q' <= d' * (q - 1)) by nia.
    assert (d * (q - 1) * d' < n * d') by nia.
    assert (n' * d <= d' * q' * d) by nia.
    nia.
  - specialize (N ltac:(lia)). specialize (P' ltac:(lia)).
    assert (q <= 0) by nia. assert (0 <= q') by nia. lia.
  - nia.
  - specialize (P ltac:(lia)). specialize (P' ltac:(lia)).
    assert (d * (q' + 1) <= d * q) by nia.
    assert (n' * d < d' * (q' + 1) * d) by nia.
    nia.
Qed.

(** An [int] below 2^24 in magnitude converts to [float] unchanged. *)
Lemma float_of_int_small n :
  - 2 ^ 24 < n < 2 ^ 24 -> Part_001.float_of_int n = n.
Proof.
  intros H. unfold Part_001.float_of_int.
  destruct (Z.ltb_spec (Z.abs n) (2 ^ 24)); [reflexivity|lia].
Qed.

Lemma float_div_opp a b :
  a <> 0 -> b <> 0 ->
  forall m s, Part_001.float_div a b = Part_001.Finite m s ->
  Part_001.float_div (- a) b = Part_001.Finite (- m) s.
Proof.
  intros Ha Hb m s. unfold Part_001.float_div.
  destruct (Z.eqb_spec b 0) as [|_]; [lia|].
  destruct (Z.eqb_spec a 0) as [|_]; [lia|].
  destruct (Z.eqb_spec (- a) 0) as [|_]; [lia|].
  rewrite Z.abs_opp, Z.sgn_opp.
  match goal with
  | |- Part_001.Finite ?X ?S = _ -> Part_001.Finite ?Y ?S = _ =>
      replace Y with (- X) by ring; generalize X, S
  end.
  intros X S E. injection E as <- <-. reflexivity.
Qed.

(** Below 2^24, dividing in [float] and truncating is dividing in [int]. *)
Lemma float_div_truncates a b :
  - 2 ^ 24 < a < 2 ^ 24 -> 1 <= b ->
  exists m s, Part_001.float_div a b = Part_001.Finite m s
    /\ 0 < s /\ Z.quot m s = Z.quot a b.
Proof.
  intros Ha Hb.
  assert (Pos : forall c, 1 <= c < 2 ^ 24 ->
            exists m s, Part_001.float_div c b = Part_001.Finite m s
              /\ 0 < s /\ 0 <= m /\ Z.quot m s = Z.quot c b).
  { intros c Hc.
    destruct (float_div_small c b Hc Hb) as (m & s & E & Hs & Hm).
    exists m, s. split; [exact E|].
    assert (0 <= c / b) by (apply Z.div_pos; lia).
    assert (0 <= m) by nia.
    split; [lia|]. split; [lia|].
    rewrite !Z.quot_div_nonneg by lia.
    symmetry. apply (Z.div_unique m s (c / b) (m - c / b * s)); lia. }
  destruct (Z.lt_trichotomy a 0) as [Hneg | [-> | Hpos]].
  - destruct (Pos (- a) ltac:(lia)) as (m & s & E & Hs & Hm & Hq).
    exists (- m), s. split; [|split; [lia|]].
    + rewrite <- (Z.opp_involutive a) at 1.
      apply float_div_opp; [lia|lia|exact E].
    + rewrite (Z.quot_opp_l m s), Hq, (Z.quot_opp_l a b) by lia. lia.
  - exists 0, 1. split.
    { unfold Part_001.float_div.
      destruct (Z.eqb_spec b 0) as [|_]; [lia|reflexivity]. }
    split; [lia|].
    now rewrite !Z.quot_0_l by lia.
  - destruct (Pos a ltac:(lia)) as (m & s & E & Hs & _ & Hq). eauto.
Qed.

Lemma std_min_truncates m s m' s' :
  0 < s -> 0 < s' -> in_int (Z.quot m s) -> in_int (Z.quot m' s') ->
  Part_001.static_cast_int
    (Part_001.std_min (Part_001.Finite m s) (Part_001.Finite m' s'))
  = Done (Z.min (Z.quot m s) (Z.quot m' s')).
Proof.
  intros Hs Hs' [L U] [L' U'].
  unfold Part_001.std_min, Part_001.float_lt.
  destruct (Z.ltb_spec (m' * s) (m * s')) as [Hlt | Hge]; cbn [Part_001.static_cast_int].
  - assert (Z.quot m' s' <= Z.quot m s) by (apply quot_monotone; lia).
    rewrite Z.min_r by lia.
    destruct (Z.leb_spec min_int (Z.quot m' s')); [|lia].
    destruct (Z.leb_spec (Z.quot m' s') max_int); [reflexivity|lia].
  - assert (Z.quot m s <= Z.quot m' s') by (apply quot_monotone; lia).
    rewrite Z.min_l by lia.
    destruct (Z.leb_spec min_int (Z.quot m s)); [|lia].
    destruct (Z.leb_spec (Z.quot m s) max_int); [reflexivity|lia].
Qed.

(** Below 2^24 the [float] revision computes what the [int] revisions
    compute. *)
Lemma Part_001_GetCellSize_small gameWidth gameHeight screenWidth screenHeight :
  1 <= gameWidth < 2 ^ 24 -> 1 <= gameHeight < 2 ^ 24 ->
  - 2 ^ 24 < screenWidth - 2 * BORDER_THICKNESS < 2 ^ 24 ->
  - 2 ^ 24 < screenHeight - 2 * BORDER_THICKNESS < 2 ^ 24 ->
  Part_001.GetCellSize gameWidth gameHeight screenWidth screenHeight
  = Done (Z.min (Z.quot (screenWidth - 2 * BORDER_THICKNESS) gameWidth)
                (Z.quot (screenHeight - 2 * BORDER_THICKNESS) gameHeight)).
Proof.
  unfold BORDER_THICKNESS. intros Hw Hh Hsw Hsh.
  unfold Part_001.GetCellSize, BORDER_THICKNESS, int_sub, int_mul.
  change (wrap (2 * 2)) with 4.
  rewrite !wrap_small by (unfold in_int, min_int, max_int; lia).
  replace (screenWidth - 4) with (screenWidth - 2 * 2) by lia.
  replace (screenHeight - 4) with (screenHeight - 2 * 2) by lia.
  rewrite !float_of_int_small by lia.
  destruct (float_div_truncates (screenWidth - 2 * 2) gameWidth ltac:(lia) ltac:(lia))
    as (m & s & -> & Hs & Hq).
  destruct (float_div_truncates (screenHeight - 2 * 2) gameHeight ltac:(lia) ltac:(lia))
    as (m' & s' & -> & Hs' & Hq').
  rewrite <- Hq, <- Hq'.
  apply std_min_truncates; [lia|lia| |].
  - rewrite Hq. apply quot_in_int; [unfold in_int, min_int, max_int; lia|lia].
  - rewrite Hq'. apply quot_in_int; [unfold in_int, min_int, max_int; lia|lia].
Qed.

(** Claim C9, as the code has it.  For grid dimensions of at least 1 and
    viewport dimensions from which the two borders can be subtracted within
    [int], [GetCellSize] of [snake.cpp] and of [src/main.cpp] returns the
    smaller of (screenWidth - 2*2) / gameWidth and
    (screenHeight - 2*2) / gameHeight, where / is the division of C++, which
    truncates toward zero; the value is not clamped.  When neither viewport
    dimension is below the two borders this is the floor division of the
    specification.  [GetCellSize] of the revision before [src/main.cpp],
    which divides in [float], returns the same value as long as the grid
    dimensions and the viewport dimensions less the borders stay below 2^24
    in magnitude, where every [int] is a [float]. *)
Theorem C9_GetCellSize_truncates (gameWidth gameHeight screenWidth screenHeight : Z) :
  1 <= gameWidth -> 1 <= gameHeight ->
  min_int + 4 <= screenWidth <= max_int ->
  min_int + 4 <= screenHeight <= max_int ->
  (GetCellSize gameWidth gameHeight screenWidth screenHeight
   = Done (Z.min (Z.quot (screenWidth - 2 * BORDER_THICKNESS) gameWidth)
                 (Z.quot (screenHeight - 2 * BORDER_THICKNESS) gameHeight))
   /\ (2 * BORDER_THICKNESS <= screenWidth ->
       2 * BORDER_THICKNESS <= screenHeight ->
       GetCellSize gameWidth gameHeight screenWidth screenHeight
       = Done (CellSize_spec gameWidth gameHeight screenWidth screenHeight
                 BORDER_THICKNESS)))
  /\ (gameWidth < 2 ^ 24 -> gameHeight < 2 ^ 24 ->
      - 2 ^ 24 < screenWidth - 2 * BORDER_THICKNESS < 2 ^ 24 ->
      - 2 ^ 24 < screenHeight - 2 * BORDER_THICKNESS < 2 ^ 24 ->
      Part_001.GetCellSize gameWidth gameHeight screenWidth screenHeight
      = Done (Z.min (Z.quot (screenWidth - 2 * BORDER_THICKNESS) gameWidth)
                    (Z.quot (screenHeight - 2 * BORDER_THICKNESS) gameHeight))
      /\ (2 * BORDER_THICKNESS <= screenWidth ->
          2 * BORDER_THICKNESS <= screenHeight ->
          Part_001.GetCellSize gameWidth gameHeight screenWidth screenHeight
          = Done (CellSize_spec gameWidth gameHeight screenWidth screenHeight
                    BORDER_THICKNESS))).
Proof.
  intros Hgw Hgh Hsw Hsh.
  assert (Hborder : int_mul BORDER_THICKNESS 2 = 4) by reflexivity.
  assert (Hw : int_sub screenWidth 4 = screenWidth - 4)
    by (apply wrap_small; unfold in_int, min_int, max_int in *; lia).
  assert (Hh : int_sub screenHeight 4 = screenHeight - 4)
    by (apply wrap_small; unfold in_int, min_int, max_int in *; lia).
  assert (Hcode : GetCellSize gameWidth gameHeight screenWidth screenHeight
            = Done (Z.min (Z.quot (screenWidth - 4) gameWidth)
                          (Z.quot (screenHeight - 4) gameHeight))).
  { unfold GetCellSize. rewrite Hborder, Hw, Hh.
    rewrite !int_div_quot;
      try assumption; unfold in_int, min_int, max_int in *; try lia.
    reflexivity. }
  assert (Hfloor : 2 * BORDER_THICKNESS <= screenWidth ->
            2 * BORDER_THICKNESS <= screenHeight ->
            Z.min (Z.quot (screenWidth - 4) gameWidth)
                  (Z.quot (screenHeight - 4) gameHeight)
            = CellSize_spec gameWidth gameHeight screenWidth screenHeight
                BORDER_THICKNESS).
  { unfold CellSize_spec. change (2 * BORDER_THICKNESS) with 4.
    intros Hfw Hfh. now rewrite !Z.quot_div_nonneg by lia. }
  split; [split|].
  - exact Hcode.
  - intros Hfw Hfh. rewrite Hcode. f_equal. now apply Hfloor.
  - intros Hgw24 Hgh24 Hsw24 Hsh24.
    assert (Hfloat : Part_001.GetCellSize gameWidth gameHeight screenWidth screenHeight
              = Done (Z.min (Z.quot (screenWidth - 4) gameWidth)
                            (Z.quot (screenHeight - 4) gameHeight))).
    { apply Part_001_GetCellSize_small; try assumption; lia. }
    split; [exact Hfloat|].
    intros Hfw Hfh. rewrite Hfloat. f_equal. now apply Hfloor.
Qed.

(** Claim C9 as the specification words it fails on the code of every
    revision: on a 25 x 25 grid in a viewport 3 pixels wide and 450 high,
    (3 - 4) / 25 is 0 in C++, in [int] as in [float], and [GetCellSize]
    returns 0, where floor division gives -1.  On the [float] revision it
    fails for large viewports as well: on a 1 x 1 grid in a viewport of
    16777221 pixels each way, 16777221 - 4 = 2^24 + 1 converts to the [float]
    2^24 and the revision returns 16777216, where floor division gives
    16777217. *)
Lemma C9_floor_counterexample :
  (GetCellSize 25 25 3 450 = Done 0
   /\ Part_001.GetCellSize 25 25 3 450 = Done 0
   /\ CellSize_spec 25 25 3 450 BORDER_THICKNESS = -1)
  /\ (Part_001.GetCellSize 1 1 16777221 16777221 = Done 16777216
      /\ CellSize_spec 1 1 16777221 16777221 BORDER_THICKNESS = 16777217).
Proof. repeat split; reflexivity. Qed.

(** From 2^24 on the [float] revision parts from the [int] ones, which still
    return the exact quotient there. *)
Lemma Part_001_GetCellSize_rounds :
  Part_001.GetCellSize 1 1 16777221 16777221 = Done 16777216
  /\ GetCellSize 1 1 16777221 16777221 = Done 16777217.
Proof. split; reflexivity. Qed.

(** In the [float] revision a grid without columns does not stop the
    program: the width quotient is an infinity and [std::min] picks the
    height quotient; the [int] revisions divide by zero. *)
Lemma Part_001_GetCellSize_no_columns :
  Part_001.GetCellSize 0 25 800 450 = Done 17
  /\ GetCellSize 0 25 800 450 = Undefined.
Proof. split; reflexivity. Qed.

Lemma C9_GetCellSize_truncates_witness :
  (1 <= 25 /\ min_int + 4 <= 800 <= max_int /\ min_int + 4 <= 450 <= max_int
   /\ 25 < 2 ^ 24 /\ - 2 ^ 24 < 800 - 2 * BORDER_THICKNESS < 2 ^ 24
   /\ - 2 ^ 24 < 450 - 2 * BORDER_THICKNESS < 2 ^ 24)
  /\ GetCellSize 25 25 800 450 = Done 17
  /\ Part_001.GetCellSize 25 25 800 450 = Done 17.
Proof.
  assert (Hg : 1 <= 25) by lia.
  assert (Hw : min_int + 4 <= 800 <= max_int) by (vm_compute; split; discriminate).
  assert (Hh : min_int + 4 <= 450 <= max_int) by (vm_compute; split; discriminate).
  assert (Hg24 : 25 < 2 ^ 24) by reflexivity.
  assert (Hw24 : - 2 ^ 24 < 800 - 2 * BORDER_THICKNESS < 2 ^ 24)
    by (vm_compute; split; reflexivity).
  assert (Hh24 : - 2 ^ 24 < 450 - 2 * BORDER_THICKNESS < 2 ^ 24)
    by (vm_compute; split; reflexivity).
  split; [|split].
  - repeat split; first [exact Hg | apply Hw | apply Hh | exact Hg24 | apply Hw24 | apply Hh24].
  - exact (proj1 (proj1 (C9_GetCellSize_truncates 25 25 800 450 Hg Hg Hw Hh))).
  - exact (proj1 (proj2 (C9_GetCellSize_truncates 25 25 800 450 Hg Hg Hw Hh)
                    Hg24 Hg24 Hw24 Hh24)).
Defined.

(** ** Apple placement on a full grid *)

(** [GetNewApplePosition] of [snake.cpp] does what claim C7 says: it always
    returns; a free grid cell when there is one, (0,0) when there is none. *)
Lemma Snake_GetNewApplePosition_total {G : Type} {E : RandomEngine G}
    (gen : G) (g : Game) :
  cell_count g <= max_int ->
  exists p, Snake_cpp.GetNewApplePosition gen g = Done p
    /\ ((exists c, in_grid g c /\ ~ In c (snake g)) ->
        in_grid g p /\ ~ In p (snake g))
    /\ ((forall c, in_grid g c -> In c (snake g)) -> p = cell 0 0).
Proof. apply GetNewApplePosition_returns. Qed.

(** Claim C7 fails on [GetNewApplePosition] of [src/main.cpp] and of the
    revision before it: on the 1 x 1 grid the snake fills, every pass of the
    [do ... while] loop draws (0,0), finds it in the snake and goes round
    again; whatever the engine and however much fuel, the call does not
    return, where [snake.cpp] returns (0,0).  The same happens on the
    25 x 25 session grid after the last bite of a perfect game. *)
Theorem C7_main_cpp_loops_on_full_grid {G : Type} {E : RandomEngine G}
    (fuel : nat) (gen : G) :
  Main_cpp.GetNewApplePosition fuel gen full_1x1 = OutOfFuel
  /\ Snake_cpp.GetNewApplePosition gen full_1x1 = Done (cell 0 0)
  /\ Main_cpp.GetNewApplePosition fuel gen after_last_bite_25 = OutOfFuel.
Proof.
  assert (Hfull : forall c, in_grid full_1x1 c -> In c (snake full_1x1)).
  { apply emptyCells_nil_full. reflexivity. }
  assert (Hfull25 : forall c, in_grid after_last_bite_25 c ->
                              In c (snake after_last_bite_25)).
  { apply emptyCells_nil_full. vm_compute. reflexivity. }
  split; [|split].
  - apply Main_GetNewApplePosition_full; try assumption;
      vm_compute; (discriminate || (split; discriminate)).
  - now apply GetNewApplePosition_full.
  - apply Main_GetNewApplePosition_full; try assumption;
      vm_compute; (discriminate || (split; discriminate)).
Qed.

(** ** The scenarios of the specification, run on the model *)

Example scenario_food_ahead :
  Snake_cpp.Update 5 food_ahead
  = Done (false, {| width := 5; height := 5;
                    snake := [cell 3 2; cell 2 2; cell 1 2; cell 0 2];
                    apple := cell 1 1; direction := RIGHT;
                    directionQueue := [] |}).
Proof. reflexivity. Qed.

Example scenario_wall_left :
  step_head (cell 0 2) LEFT = cell (-1) 2
  /\ Snake_cpp.Update tt wall_left = Done (true, wall_left).
Proof. split; reflexivity. Qed.

Example scenario_enqueue :
  directionQueue (Snake_cpp.QueueDirection food_ahead LEFT) = []
  /\ directionQueue (Snake_cpp.QueueDirection food_ahead UP) = [UP]
  /\ directionQueue (Main_cpp.QueueDirection food_ahead LEFT) = []
  /\ directionQueue (Main_cpp.QueueDirection food_ahead UP) = [UP].
Proof. repeat split; reflexivity. Qed.

Example scenario_session_reset :
  exists g, Snake_cpp.ResetGame 7 initial_game = Done g
    /\ snake g = [cell 12 12; cell 11 12; cell 10 12]
    /\ apple g = cell 0 7.
Proof. eexists. split; [vm_compute; reflexivity | split; reflexivity]. Qed.

(** * Further properties of the code *)

(** ** Snakes in play *)

Lemma in_gridb_iff (g : Game) (p : Vector2Int) :
  in_gridb g p = true <-> in_grid g p.
Proof.
  unfold in_gridb, in_grid.
  rewrite !andb_true_iff, !Z.leb_le, !Z.ltb_lt. tauto.
Qed.

Lemma adjacentb_iff (p q : Vector2Int) : adjacentb p q = true <-> adjacent p q.
Proof. unfold adjacentb, adjacent. apply Z.eqb_eq. Qed.

Lemma connectedb_iff (cells : list Vector2Int) :
  connectedb cells = true <-> connected cells.
Proof.
  induction cells as [|p [|q rest] IH]; cbn [connectedb connected];
    try tauto.
  rewrite andb_true_iff, adjacentb_iff, IH. reflexivity.
Qed.

Lemma distinctb_iff (cells : list Vector2Int) :
  distinctb cells = true <-> NoDup cells.
Proof.
  induction cells as [|p rest IH]; cbn [distinctb].
  - split; [constructor | reflexivity].
  - rewrite andb_true_iff, negb_true_iff, contains_not_In, IH. split.
    + intros [Hp Hrest]. now constructor.
    + intros Hnd. inversion Hnd. auto.
Qed.

Lemma snake_okb_iff (g : Game) : snake_okb g = true <-> snake_ok g.
Proof.
  unfold snake_okb, snake_ok.
  rewrite !andb_true_iff, distinctb_iff, connectedb_iff, forallb_forall,
    Forall_forall.
  assert (Hne : negb (empty (snake g)) = true <-> snake g <> []).
  { destruct (snake g); simpl; split; congruence. }
  rewrite Hne. split.
  - intros [[[H1 H2] H3] H4].
    split; [assumption | split; [assumption | split; [|assumption]]].
    intros p Hp. apply in_gridb_iff. auto.
  - intros [H1 [H2 [H3 H4]]].
    split; [split; [split; [assumption | assumption]|] | assumption].
    intros p Hp. apply in_gridb_iff. auto.
Qed.

Lemma In_removelast {A : Type} (l : list A) (a : A) :
  In a (removelast l) -> In a l.
Proof.
  induction l as [|b [|c l] IH]; cbn [removelast]; try contradiction.
  intros [-> | Hin]; [now left | right; now apply IH].
Qed.

Lemma NoDup_removelast {A : Type} (l : list A) :
  NoDup l -> NoDup (removelast l).
Proof.
  induction l as [|b [|c l] IH]; cbn [removelast]; intros Hnd;
    try constructor.
  - inversion Hnd as [|? ? Hb Hrest]; subst. intros Hin. apply Hb.
    now apply In_removelast.
  - inversion Hnd; subst. now apply IH.
Qed.

Lemma Forall_removelast {A : Type} (P : A -> Prop) (l : list A) :
  Forall P l -> Forall P (removelast l).
Proof.
  rewrite !Forall_forall. intros Hall a Ha. apply Hall.
  now apply In_removelast.
Qed.

Lemma connected_removelast (l : list Vector2Int) :
  connected l -> connected (removelast l).
Proof.
  induction l as [|p [|q [|q' l]] IH]; cbn [removelast connected]; try tauto.
  intros [Hpq Hrest]. split; [assumption|]. now apply IH.
Qed.

Lemma length_removelast {A : Type} (l : list A) :
  l <> [] -> S (length (removelast l)) = length l.
Proof.
  induction l as [|b [|c l] IH]; cbn [removelast length]; intros Hne.
  - congruence.
  - reflexivity.
  - f_equal. apply IH. discriminate.
Qed.

(** A step from a cell of the grid does not wrap: it lands on the
    neighbouring cell in the direction taken. *)
Lemma step_head_neighbour (g : Game) (front : Vector2Int) (d : Direction) :
  width g <= max_int -> height g <= max_int -> in_grid g front ->
  step_head front d
  = {| x := x front + x (OffsetFromDirection d);
       y := y front + y (OffsetFromDirection d) |}
  /\ adjacent (step_head front d) front.
Proof.
  unfold in_grid, max_int. intros Hw Hh [Hx Hy].
  assert (Hstep : step_head front d
            = {| x := x front + x (OffsetFromDirection d);
                 y := y front + y (OffsetFromDirection d) |}).
  { unfold step_head, int_add. cbv zeta.
    destruct d; cbn [OffsetFromDirection x y]; f_equal;
      apply wrap_small; unfold in_int, min_int, max_int; lia. }
  split; [assumption|]. rewrite Hstep. unfold adjacent.
  destruct d; cbn [OffsetFromDirection x y]; lia.
Qed.

(** ** Counting the free cells *)

Lemma count_up_NoDup (n : Z) : NoDup (count_up n).
Proof.
  unfold count_up. apply Finite.Injective_map_NoDup.
  - intros i j Hij. now apply Nat2Z.inj.
  - apply seq_NoDup.
Qed.

Lemma all_cells_In (g : Game) (p : Vector2Int) :
  In p (all_cells g) <-> in_grid g p.
Proof.
  unfold all_cells, in_grid. rewrite in_flat_map. split.
  - intros [cx [Hx Hp]]. apply in_map_iff in Hp as [cy [<- Hy]].
    apply count_up_In in Hx. apply count_up_In in Hy. auto.
  - intros [Hx Hy]. exists (x p). split; [now apply count_up_In|].
    apply in_map_iff. exists (y p). split; [now destruct p | now apply count_up_In].
Qed.

Lemma all_cells_length (g : Game) :
  Z.of_nat (length (all_cells g)) = cell_count g.
Proof.
  unfold all_cells, cell_count. f_equal.
  rewrite <- (count_up_length (width g)), <- (count_up_length (height g)).
  induction (count_up (width g)) as [|cx xs IH]; cbn [flat_map length].
  - reflexivity.
  - rewrite length_app, length_map, IH. lia.
Qed.

Lemma grid_cells_NoDup (xs ys : list Z) :
  NoDup xs -> NoDup ys ->
  NoDup (flat_map (fun cx => map (fun cy => {| x := cx; y := cy |}) ys) xs).
Proof.
  intros Hxs Hys. induction Hxs as [|cx xs Hcx Hxs IH]; cbn [flat_map].
  - constructor.
  - apply NoDup_app.
    + apply Finite.Injective_map_NoDup; [|assumption].
      intros i j Hij. now injection Hij.
    + assumption.
    + intros p Hp Hp'. apply in_map_iff in Hp as [cy [<- _]].
      apply in_flat_map in Hp' as [cx' [Hcx' Hp']].
      apply in_map_iff in Hp' as [cy' [Heq _]].
      injection Heq as -> _. contradiction.
Qed.

Lemma all_cells_NoDup (g : Game) : NoDup (all_cells g).
Proof. apply grid_cells_NoDup; apply count_up_NoDup. Qed.

Lemma free_cells_of_column (cells : list Vector2Int) (cx : Z) (ys : list Z) :
  flat_map (fun cy => if negb (contains cells {| x := cx; y := cy |})
                      then [{| x := cx; y := cy |}] else []) ys
  = filter (fun p => negb (contains cells p))
           (map (fun cy => {| x := cx; y := cy |}) ys).
Proof.
  induction ys as [|cy ys IH]; cbn [flat_map map filter].
  - reflexivity.
  - rewrite IH. now destruct (negb (contains cells {| x := cx; y := cy |})).
Qed.

(** The vector the two loops build is the grid, in order, without the cells
    of the snake. *)
Lemma emptyCells_filter (g : Game) :
  Snake_cpp.emptyCells g
  = filter (fun p => negb (contains (snake g) p)) (all_cells g).
Proof.
  unfold Snake_cpp.emptyCells, all_cells.
  induction (count_up (width g)) as [|cx xs IH]; cbn [flat_map].
  - reflexivity.
  - rewrite filter_app, IH. f_equal. apply free_cells_of_column.
Qed.

Lemma emptyCells_NoDup (g : Game) : NoDup (Snake_cpp.emptyCells g).
Proof. rewrite emptyCells_filter. apply NoDup_filter, all_cells_NoDup. Qed.

Lemma emptyCells_count (g : Game) :
  NoDup (snake g) -> Forall (in_grid g) (snake g) ->
  Z.of_nat (length (Snake_cpp.emptyCells g))
  = cell_count g - Z.of_nat (length (snake g)).
Proof.
  intros Hnd Hgrid. rewrite emptyCells_filter, <- all_cells_length.
  pose proof (filter_length (contains (snake g)) (all_cells g)) as Hsplit.
  assert (Hocc : length (filter (contains (snake g)) (all_cells g))
                 = length (snake g)).
  { apply Permutation_length, NoDup_Permutation.
    - apply NoDup_filter, all_cells_NoDup.
    - assumption.
    - intros p. rewrite filter_In, contains_In, all_cells_In. split.
      + tauto.
      + intros Hp. split; [|assumption].
        rewrite Forall_forall in Hgrid. auto. }
  lia.
Qed.

(** A snake in play never has more cells than the grid. *)
Lemma snake_length_bound (g : Game) :
  NoDup (snake g) -> Forall (in_grid g) (snake g) ->
  Z.of_nat (length (snake g)) <= cell_count g.
Proof.
  intros Hnd Hgrid. pose proof (emptyCells_count g Hnd Hgrid). lia.
Qed.

(** ** What a tick does to a snake in play *)

Section TickInvariants.
Context {G : Type} {E : RandomEngine G}.

(** The three ways through [Update] of [snake.cpp]. *)
Lemma Update_cases (gen : G) (g : Game) (front : Vector2Int)
    (rest : list Vector2Int) :
  snake g = front :: rest -> cell_count g <= max_int ->
  let g1 := consume_queue g in
  let newHead := step_head front (direction g1) in
  let grown := set_snake g1 (newHead :: snake g) in
  (IsGameOver g newHead = true /\ Snake_cpp.Update gen g = Done (true, g1))
  \/ (IsGameOver g newHead = false /\ newHead = apple g
      /\ exists a, Snake_cpp.GetNewApplePosition gen grown = Done a
           /\ Snake_cpp.Update gen g = Done (false, set_apple grown a))
  \/ (IsGameOver g newHead = false /\ newHead <> apple g
      /\ Snake_cpp.Update gen g
         = Done (false, set_snake g1 (newHead :: removelast (snake g)))).
Proof.
  intros Hs Hfit g1 newHead grown.
  destruct (IsGameOver g newHead) eqn:Hover.
  - left. split; [reflexivity|]. now apply Update_game_over with front rest.
  - right. destruct (Vector2Int_eqb newHead (apple g)) eqn:Heat.
    + left. apply Vector2Int_eqb_eq in Heat.
      split; [reflexivity | split; [assumption|]].
      assert (Hfit' : cell_count grown <= max_int).
      { unfold cell_count, grown, g1 in *. cbn [width height set_snake].
        now rewrite consume_queue_width, consume_queue_height. }
      destruct (GetNewApplePosition_returns gen grown Hfit') as [a [Ha _]].
      exists a. split; [assumption|].
      rewrite (Update_eat gen g front rest Hs Hover Heat).
      fold g1 newHead grown. now rewrite Ha.
    + right. apply Vector2Int_eqb_neq in Heat.
      split; [reflexivity | split; [assumption|]].
      exact (Update_move gen g front rest Hs Hover Heat).
Qed.

(** The cells of the snake after a tick that is no game over are again those
    of a snake in play. *)
Lemma step_keeps_snake_ok (g : Game) (front : Vector2Int)
    (rest : list Vector2Int) (d : Direction) :
  snake g = front :: rest -> snake_ok g ->
  width g <= max_int -> height g <= max_int ->
  IsGameOver g (step_head front d) = false ->
  forall cells,
    cells = step_head front d :: snake g
    \/ cells = step_head front d :: removelast (snake g) ->
    cells <> [] /\ NoDup cells /\ Forall (in_grid g) cells /\ connected cells.
Proof.
  intros Hs [_ [Hnd [Hgrid Hconn]]] Hw Hh Hfree cells Hcells.
  apply IsGameOver_false_iff in Hfree as [Hin Hnew].
  assert (Hfront : in_grid g front).
  { rewrite Forall_forall in Hgrid. apply Hgrid. rewrite Hs. now left. }
  destruct (step_head_neighbour g front d Hw Hh Hfront) as [_ Hadj].
  destruct Hcells as [-> | ->].
  - split; [discriminate | split; [|split]].
    + now constructor.
    + now constructor.
    + rewrite Hs. cbn [connected]. rewrite Hs in Hconn. auto.
  - split; [discriminate | split; [|split]].
    + constructor; [|now apply NoDup_removelast].
      intros Hrem. apply Hnew. now apply In_removelast.
    + constructor; [assumption | now apply Forall_removelast].
    + apply connected_removelast in Hconn. rewrite Hs in *.
      destruct rest as [|q rest']; cbn [removelast connected] in *; auto.
Qed.

Lemma snake_ok_dims (g : Game) :
  snake_ok g -> 1 <= width g /\ 1 <= height g.
Proof.
  intros [Hne [_ [Hgrid _]]]. destruct (snake g) as [|front rest]; [congruence|].
  inversion Hgrid as [|? ? [Hx Hy] _]; subst. lia.
Qed.

Lemma dims_in_int (g : Game) :
  1 <= width g -> 1 <= height g -> cell_count g <= max_int ->
  in_int (width g) /\ in_int (height g).
Proof.
  intros Hw Hh Hfit. rewrite cell_count_nonneg in Hfit by lia.
  assert (width g <= width g * height g) by nia.
  assert (height g <= width g * height g) by nia.
  unfold in_int, min_int, max_int in *. lia.
Qed.

Lemma snake_ok_same_grid (g g' : Game) :
  width g' = width g -> height g' = height g ->
  snake g' <> [] /\ NoDup (snake g') /\ Forall (in_grid g) (snake g')
    /\ connected (snake g') ->
  snake_ok g'.
Proof.
  intros Hw Hh [H1 [H2 [H3 H4]]]. unfold snake_ok.
  split; [assumption | split; [assumption | split; [|assumption]]].
  eapply Forall_impl; [|exact H3]. unfold in_grid. intros p. now rewrite Hw, Hh.
Qed.

(** One tick of [snake.cpp] on a snake in play: it returns, the grid is
    untouched, and unless it reports a game over the snake is in play again,
    of the same length or one longer, and the apple is where it may be. *)
Lemma Update_keeps_play (gen : G) (g : Game) :
  snake_ok g -> cell_count g <= max_int ->
  exists b g', Snake_cpp.Update gen g = Done (b, g')
    /\ width g' = width g /\ height g' = height g
    /\ (b = true -> snake g' = snake g /\ apple g' = apple g)
    /\ (b = false ->
        snake_ok g'
        /\ (length (snake g') = length (snake g)
            \/ length (snake g') = S (length (snake g)))
        /\ (apple_ok g -> apple_ok g')).
Proof.
  intros Hok Hfit.
  destruct (snake_ok_dims g Hok) as [Hw Hh].
  destruct (dims_in_int g Hw Hh Hfit) as [[_ Hiw] [_ Hih]].
  assert (Hne : snake g <> []) by apply Hok.
  assert (Hs : exists front rest, snake g = front :: rest).
  { destruct (snake g) as [|front rest]; [congruence | eauto]. }
  destruct Hs as [front [rest Hs]].
  pose proof (step_keeps_snake_ok g front rest (direction (consume_queue g))
                Hs Hok Hiw Hih) as Hstep.
  destruct (Update_cases gen g front rest Hs Hfit)
    as [[Hover Hup] | [[Hfree [Heat [a [Ha Hup]]]] | [Hfree [Hmove Hup]]]];
    rewrite Hup; eexists; eexists; (split; [reflexivity|]);
    cbn [width height snake apple set_snake set_apple];
    rewrite ?consume_queue_width, ?consume_queue_height,
      ?consume_queue_snake, ?consume_queue_apple;
    (split; [reflexivity | split; [reflexivity|] ]).
  - split; [auto | discriminate].
  - split; [discriminate | intros _].
    set (newHead := step_head front (direction (consume_queue g))) in *.
    set (grown := set_snake (consume_queue g) (newHead :: snake g)) in *.
    assert (Hok' : snake_ok (set_apple grown a)).
    { apply snake_ok_same_grid with g;
        cbn [width height snake set_snake set_apple grown];
        rewrite ?consume_queue_width, ?consume_queue_height; try reflexivity.
      apply Hstep; [assumption | left; reflexivity]. }
    split; [exact Hok' | split].
    + right. reflexivity.
    + intros _. unfold apple_ok.
      cbn [apple snake set_apple]. fold (snake (set_apple grown a)).
      destruct Hok' as [_ [Hnd' [Hgrid' _]]].
      cbn [snake set_apple] in Hnd', Hgrid'.
      assert (Hgeq : forall c, in_grid (set_apple grown a) c <-> in_grid grown c)
        by (intros c; reflexivity).
      assert (Hcount : cell_count (set_apple grown a) = cell_count grown)
        by reflexivity.
      rewrite Hcount.
      assert (Hfit' : cell_count grown <= max_int).
      { unfold cell_count, grown in *. cbn [width height set_snake].
        now rewrite consume_queue_width, consume_queue_height. }
      destruct (GetNewApplePosition_returns gen grown Hfit')
        as [a' [Ha' [Hplace Hfull]]].
      rewrite Ha in Ha'. injection Ha' as <-.
      destruct (Snake_cpp.emptyCells grown) as [|c0 cells] eqn:Ecells.
      * assert (Hall := emptyCells_nil_full grown Ecells).
        rewrite (Hfull Hall). split.
        -- unfold in_grid, cell. cbn [x y width height set_apple grown set_snake].
           rewrite consume_queue_width, consume_queue_height. lia.
        -- right. pose proof (emptyCells_count grown Hnd' Hgrid') as Hc.
           rewrite Ecells in Hc. cbn [length] in Hc. lia.
      * assert (Hc0 : in_grid grown c0 /\ ~ In c0 (snake grown)).
        { apply emptyCells_In. rewrite Ecells. now left. }
        destruct (Hplace (ex_intro _ c0 Hc0)) as [Hin Hout].
        split; [exact Hin | left; exact Hout].
  - split; [discriminate | intros _].
    set (newHead := step_head front (direction (consume_queue g))) in *.
    set (g' := set_snake (consume_queue g) (newHead :: removelast (snake g))).
    assert (Hok' : snake_ok g').
    { apply snake_ok_same_grid with g;
        cbn [width height snake set_snake g'];
        rewrite ?consume_queue_width, ?consume_queue_height; try reflexivity.
      apply Hstep; [assumption | right; reflexivity]. }
    split; [exact Hok' | split].
    + left. cbn [snake set_snake g' length].
      now apply length_removelast.
    + intros [Hain Haout]. unfold apple_ok.
      cbn [apple snake set_snake g']. rewrite consume_queue_apple. split.
      * unfold in_grid in *. cbn [width height set_snake g'].
        now rewrite consume_queue_width, consume_queue_height.
      * assert (Hcc : cell_count g' = cell_count g).
        { unfold cell_count. cbn [width height set_snake g'].
          now rewrite consume_queue_width, consume_queue_height. }
        rewrite Hcc. destruct Haout as [Hout | Hfull].
        -- left. intros [Heq | Hin]; [now apply Hmove|].
           apply Hout. now apply In_removelast.
        -- right. cbn [length]. rewrite length_removelast by assumption.
           exact Hfull.
Qed.

(** The same tick in [src/main.cpp]: it is never undefined, and what it
    returns keeps the snake in play and the apple off the snake. *)
Lemma Main_Update_keeps_play (fuel : nat) (gen : G) (g : Game) :
  snake_ok g -> cell_count g <= max_int ->
  Main_cpp.Update fuel gen g <> Undefined
  /\ forall b g' gen', Main_cpp.Update fuel gen g = Done (b, g', gen') ->
       width g' = width g /\ height g' = height g
       /\ (b = true -> snake g' = snake g /\ apple g' = apple g)
       /\ (b = false ->
           snake_ok g'
           /\ (length (snake g') = length (snake g)
               \/ length (snake g') = S (length (snake g)))
           /\ (~ In (apple g) (snake g) -> ~ In (apple g') (snake g'))).
Proof.
  intros Hok Hfit.
  destruct (snake_ok_dims g Hok) as [Hw Hh].
  destruct (dims_in_int g Hw Hh Hfit) as [Hiw Hih].
  assert (Hne : snake g <> []) by apply Hok.
  assert (Hs : exists front rest, snake g = front :: rest).
  { destruct (snake g) as [|front rest]; [congruence | eauto]. }
  destruct Hs as [front [rest Hs]].
  pose proof (step_keeps_snake_ok g front rest (direction (consume_queue g))
                Hs Hok (proj2 Hiw) (proj2 Hih)) as Hstep.
  set (newHead := step_head front (direction (consume_queue g))) in *.
  destruct (IsGameOver g newHead) eqn:Hover.
  - rewrite (Main_Update_game_over fuel gen g front rest Hs Hover).
    split; [discriminate|]. intros b g' gen' [= <- <- <-].
    rewrite consume_queue_width, consume_queue_height, consume_queue_snake,
      consume_queue_apple.
    repeat split; discriminate.
  - destruct (Vector2Int_eqb newHead (apple g)) eqn:Heat.
    + apply Vector2Int_eqb_eq in Heat.
      rewrite (Main_Update_eat fuel gen g front rest Hs Hover Heat).
      fold newHead.
      set (grown := set_snake (consume_queue g) (newHead :: snake g)).
      destruct (Main_cpp.GetNewApplePosition fuel gen grown)
        as [[a gen1]| |] eqn:Ha; cbn [bind fst snd].
      * split; [discriminate|]. intros b g' gen' [= <- <- <-].
        cbn [width height snake apple set_snake set_apple grown].
        rewrite consume_queue_width, consume_queue_height.
        split; [reflexivity | split; [reflexivity | split; [discriminate|]]].
        intros _.
        assert (Hsound : in_grid grown a /\ ~ In a (snake grown)).
        { apply Main_GetNewApplePosition_sound with fuel gen gen1;
            cbn [width height set_snake grown];
            rewrite ?consume_queue_width, ?consume_queue_height; assumption. }
        split; [|split].
        -- apply snake_ok_same_grid with g;
             cbn [width height snake set_snake set_apple grown];
             rewrite ?consume_queue_width, ?consume_queue_height;
             try reflexivity.
           apply Hstep; [reflexivity | left; reflexivity].
        -- right. reflexivity.
        -- intros _. apply Hsound.
      * split; [|discriminate]. exfalso. revert Ha. clear.
        revert gen. induction fuel as [|fuel IH]; intros gen;
          cbn [Main_cpp.GetNewApplePosition]; [discriminate|].
        destruct (contains (snake grown) _); [apply IH | discriminate].
      * split; discriminate.
    + apply Vector2Int_eqb_neq in Heat.
      assert (Hup : Main_cpp.Update fuel gen g
                = Done (false,
                        set_snake (consume_queue g)
                          (newHead :: removelast (snake g)), gen)).
      { unfold Main_cpp.Update. cbv zeta.
        rewrite consume_queue_snake, Hs, IsGameOver_consume_queue.
        fold newHead. rewrite Hover. cbn [apple set_snake snake].
        rewrite consume_queue_apple.
        now rewrite (proj2 (Vector2Int_eqb_neq _ _) Heat). }
      rewrite Hup. split; [discriminate|]. intros b g' gen' [= <- <- <-].
      cbn [width height snake apple set_snake].
      rewrite consume_queue_width, consume_queue_height, consume_queue_apple.
      split; [reflexivity | split; [reflexivity | split; [discriminate|]]].
      intros _. split; [|split].
      * apply snake_ok_same_grid with g;
          cbn [width height snake set_snake];
          rewrite ?consume_queue_width, ?consume_queue_height;
          try reflexivity.
        apply Hstep; [reflexivity | right; reflexivity].
      * left. cbn [length]. now apply length_removelast.
      * intros Hout [Heq | Hin]; [now apply Heat|].
        apply Hout. now apply In_removelast.
Qed.

End TickInvariants.

(** ** Input *)

Lemma last_effective_app (g : Game) (q added : list Direction)
    (dflt : Direction) :
  added <> [] ->
  last (effective (set_directionQueue g (q ++ added))) dflt = last added dflt.
Proof.
  intros Hne. unfold effective.
  cbn [direction directionQueue set_directionQueue].
  destruct (exists_last Hne) as [front [d ->]].
  rewrite app_assoc, last_last.
  change (direction g :: (q ++ front) ++ [d])
    with ((direction g :: q ++ front) ++ [d]).
  apply last_last.
Qed.

(** A request that reverses the last effective direction is dropped. *)
Lemma reversal_dropped (Q : Game -> Direction -> Game) (g : Game)
    (d : Direction) :
  enqueues_legal_turns Q ->
  IsOpposite (last (effective g) (direction g)) d = true -> Q g d = g.
Proof.
  intros HQ Hop. destruct (HQ g d) as [Hsame | [_ [_ Hturn]]]; [assumption|].
  congruence.
Qed.

(** One frame of input, over either [QueueDirection]: nothing but the queue
    changes, and the queue grows by at most two entries, since of LEFT and
    RIGHT, and of UP and DOWN, the second reverses the first. *)
Lemma poll_keys_spec (Q : Game -> Direction -> Game) (keys : Keys) (g : Game) :
  enqueues_legal_turns Q ->
  exists added,
    poll_keys Q keys g = set_directionQueue g (directionQueue g ++ added)
    /\ (length added <= 2)%nat
    /\ (length added = 0%nat
        \/ (length (directionQueue g) + length added <= 3)%nat).
Proof.
  intros HQ.
  assert (Hid : g = set_directionQueue g (directionQueue g ++ [])).
  { destruct g as [w h s ap d q]. unfold set_directionQueue. cbn.
    now rewrite app_nil_r. }
  assert (Hstep : forall (l : list Direction) (d : Direction),
            l <> [] ->
            let gl := set_directionQueue g (directionQueue g ++ l) in
            Q gl d = gl
            \/ (Q gl d = set_directionQueue g (directionQueue g ++ l ++ [d])
                /\ (length (directionQueue g) + length l < 3)%nat
                /\ IsOpposite (last l (direction g)) d = false)).
  { intros l d Hne gl. destruct (HQ gl d) as [Hsame | [Happ [Hlen Hturn]]];
      [now left | right].
    unfold gl in Happ, Hlen, Hturn.
    rewrite last_effective_app in Hturn by assumption.
    cbn [direction directionQueue set_directionQueue] in Happ, Hlen, Hturn.
    rewrite length_app in Hlen. rewrite <- app_assoc in Happ.
    split; [exact Happ | split; [exact Hlen | exact Hturn]]. }
  unfold poll_keys.
  destruct keys as [kl kr ku kd]. cbn [key_left key_right key_up key_down].
  destruct kl, kr, ku, kd; cbv zeta;
    repeat match goal with
    | |- context [Q g ?d] =>
        let Hsame := fresh "Hsame" in
        let Happ := fresh "Happ" in
        let Hlen := fresh "Hlen" in
        let Hturn := fresh "Hturn" in
        destruct (HQ g d) as [Hsame | [Happ [Hlen Hturn]]];
        [ rewrite Hsame | rewrite Happ ]
    | |- context [Q (set_directionQueue g (directionQueue g ++ ?l)) ?d] =>
        let Hsame := fresh "Hsame" in
        let Happ := fresh "Happ" in
        let Hlen := fresh "Hlen" in
        let Hturn := fresh "Hturn" in
        destruct (Hstep l d ltac:(discriminate)) as [Hsame | [Happ [Hlen Hturn]]];
        [ rewrite Hsame
        | try discriminate Hturn; rewrite Happ; cbn [app] in * ]
    end;
    first [ exists []; split; [exact Hid | cbn [length]; lia]
          | eexists; split; [reflexivity | cbn [length] in *; lia] ].
Qed.

Lemma poll_keys_queue_ok (Q : Game -> Direction -> Game) (keys : Keys)
    (g : Game) :
  enqueues_legal_turns Q -> queue_ok g -> queue_ok (poll_keys Q keys g).
Proof.
  intros HQ Hok. unfold poll_keys. cbv zeta.
  pose proof (queue_ok_step Q HQ) as Hstep.
  destruct (key_left keys), (key_right keys), (key_up keys), (key_down keys);
    repeat match goal with
    | |- queue_ok (Q ?g0 ?d) => apply Hstep
    end; assumption.
Qed.

Lemma Snake_enqueues_legal_turns : enqueues_legal_turns Snake_cpp.QueueDirection.
Proof. exact QueueDirection_cases. Qed.

Lemma Main_enqueues_legal_turns : enqueues_legal_turns Main_cpp.QueueDirection.
Proof. exact Main_QueueDirection_cases. Qed.

(** ** The session *)

Lemma no_reversal_tail (d : Direction) (ds : list Direction) :
  no_reversal (d :: ds) = true -> no_reversal ds = true.
Proof.
  destruct ds as [|d' ds]; [reflexivity|]. cbn [no_reversal].
  rewrite andb_true_iff. tauto.
Qed.

Lemma consume_queue_ok (g : Game) : queue_ok g -> queue_ok (consume_queue g).
Proof.
  unfold queue_ok, consume_queue, effective. intros [Hrev Hlen].
  destruct (directionQueue g) as [|d q] eqn:Hq.
  - rewrite Hq. now split.
  - cbn [direction directionQueue set_direction set_directionQueue length] in *.
    split; [now apply no_reversal_tail in Hrev | lia].
Qed.

(** The direction the tick moves along does not reverse the one committed
    before it. *)
Lemma consume_queue_turn (g : Game) :
  queue_ok g -> IsOpposite (direction g) (direction (consume_queue g)) = false.
Proof.
  unfold queue_ok, consume_queue, effective. intros [Hrev _].
  destruct (directionQueue g) as [|d q].
  - now destruct (direction g).
  - cbn [direction set_direction set_directionQueue no_reversal] in *.
    apply andb_true_iff in Hrev as [Hturn _]. now apply negb_true_iff.
Qed.

Section Session.
Context {G : Type} {E : RandomEngine G}.

Lemma Update_queue (gen : G) (g : Game) (b : bool) (g' : Game) :
  Snake_cpp.Update gen g = Done (b, g') ->
  direction g' = direction (consume_queue g)
  /\ directionQueue g' = directionQueue (consume_queue g).
Proof.
  unfold Snake_cpp.Update.
  destruct (snake (consume_queue g)) as [|front rest]; [discriminate|].
  destruct (IsGameOver _ _).
  - intros [= <- <-]. auto.
  - destruct (Vector2Int_eqb _ _).
    + destruct (Snake_cpp.GetNewApplePosition _ _); cbn [bind]; try discriminate.
      intros [= <- <-]. auto.
    + intros [= <- <-]. auto.
Qed.

Lemma queue_ok_same_queue (g g' : Game) :
  direction g' = direction g -> directionQueue g' = directionQueue g ->
  queue_ok g -> queue_ok g'.
Proof. unfold queue_ok, effective. now intros -> ->. Qed.

Lemma reset_layout_connected (g : Game) :
  NoDup (reset_layout g) /\ connected (reset_layout g).
Proof.
  unfold reset_layout, connected, adjacent.
  destruct (direction g); cbn [OffsetFromDirection x y]; split;
    try (split; [lia | split; [lia | exact I]]);
    repeat constructor; cbn [In];
    try (intros [K | [K | []]]; injection K; lia);
    try (intros [K | []]; injection K; lia);
    try (intros []).
Qed.

(** [ResetGame] of [snake.cpp] starts a session on any grid of at least
    5 x 5 cells: the grid, the committed direction and the queue are kept,
    the snake is the three-cell layout, in play, and the apple is off it. *)
Lemma ResetGame_session (gen : G) (g : Game) :
  5 <= width g -> 5 <= height g -> cell_count g <= max_int -> queue_ok g ->
  exists a,
    Snake_cpp.ResetGame gen g = Done (set_apple (set_snake g (reset_layout g)) a)
    /\ ~ In a (reset_layout g)
    /\ session_ok (set_apple (set_snake g (reset_layout g)) a).
Proof.
  intros Hw Hh Hfit Hq.
  destruct (dims_in_int g ltac:(lia) ltac:(lia) Hfit) as [Hiw Hih].
  pose proof (room_for_layout_5x5 g Hw Hh) as Hroom.
  destruct (reset_layout_fits g Hroom) as [Hgrid [Hahead Hfree]].
  destruct (reset_layout_connected g) as [Hnd Hconn].
  set (g1 := set_snake g (reset_layout g)) in *.
  destruct (GetNewApplePosition_returns gen g1 Hfit) as [a [Ha [Hplace _]]].
  destruct (Hplace (ex_intro _ _ (conj Hahead Hfree))) as [Hin Hout].
  exists a. split; [|split].
  - rewrite ResetGame_unfold by assumption. fold g1. now rewrite Ha.
  - exact Hout.
  - unfold session_ok. cbn [width height set_apple g1 set_snake].
    split; [assumption | split; [assumption | split; [exact Hfit|]]].
    split; [|split; [|split]].
    + unfold snake_ok. cbn [snake set_apple g1 set_snake].
      split; [unfold reset_layout; discriminate|].
      split; [assumption | split; [exact Hgrid | assumption]].
    + cbn [snake set_apple g1 set_snake]. unfold reset_layout. cbn [length]. lia.
    + unfold apple_ok. cbn [apple snake set_apple g1 set_snake].
      split; [exact Hin | left; exact Hout].
    + exact Hq.
Qed.

(** One pass of the loop keeps a session a session, on the same grid, and is
    never undefined. *)
Lemma Frame_keeps_session (float : Type) (float_zero : float)
    (float_add : float -> float -> float) (float_ge : float -> float -> bool)
    (MOVE_INTERVAL frameTime : float) (keys : Keys) (genUpdate genReset : G)
    (st : float * Game) :
  session_ok (snd st) ->
  exists st',
    Snake_cpp.Frame float float_zero float_add float_ge MOVE_INTERVAL
      frameTime keys genUpdate genReset st = Done st'
    /\ session_ok (snd st')
    /\ width (snd st') = width (snd st) /\ height (snd st') = height (snd st).
Proof.
  destruct st as [moveTimer g]. cbn [fst snd].
  intros [Hw [Hh [Hfit [Hsnake [Hthree [Happle Hqueue]]]]]].
  unfold Snake_cpp.Frame. cbv zeta. cbn [fst snd].
  change (Snake_cpp.HandleInput keys g)
    with (poll_keys Snake_cpp.QueueDirection keys g).
  destruct (poll_keys_spec Snake_cpp.QueueDirection keys g
              Snake_enqueues_legal_turns) as [added [Hpoll _]].
  pose proof (poll_keys_queue_ok Snake_cpp.QueueDirection keys g
                Snake_enqueues_legal_turns Hqueue) as Hqueue1.
  rewrite Hpoll in *.
  set (g1 := set_directionQueue g (directionQueue g ++ added)) in *.
  assert (Hsession1 : session_ok g1).
  { unfold session_ok. repeat split; try assumption; apply Hsnake || apply Happle
      || apply Hqueue1. }
  destruct (float_ge _ _).
  - destruct (Update_keeps_play genUpdate g1 Hsnake Hfit)
      as [b [g2 [Hup [Hw2 [Hh2 [Hover Hgo]]]]]].
    rewrite Hup. cbn [bind fst snd].
    destruct (Update_queue genUpdate g1 b g2 Hup) as [Hd2 Hq2].
    assert (Hqueue2 : queue_ok g2).
    { apply queue_ok_same_queue with (consume_queue g1); try assumption.
      now apply consume_queue_ok. }
    assert (Hfit2 : cell_count g2 <= max_int).
    { unfold cell_count in *. now rewrite Hw2, Hh2. }
    destruct b.
    + destruct (ResetGame_session genReset g2) as [a [Hreset [_ Hsession]]];
        try assumption; try (rewrite ?Hw2, ?Hh2; assumption).
      rewrite Hreset. cbn [bind]. eexists. split; [reflexivity|].
      cbn [snd]. split; [exact Hsession|].
      cbn [width height set_apple set_snake]. auto.
    + destruct (Hgo eq_refl) as [Hsnake2 [Hlen2 Happle2]].
      eexists. split; [reflexivity|]. cbn [snd].
      split; [|auto]. unfold session_ok. rewrite Hw2, Hh2.
      cbn [width height g1 set_directionQueue].
      assert (Hthree2 : (3 <= length (snake g2))%nat).
      { cbn [snake g1 set_directionQueue] in Hlen2. lia. }
      repeat split; try assumption; apply Hsnake2 || apply (Happle2 Happle)
        || apply Hqueue2.
  - eexists. split; [reflexivity|]. cbn [snd]. split; [exact Hsession1 | auto].
Qed.

(** Any run of the loop keeps a session a session. *)
Lemma main_loop_keeps_session (float : Type) (float_zero : float)
    (float_add : float -> float -> float) (float_ge : float -> float -> bool)
    (MOVE_INTERVAL : float) (inputs : list (Snake_cpp.FrameInput float))
    (st : float * Game) :
  session_ok (snd st) ->
  exists st',
    Snake_cpp.main_loop float float_zero float_add float_ge MOVE_INTERVAL
      inputs st = Done st'
    /\ session_ok (snd st')
    /\ width (snd st') = width (snd st) /\ height (snd st') = height (snd st).
Proof.
  revert st. induction inputs as [|i inputs IH]; intros st Hok.
  - exists st. cbn [Snake_cpp.main_loop]. auto.
  - cbn [Snake_cpp.main_loop].
    destruct (Frame_keeps_session float float_zero float_add float_ge
                MOVE_INTERVAL (Snake_cpp.frameTime float i)
                (Snake_cpp.pressed float i) (Snake_cpp.genUpdate float i)
                (Snake_cpp.genReset float i) st Hok)
      as [st1 [Hframe [Hok1 [Hw1 Hh1]]]].
    rewrite Hframe. cbn [bind].
    destruct (IH st1 Hok1) as [st' [Hrun [Hok' [Hw' Hh']]]].
    exists st'. split; [exact Hrun | split; [exact Hok' | split; congruence]].
Qed.

End Session.

Section PlayTheorems.
Context {G : Type} {E : RandomEngine G}.

(** Extra X1: a tick on a snake in play (a head, no cell twice, every cell
    on the grid, consecutive cells side by side) on a grid whose cell count
    fits an [int] always returns in [snake.cpp], leaves the grid dimensions
    alone, and unless it reports a game over the snake is in play again and
    has kept its length or grown by one cell.  In [src/main.cpp] the tick is
    never undefined and whatever it returns obeys the same. *)
Theorem X1_tick_keeps_snake_in_play (gen : G) (fuel : nat) (g : Game) :
  snake_ok g -> cell_count g <= max_int ->
  (exists b g', Snake_cpp.Update gen g = Done (b, g')
     /\ width g' = width g /\ height g' = height g
     /\ (b = false ->
         snake_ok g'
         /\ (length (snake g') = length (snake g)
             \/ length (snake g') = S (length (snake g)))))
  /\ Main_cpp.Update fuel gen g <> Undefined
  /\ (forall b g' gen', Main_cpp.Update fuel gen g = Done (b, g', gen') ->
        width g' = width g /\ height g' = height g
        /\ (b = false ->
            snake_ok g'
            /\ (length (snake g') = length (snake g)
                \/ length (snake g') = S (length (snake g))))).
Proof.
  intros Hok Hfit. split; [|split].
  - destruct (Update_keeps_play gen g Hok Hfit)
      as [b [g' [Hup [Hw [Hh [_ Hgo]]]]]].
    exists b, g'. repeat split; try assumption; apply Hgo; assumption.
  - apply (Main_Update_keeps_play fuel gen g Hok Hfit).
  - intros b g' gen' Hup.
    destruct (proj2 (Main_Update_keeps_play fuel gen g Hok Hfit) b g' gen' Hup)
      as [Hw [Hh [_ Hgo]]].
    repeat split; try assumption; apply Hgo; assumption.
Qed.

(** Extra X2: the apple stays where it may be.  If before a tick the apple
    lies on the grid and not on the snake, then after a tick that is no game
    over it lies on the grid again, and off the snake unless the snake now
    covers every cell of the grid ([snake.cpp]); in [src/main.cpp] it is off
    the snake whenever the tick returns. *)
Theorem X2_tick_keeps_apple_off_snake (gen : G) (fuel : nat) (g : Game) :
  snake_ok g -> cell_count g <= max_int ->
  in_grid g (apple g) -> ~ In (apple g) (snake g) ->
  (forall g', Snake_cpp.Update gen g = Done (false, g') ->
     in_grid g' (apple g')
     /\ (~ In (apple g') (snake g')
         \/ Z.of_nat (length (snake g')) = cell_count g'))
  /\ (forall g' gen', Main_cpp.Update fuel gen g = Done (false, g', gen') ->
        ~ In (apple g') (snake g')).
Proof.
  intros Hok Hfit Hin Hout. split.
  - intros g' Hup.
    destruct (Update_keeps_play gen g Hok Hfit)
      as [b [g1 [Hup1 [_ [_ [_ Hgo]]]]]].
    rewrite Hup in Hup1. injection Hup1 as <- <-.
    destruct (Hgo eq_refl) as [_ [_ Happle]].
    apply Happle. split; [assumption | now left].
  - intros g' gen' Hup.
    destruct (proj2 (Main_Update_keeps_play fuel gen g Hok Hfit) false g' gen' Hup)
      as [_ [_ [_ Hgo]]].
    now apply Hgo.
Qed.

(** On a grid the snake covers there is no cell left to move to. *)
Lemma full_grid_game_over (g : Game) (p : Vector2Int) :
  NoDup (snake g) -> Forall (in_grid g) (snake g) ->
  Z.of_nat (length (snake g)) = cell_count g ->
  IsGameOver g p = true.
Proof.
  intros Hnd Hgrid Hfull. apply IsGameOver_true_iff.
  destruct (IsGameOver g p) eqn:Hover.
  - now apply IsGameOver_true_iff.
  - apply IsGameOver_false_iff in Hover as [Hin Hout]. right.
    apply emptyCells_nil_full; [|assumption].
    pose proof (emptyCells_count g Hnd Hgrid) as Hcount.
    destruct (Snake_cpp.emptyCells g); [reflexivity | cbn [length] in Hcount; lia].
Qed.

(** Extra X3: a snake that covers the whole grid cannot survive the next
    tick: wherever the head turns, [Update] reports a game over, in both
    revisions, and leaves the state as the queue pop made it. *)
Theorem X3_full_grid_ends_the_game (gen : G) (fuel : nat) (g : Game) :
  snake_ok g -> Z.of_nat (length (snake g)) = cell_count g ->
  Snake_cpp.Update gen g = Done (true, consume_queue g)
  /\ Main_cpp.Update fuel gen g = Done (true, consume_queue g, gen).
Proof.
  intros [Hne [Hnd [Hgrid _]]] Hfull.
  destruct (snake g) as [|front rest] eqn:Hs; [congruence|].
  rewrite <- Hs in *.
  split.
  - apply Update_game_over with front rest; [assumption|].
    now apply full_grid_game_over.
  - apply Main_Update_game_over with front rest; [assumption|].
    now apply full_grid_game_over.
Qed.

(** After a reset the head has a free cell of the grid in front of it and on
    both sides. *)
Lemma reset_head_has_room (g : Game) (a : Vector2Int) :
  5 <= width g -> 5 <= height g -> cell_count g <= max_int -> queue_ok g ->
  let g1 := set_apple (set_snake g (reset_layout g)) a in
  IsGameOver g1
    (step_head {| x := Z.quot (width g) 2; y := Z.quot (height g) 2 |}
               (direction (consume_queue g1))) = false.
Proof.
  intros Hw Hh Hfit Hq g1.
  assert (Hq1 : queue_ok g1) by exact Hq.
  pose proof (consume_queue_turn g1 Hq1) as Hturn.
  destruct (dims_in_int g ltac:(lia) ltac:(lia) Hfit) as [[_ Hiw] [_ Hih]].
  assert (Hcx : 2 <= Z.quot (width g) 2 /\ Z.quot (width g) 2 + 2 < width g)
    by (Z.to_euclidean_division_equations; lia).
  assert (Hcy : 2 <= Z.quot (height g) 2 /\ Z.quot (height g) 2 + 2 < height g)
    by (Z.to_euclidean_division_equations; lia).
  set (head := {| x := Z.quot (width g) 2; y := Z.quot (height g) 2 |}).
  assert (Hhead : in_grid g1 head).
  { unfold in_grid, head. cbn [x y width height g1 set_apple set_snake]. lia. }
  destruct (step_head_neighbour g1 head (direction (consume_queue g1))
              Hiw Hih Hhead) as [Hstep _].
  rewrite Hstep. apply IsGameOver_false_iff.
  change (direction g1) with (direction g) in Hturn.
  unfold in_grid, head.
  cbn [x y width height snake g1 set_apple set_snake]. unfold reset_layout.
  destruct (direction g), (direction (consume_queue g1));
    try discriminate Hturn; cbn [OffsetFromDirection x y In];
    (split; [lia | intros [K | [K | [K | []]]]; injection K; lia]).
Qed.

(** Extra X4: the tick that follows a reset is never a game over.  On a grid
    of at least 5 x 5 cells, with a queue that holds no reversal, [ResetGame]
    returns and the next [Update] returns false, whatever is still queued.
    In [src/main.cpp] the same holds whenever the two calls return. *)
Theorem X4_tick_after_reset_is_safe (genReset genUpdate : G) (g : Game) :
  5 <= width g -> 5 <= height g -> cell_count g <= max_int -> queue_ok g ->
  (exists g1 g2, Snake_cpp.ResetGame genReset g = Done g1
     /\ Snake_cpp.Update genUpdate g1 = Done (false, g2))
  /\ (forall fuel fuel' g1 gen1 b g2 gen2,
        Main_cpp.ResetGame fuel genReset g = Done (g1, gen1) ->
        Main_cpp.Update fuel' genUpdate g1 = Done (b, g2, gen2) ->
        b = false).
Proof.
  intros Hw Hh Hfit Hq.
  destruct (dims_in_int g ltac:(lia) ltac:(lia) Hfit) as [Hiw Hih].
  split.
  - destruct (ResetGame_session genReset g Hw Hh Hfit Hq)
      as [a [Hreset [_ Hsession]]].
    set (g1 := set_apple (set_snake g (reset_layout g)) a) in *.
    destruct Hsession as [_ [_ [Hfit1 [Hsnake1 _]]]].
    destruct (Update_keeps_play genUpdate g1 Hsnake1 Hfit1)
      as [b [g2 [Hup _]]].
    exists g1, g2. split; [exact Hreset|].
    destruct (Update_flag genUpdate g1 _ _ b g2 eq_refl Hup) as [Hb _].
    assert (Hsafe : b = false)
      by (rewrite Hb; exact (reset_head_has_room g a Hw Hh Hfit Hq)).
    now rewrite <- Hsafe.
  - intros fuel fuel' g1 gen1 b g2 gen2 Hreset Hup.
    rewrite Main_ResetGame_unfold in Hreset by assumption.
    destruct (Main_cpp.GetNewApplePosition fuel genReset _) as [[a gen']| |];
      cbn [bind fst snd] in Hreset; try discriminate.
    injection Hreset as <- <-.
    destruct (Main_Update_flag fuel' genUpdate
                (set_apple (set_snake g (reset_layout g)) a) _ _ b g2 gen2
                eq_refl Hup) as [Hb _].
    rewrite Hb. exact (reset_head_has_room g a Hw Hh Hfit Hq).
Qed.

(** Extra X5: [main] of [snake.cpp] never runs into undefined behaviour.
    Whatever the frame times, the keys pressed and the random draws, for any
    number of passes of the loop, the run returns a state on the 25 x 25
    grid whose snake is in play (a head, no cell twice, all cells on the
    grid, in one piece) and at least three cells long, whose apple is on the
    grid and off the snake unless the snake covers the grid, and whose queue
    holds at most three entries with no reversal. *)
Theorem X5_main_loop_stays_in_session (float : Type) (float_zero : float)
    (float_add : float -> float -> float) (float_ge : float -> float -> bool)
    (MOVE_INTERVAL : float) (genStart : G)
    (inputs : list (Snake_cpp.FrameInput float)) :
  exists moveTimer g,
    Snake_cpp.main float float_zero float_add float_ge MOVE_INTERVAL
      genStart inputs = Done (moveTimer, g)
    /\ width g = 25 /\ height g = 25
    /\ snake_ok g /\ (3 <= length (snake g))%nat
    /\ apple_ok g /\ queue_ok g.
Proof.
  unfold Snake_cpp.main. cbv zeta.
  match goal with
  | |- context [Snake_cpp.ResetGame genStart ?g0] =>
      destruct (ResetGame_session genStart g0) as [a [Hreset [_ Hsession]]];
      [ cbn; lia | cbn; lia | vm_compute; discriminate
      | split; [reflexivity | cbn; lia] | ];
      rewrite Hreset
  end.
  cbn [bind].
  match goal with
  | |- context [Snake_cpp.main_loop _ _ _ _ _ _ ?st0] =>
      destruct (main_loop_keeps_session float float_zero float_add float_ge
                  MOVE_INTERVAL inputs st0 Hsession)
        as [[moveTimer g] [Hrun [Hok [Hw' Hh']]]]
  end.
  exists moveTimer, g. cbn [snd] in *.
  split; [exact Hrun|].
  cbn [width height set_apple set_snake] in Hw', Hh'.
  destruct Hok as [_ [_ [_ [Hs [H3 [Ha Hq]]]]]]. tauto.
Qed.

End PlayTheorems.

(** ** Keys and the queue *)

(** Extra X6: one frame of input changes nothing but the queue and appends
    at most two entries to it, in both revisions of [HandleInput]: of the
    four polls, RIGHT after an accepted LEFT and DOWN after an accepted UP
    are reversals and are dropped.  The queue does not grow past three. *)
Theorem X6_HandleInput_appends_at_most_two (keys : Keys) (g : Game) :
  (exists added,
     Snake_cpp.HandleInput keys g
     = set_directionQueue g (directionQueue g ++ added)
     /\ (length added <= 2)%nat
     /\ (length added = 0%nat
         \/ (length (directionQueue g) + length added <= 3)%nat))
  /\ (exists added,
        Main_cpp.HandleInput keys g
        = set_directionQueue g (directionQueue g ++ added)
        /\ (length added <= 2)%nat
        /\ (length added = 0%nat
            \/ (length (directionQueue g) + length added <= 3)%nat)).
Proof.
  split.
  - exact (poll_keys_spec Snake_cpp.QueueDirection keys g
             Snake_enqueues_legal_turns).
  - exact (poll_keys_spec Main_cpp.QueueDirection keys g
             Main_enqueues_legal_turns).
Qed.

(** Extra X7: [GetNewDirection] never turns the snake back on itself: the
    direction it returns is not the reverse of the current one; it is the
    current one or one whose key is held down; and when no key is held but
    possibly those of the reverse direction, it is the current one. *)
Theorem X7_GetNewDirection_never_reverses (IsKeyDown : KeyboardKey -> bool)
    (current : Direction) :
  let next := Main_cpp.GetNewDirection IsKeyDown current in
  IsOpposite current next = false
  /\ (next = current \/ direction_key_down IsKeyDown next = true)
  /\ ((forall d, direction_key_down IsKeyDown d = true ->
                 IsOpposite current d = true) ->
      next = current).
Proof.
  unfold Main_cpp.GetNewDirection. cbv zeta.
  pose (kl := direction_key_down IsKeyDown LEFT).
  pose (kr := direction_key_down IsKeyDown RIGHT).
  pose (ku := direction_key_down IsKeyDown UP).
  pose (kd := direction_key_down IsKeyDown DOWN).
  change (IsKeyDown KEY_A || IsKeyDown KEY_LEFT) with kl.
  change (IsKeyDown KEY_D || IsKeyDown KEY_RIGHT) with kr.
  change (IsKeyDown KEY_W || IsKeyDown KEY_UP) with ku.
  change (IsKeyDown KEY_S || IsKeyDown KEY_DOWN) with kd.
  assert (Hl : direction_key_down IsKeyDown LEFT = kl) by reflexivity.
  assert (Hr : direction_key_down IsKeyDown RIGHT = kr) by reflexivity.
  assert (Hu : direction_key_down IsKeyDown UP = ku) by reflexivity.
  assert (Hd : direction_key_down IsKeyDown DOWN = kd) by reflexivity.
  clearbody kl kr ku kd.
  destruct current, kl, kr, ku, kd; cbn [Direction_eqb negb andb IsOpposite];
    (split; [reflexivity | split;
      [ first [left; reflexivity | right; assumption]
      | intros Hheld; first
          [ reflexivity
          | discriminate (Hheld LEFT Hl)
          | discriminate (Hheld RIGHT Hr)
          | discriminate (Hheld UP Hu)
          | discriminate (Hheld DOWN Hd) ] ]]).
Qed.

(** Extra X8: the two revisions of [QueueDirection] differ on one kind of
    request only: one equal to the last queued entry, which [src/main.cpp]
    drops; on every other request they return the same state. *)
Theorem X8_QueueDirection_revisions_agree (g : Game) (d : Direction) :
  Main_cpp.QueueDirection g d
  = if negb (empty (directionQueue g))
       && Direction_eqb (last (directionQueue g) d) d
    then g
    else Snake_cpp.QueueDirection g d.
Proof.
  unfold Main_cpp.QueueDirection, Snake_cpp.QueueDirection, back.
  destruct (directionQueue g) as [|d0 q] eqn:Hq; cbn [empty negb andb].
  - destruct (Nat.leb 3 (length (@nil Direction))); reflexivity.
  - assert (Hlast : forall dflt, last (d0 :: q) dflt = last q d0)
      by (intros dflt; apply last_cons).
    rewrite !Hlast.
    destruct (Nat.leb 3 (length (d0 :: q))); [now destruct (Direction_eqb _ _)|].
    reflexivity.
Qed.

Lemma quarter_turns_snoc (q : list Direction) (d : Direction) :
  quarter_turns (q ++ [d])
  = quarter_turns q
    && (empty q
        || (negb (Direction_eqb (last q d) d) && negb (IsOpposite (last q d) d))).
Proof.
  induction q as [|a [|b q] IH].
  - reflexivity.
  - cbn [app quarter_turns last empty orb]. now rewrite !andb_true_r.
  - change (quarter_turns ((a :: b :: q) ++ [d]))
      with (negb (Direction_eqb a b) && negb (IsOpposite a b)
            && quarter_turns ((b :: q) ++ [d])).
    rewrite IH.
    change (quarter_turns (a :: b :: q))
      with (negb (Direction_eqb a b) && negb (IsOpposite a b)
            && quarter_turns (b :: q)).
    change (last (a :: b :: q) d) with (last (b :: q) d).
    cbn [empty orb]. now rewrite andb_assoc.
Qed.

Lemma quarter_turns_tail (d : Direction) (q : list Direction) :
  quarter_turns (d :: q) = true -> quarter_turns q = true.
Proof.
  destruct q as [|d' q]; [reflexivity|]. cbn [quarter_turns].
  rewrite !andb_true_iff. tauto.
Qed.

Lemma Main_QueueDirection_quarter_turns (g : Game) (d : Direction) :
  quarter_turns (directionQueue g) = true ->
  quarter_turns (directionQueue (Main_cpp.QueueDirection g d)) = true.
Proof.
  intros Hq. unfold Main_cpp.QueueDirection, back.
  destruct (Nat.leb 3 (length (directionQueue g))); [assumption|].
  destruct (directionQueue g) as [|d0 q] eqn:Hdq; cbn [empty negb andb].
  - destruct (turn_allowed d (direction g)); [reflexivity | now rewrite Hdq].
  - rewrite !last_cons.
    destruct (Direction_eqb (last q d0) d) eqn:Hdup; [now rewrite Hdq|].
    rewrite turn_allowed_not_opposite.
    destruct (IsOpposite (last q d0) d) eqn:Hop; cbn [negb];
      [now rewrite Hdq|].
    cbn [directionQueue set_directionQueue].
    rewrite quarter_turns_snoc, Hq, last_cons, Hdup, Hop. reflexivity.
Qed.

Section QueueShape.
Context {G : Type} {E : RandomEngine G}.

Lemma Main_Update_queue (fuel : nat) (gen gen' : G) (g : Game) (b : bool)
    (g' : Game) :
  Main_cpp.Update fuel gen g = Done (b, g', gen') ->
  direction g' = direction (consume_queue g)
  /\ directionQueue g' = directionQueue (consume_queue g).
Proof.
  unfold Main_cpp.Update.
  destruct (snake (consume_queue g)) as [|front rest]; [discriminate|].
  destruct (IsGameOver _ _).
  - intros [= <- <- <-]. auto.
  - destruct (Vector2Int_eqb _ _).
    + destruct (Main_cpp.GetNewApplePosition _ _ _); cbn [bind]; try discriminate.
      intros [= <- <- <-]. auto.
    + intros [= <- <- <-]. auto.
Qed.

(** Extra X9: in [src/main.cpp] every queued entry is a quarter turn from
    the entry queued before it, neither the same direction nor its reverse.
    Any sequence of [QueueDirection] calls keeps this, and so does the pop of
    a tick. *)
Theorem X9_main_cpp_queue_holds_quarter_turns (fuel : nat) (gen : G)
    (g : Game) (ds : list Direction) :
  quarter_turns (directionQueue g) = true ->
  quarter_turns (directionQueue (fold_left Main_cpp.QueueDirection ds g)) = true
  /\ (forall b g' gen', Main_cpp.Update fuel gen g = Done (b, g', gen') ->
        quarter_turns (directionQueue g') = true).
Proof.
  intros Hq. split.
  - revert g Hq. induction ds as [|d ds IH]; intros g Hq; cbn [fold_left].
    + assumption.
    + apply IH. now apply Main_QueueDirection_quarter_turns.
  - intros b g' gen' Hup.
    destruct (Main_Update_queue fuel gen gen' g b g' Hup) as [_ ->].
    unfold consume_queue. destruct (directionQueue g) as [|d q] eqn:Hdq.
    + now rewrite Hdq.
    + cbn [directionQueue set_directionQueue]. now apply quarter_turns_tail in Hq.
Qed.

End QueueShape.

(** ** Cell size *)

Lemma GetCellSize_floor (gameWidth gameHeight screenWidth screenHeight : Z) :
  1 <= gameWidth -> 1 <= gameHeight ->
  4 <= screenWidth <= max_int -> 4 <= screenHeight <= max_int ->
  GetCellSize gameWidth gameHeight screenWidth screenHeight
  = Done (Z.min ((screenWidth - 4) / gameWidth)
                ((screenHeight - 4) / gameHeight)).
Proof.
  intros Hgw Hgh Hsw Hsh. unfold GetCellSize.
  change (int_mul BORDER_THICKNESS 2) with 4.
  assert (Hsub : forall v, 4 <= v <= max_int -> int_sub v 4 = v - 4).
  { intros v Hv. apply wrap_small. unfold in_int, min_int, max_int in *. lia. }
  rewrite (Hsub _ Hsw), (Hsub _ Hsh).
  rewrite !int_div_quot;
    try assumption; try (unfold in_int, min_int, max_int in *; lia).
  cbn [bind]. now rewrite !Z.quot_div_nonneg by lia.
Qed.

(** Extra X10: in a viewport of at least the two borders, [GetCellSize]
    returns the largest cell size that fits both axes: the grid drawn with
    it is no wider and no higher than the viewport less the borders, and no
    larger size has that property.  It is at least 1 exactly when the
    viewport less the borders has a pixel for every cell. *)
Theorem X10_GetCellSize_largest_fit
    (gameWidth gameHeight screenWidth screenHeight : Z) :
  1 <= gameWidth -> 1 <= gameHeight ->
  4 <= screenWidth <= max_int -> 4 <= screenHeight <= max_int ->
  exists cellSize,
    GetCellSize gameWidth gameHeight screenWidth screenHeight = Done cellSize
    /\ 0 <= cellSize
    /\ cellSize * gameWidth <= screenWidth - 4
    /\ cellSize * gameHeight <= screenHeight - 4
    /\ (forall c, c * gameWidth <= screenWidth - 4 ->
                  c * gameHeight <= screenHeight - 4 -> c <= cellSize)
    /\ (1 <= cellSize <->
        gameWidth <= screenWidth - 4 /\ gameHeight <= screenHeight - 4).
Proof.
  intros Hgw Hgh Hsw Hsh.
  rewrite (GetCellSize_floor _ _ _ _ Hgw Hgh Hsw Hsh). eexists.
  split; [reflexivity|].
  pose proof (Z.mul_div_le (screenWidth - 4) gameWidth ltac:(lia)) as Hfw.
  pose proof (Z.mul_div_le (screenHeight - 4) gameHeight ltac:(lia)) as Hfh.
  pose proof (Z.div_pos (screenWidth - 4) gameWidth ltac:(lia) ltac:(lia)) as Hpw.
  pose proof (Z.div_pos (screenHeight - 4) gameHeight ltac:(lia) ltac:(lia)) as Hph.
  assert (Hmax : forall c a n, 1 <= n -> c * n <= a -> c <= a / n).
  { intros c a n Hn Hc. apply Z.div_le_lower_bound; lia. }
  split; [lia | split; [nia | split; [nia | split]]].
  - intros c Hcw Hch. apply Hmax in Hcw; [|assumption].
    apply Hmax in Hch; [|assumption]. lia.
  - split.
    + intros Hone. split.
      * assert (1 <= (screenWidth - 4) / gameWidth) by lia. nia.
      * assert (1 <= (screenHeight - 4) / gameHeight) by lia. nia.
    + intros [Hw Hh].
      assert (1 <= (screenWidth - 4) / gameWidth) by (apply Hmax; lia).
      assert (1 <= (screenHeight - 4) / gameHeight) by (apply Hmax; lia).
      lia.
Qed.

(** ** Apple placement *)

(** Extra X11: the vector of free cells [GetNewApplePosition] of [snake.cpp]
    builds holds every grid cell that is not on the snake, each once; for a
    snake without repeated cells that lies on the grid its size is the
    number of grid cells less the length of the snake. *)
Theorem X11_emptyCells_counts_free_cells (g : Game) :
  NoDup (snake g) -> Forall (in_grid g) (snake g) ->
  NoDup (Snake_cpp.emptyCells g)
  /\ (forall p, In p (Snake_cpp.emptyCells g)
                <-> in_grid g p /\ ~ In p (snake g))
  /\ Z.of_nat (length (Snake_cpp.emptyCells g))
     = cell_count g - Z.of_nat (length (snake g)).
Proof.
  intros Hnd Hgrid. split; [apply emptyCells_NoDup | split].
  - intros p. apply emptyCells_In.
  - now apply emptyCells_count.
Qed.

(** Extra X12: every free cell can be the new apple.  For each grid cell
    that is not on the snake there is a state of the counter engine from
    which [GetNewApplePosition] of [snake.cpp] returns that cell. *)
Theorem X12_any_free_cell_can_be_drawn (g : Game) (c : Vector2Int) :
  cell_count g <= max_int -> in_grid g c -> ~ In c (snake g) ->
  exists seed : Z, Snake_cpp.GetNewApplePosition seed g = Done c.
Proof.
  intros Hfit Hin Hout.
  assert (Hc : In c (Snake_cpp.emptyCells g)) by (apply emptyCells_In; auto).
  pose proof (emptyCells_length g) as Hlen.
  destruct (In_nth_error _ _ Hc) as [i Hi].
  assert (Hi_lt : (i < length (Snake_cpp.emptyCells g))%nat).
  { apply nth_error_Some. congruence. }
  exists (Z.of_nat i). unfold Snake_cpp.GetNewApplePosition. cbv zeta.
  remember (Snake_cpp.emptyCells g) as cells eqn:Ecells.
  assert (Hne : empty cells = false) by (destruct cells; [inversion Hc | reflexivity]).
  rewrite Hne. cbn [negb].
  assert (Hcast : int_sub (static_cast_int (length cells)) 1
                  = Z.of_nat (length cells) - 1).
  { unfold static_cast_int.
    rewrite (wrap_small (Z.of_nat (length cells)))
      by (unfold in_int, min_int, max_int in *; lia).
    apply wrap_small. unfold in_int, min_int, max_int in *. lia. }
  rewrite Hcast. unfold uniform_int_distribution.
  destruct (Z.ltb_spec (Z.of_nat (length cells) - 1) 0) as [Hlt | _]; [lia|].
  cbn [bind draw counter_engine fst].
  replace (Z.of_nat (length cells) - 1 - 0 + 1) with (Z.of_nat (length cells)) by lia.
  rewrite Z.mod_small by lia. cbn [Z.add]. unfold vector_at.
  destruct (Z.ltb_spec (Z.of_nat i) 0) as [Hneg | _]; [lia|].
  now rewrite Nat2Z.id, Hi.
Qed.

Section RejectionLoop.
Context {G : Type} {E : RandomEngine G}.

(** Extra X13: the rejection loop of [src/main.cpp] returns the first cell
    it draws that is not on the snake, with the engine as that draw left it:
    if the cells of passes 0 to n-1 are on the snake and the cell of pass n
    is not, the call returns the cell of pass n, given fuel for more than n
    passes; and while every pass draws a snake cell the call does not
    return. *)
Theorem X13_rejection_loop_returns_first_free_draw (n fuel : nat) (gen : G)
    (g : Game) :
  (forall k, (k < n)%nat ->
             contains (snake g) (fst (Main_cpp.attempt k gen g)) = true) ->
  (contains (snake g) (fst (Main_cpp.attempt n gen g)) = false ->
   (n < fuel)%nat ->
   Main_cpp.GetNewApplePosition fuel gen g = Done (Main_cpp.attempt n gen g))
  /\ ((fuel <= n)%nat -> Main_cpp.GetNewApplePosition fuel gen g = OutOfFuel).
Proof.
  revert fuel gen. induction n as [|n IH]; intros fuel gen Hbusy.
  - split.
    + intros Hfree Hfuel. destruct fuel as [|fuel]; [lia|].
      cbn [Main_cpp.GetNewApplePosition Main_cpp.attempt fst] in *.
      now rewrite Hfree.
    + intros Hfuel. assert (fuel = 0%nat) as -> by lia. reflexivity.
  - assert (Hfirst : contains (snake g) (fst (Main_cpp.attempt 0 gen g)) = true)
      by (apply Hbusy; lia).
    cbn [Main_cpp.attempt fst] in Hfirst.
    set (gen2 := snd (GetRandomValue 0 (int_sub (height g) 1)
                        (snd (GetRandomValue 0 (int_sub (width g) 1) gen)))).
    assert (Hnext : forall k, Main_cpp.attempt (S k) gen g
                              = Main_cpp.attempt k gen2 g) by reflexivity.
    assert (Hbusy2 : forall k, (k < n)%nat ->
              contains (snake g) (fst (Main_cpp.attempt k gen2 g)) = true).
    { intros k Hk. rewrite <- Hnext. apply Hbusy. lia. }
    destruct fuel as [|fuel].
    + split; [lia | reflexivity].
    + assert (Hloop : Main_cpp.GetNewApplePosition (S fuel) gen g
                      = Main_cpp.GetNewApplePosition fuel gen2 g).
      { cbn [Main_cpp.GetNewApplePosition]. now rewrite Hfirst. }
      rewrite Hloop, Hnext. destruct (IH fuel gen2 Hbusy2) as [Hhit Hout].
      split.
      * intros Hfree Hfuel. apply Hhit; [assumption | lia].
      * intros Hfuel. apply Hout. lia.
Qed.

(** Extra X14: the two revisions of [ResetGame] lay out the same snake: the
    [switch] of [src/main.cpp] and the offset arithmetic of [snake.cpp] give
    the same three cells for every direction, and neither touches the grid,
    the committed direction (the defaulting branch of [src/main.cpp] never
    fires) or the queue.  They can differ in the apple only. *)
Theorem X14_ResetGame_revisions_lay_out_alike (fuel : nat)
    (genSnake genMain genMain' : G) (g gSnake gMain : Game) :
  in_int (width g) -> in_int (height g) ->
  Snake_cpp.ResetGame genSnake g = Done gSnake ->
  Main_cpp.ResetGame fuel genMain g = Done (gMain, genMain') ->
  gMain = set_apple gSnake (apple gMain)
  /\ snake gSnake = reset_layout g.
Proof.
  intros Hiw Hih. rewrite ResetGame_unfold, Main_ResetGame_unfold by assumption.
  destruct (Snake_cpp.GetNewApplePosition _ _) as [a| |]; cbn [bind];
    try discriminate.
  intros [= <-].
  destruct (Main_cpp.GetNewApplePosition _ _ _) as [[a' gen1]| |];
    cbn [bind fst snd]; try discriminate.
  intros [= <- <-]. split; reflexivity.
Qed.

End RejectionLoop.

(** ** Rendering *)

Lemma for_each_Done {A B : Type} (body : A -> result B) (f : A -> B)
    (l : list A) :
  (forall i, In i l -> body i = Done (f i)) ->
  for_each body l = Done (map f l).
Proof.
  induction l as [|i l IH]; intros Hbody; cbn [for_each map].
  - reflexivity.
  - rewrite (Hbody i) by now left. cbn [bind].
    rewrite IH by (intros j Hj; apply Hbody; now right). reflexivity.
Qed.

Lemma gradient_factor_range (n i : Z) :
  0 <= i < n -> 0 <= gradient_factor n i <= 255.
Proof.
  intros Hi. unfold gradient_factor. split.
  - apply Z.div_pos; nia.
  - apply Z.div_le_upper_bound; nia.
Qed.

Lemma segment_color_shaded (n i : Z) :
  0 <= i < n -> n * 255 <= max_int -> segment_color n i = Done (shaded n i).
Proof.
  intros Hi Hn. pose proof (gradient_factor_range n i Hi) as Hf.
  unfold segment_color, shaded. unfold gradient_factor in *.
  assert (Hint : forall z, 0 <= z <= max_int -> in_int z)
    by (unfold in_int, min_int, max_int; lia).
  assert (Hsub : int_sub n i = n - i)
    by (apply wrap_small, Hint; unfold max_int in *; lia).
  assert (Hmul : int_mul (n - i) 255 = (n - i) * 255)
    by (apply wrap_small, Hint; unfold max_int in *; nia).
  rewrite Hsub, Hmul.
  rewrite int_div_quot by (try apply Hint; unfold max_int in *; nia).
  cbn [bind]. rewrite Z.quot_div_nonneg by nia.
  set (f := (n - i) * 255 / n) in *.
  assert (Hch : forall ch, 0 <= ch <= 255 ->
            int_div (int_mul ch f) 255 = Done (ch * f / 255)
            /\ static_cast_uchar (ch * f / 255) = ch * f / 255).
  { intros ch Hc.
    assert (Hm : int_mul ch f = ch * f)
      by (apply wrap_small, Hint; unfold max_int; nia).
    rewrite Hm, int_div_quot by (try apply Hint; unfold max_int; nia).
    rewrite Z.quot_div_nonneg by nia. split; [reflexivity|].
    unfold static_cast_uchar. apply Z.mod_small. split.
    - apply Z.div_pos; nia.
    - apply Z.div_lt_upper_bound; nia. }
  cbn [Color.r Color.g Color.b SNAKE_HEAD_COLOR].
  destruct (Hch 71 ltac:(lia)) as [Hr Hr'].
  destruct (Hch 130 ltac:(lia)) as [Hg Hg'].
  destruct (Hch 255 ltac:(lia)) as [Hb Hb'].
  rewrite Hr, Hg, Hb. cbn [bind]. now rewrite Hr', Hg', Hb'.
Qed.

(** The arithmetic of the board: the cell size is not negative, the grid in
    pixels fits the viewport less the borders, and the offset leaves room
    for the border. *)
Lemma board_geometry (n screen c : Z) :
  1 <= n -> 4 <= screen -> 0 <= c -> c * n <= screen - 4 ->
  2 <= board_offset screen c n
  /\ board_offset screen c n + c * n + 2 <= screen
  /\ 0 <= screen - (board_offset screen c n + c * n + 2)
          - (board_offset screen c n - 2) <= 1.
Proof.
  intros Hn Hs Hc Hfit. unfold board_offset.
  Z.to_euclidean_division_equations. lia.
Qed.

Lemma board_cell_size_fits (g : Game) (screenWidth screenHeight : Z) :
  1 <= width g -> 1 <= height g -> 4 <= screenWidth -> 4 <= screenHeight ->
  0 <= board_cell_size g screenWidth screenHeight
  /\ board_cell_size g screenWidth screenHeight * width g <= screenWidth - 4
  /\ board_cell_size g screenWidth screenHeight * height g <= screenHeight - 4.
Proof.
  intros Hw Hh Hsw Hsh. unfold board_cell_size.
  pose proof (Z.mul_div_le (screenWidth - 4) (width g) ltac:(lia)).
  pose proof (Z.mul_div_le (screenHeight - 4) (height g) ltac:(lia)).
  pose proof (Z.div_pos (screenWidth - 4) (width g) ltac:(lia) ltac:(lia)).
  pose proof (Z.div_pos (screenHeight - 4) (height g) ltac:(lia) ltac:(lia)).
  split; [lia | split; nia].
Qed.

Section RenderProofs.
Variable RAYWHITE : Color.t.
Variable RED : Color.t.

(** [Render], call by call, free of wrap-around. *)
Lemma Render_calls (g : Game) (screenWidth screenHeight : Z) :
  renderable g screenWidth screenHeight ->
  let c := board_cell_size g screenWidth screenHeight in
  let ox := board_offset screenWidth c (width g) in
  let oy := board_offset screenHeight c (height g) in
  let n := Z.of_nat (length (snake g)) in
  Render RAYWHITE RED g screenWidth screenHeight
  = Done (ClearBackground RAYWHITE
          :: DrawRectangle (ox - 2) (oy - 2) (c * width g + 4)
               (c * height g + 4) BORDER_BG
          :: DrawRectangleLinesEx (ox - 2) (oy - 2) (c * width g + 4)
               (c * height g + 4) 2 BORDER_COLOR
          :: cell_rectangle ox oy c (apple g) RED
          :: map (fun i => cell_rectangle ox oy c
                             (nth (Z.to_nat i) (snake g) (cell 0 0))
                             (shaded n i))
                 (count_up n)).
Proof.
  intros [Hw [Hh [Hsw [Hsh Hlen]]]] c ox oy n.
  destruct (board_cell_size_fits g screenWidth screenHeight Hw Hh
              ltac:(lia) ltac:(lia)) as [Hc [Hfw Hfh]].
  fold c in Hc, Hfw, Hfh.
  destruct (board_geometry (width g) screenWidth c Hw ltac:(lia) Hc Hfw)
    as [Hox [Hox' _]].
  destruct (board_geometry (height g) screenHeight c Hh ltac:(lia) Hc Hfh)
    as [Hoy [Hoy' _]].
  fold ox in Hox, Hox'. fold oy in Hoy, Hoy'.
  assert (Hint : forall z, 0 <= z <= max_int -> in_int z)
    by (unfold in_int, min_int, max_int; lia).
  unfold Render.
  rewrite (GetCellSize_floor _ _ _ _ Hw Hh Hsw Hsh). fold (board_cell_size g screenWidth screenHeight).
  fold c. cbn [bind].
  assert (Hpx : int_mul c (width g) = c * width g) by (apply wrap_small, Hint; lia).
  assert (Hpy : int_mul c (height g) = c * height g) by (apply wrap_small, Hint; lia).
  rewrite Hpx, Hpy.
  assert (Hsx : int_sub screenWidth (c * width g) = screenWidth - c * width g)
    by (apply wrap_small, Hint; lia).
  assert (Hsy : int_sub screenHeight (c * height g) = screenHeight - c * height g)
    by (apply wrap_small, Hint; lia).
  rewrite Hsx, Hsy.
  rewrite !int_div_quot by (try apply Hint; lia).
  cbn [bind]. rewrite !Z.quot_div_nonneg by lia.
  fold (board_offset screenWidth c (width g)).
  fold (board_offset screenHeight c (height g)). fold ox oy.
  assert (Hn : static_cast_int (length (snake g)) = n)
    by (apply wrap_small, Hint; unfold n; lia).
  rewrite Hn.
  rewrite (for_each_Done _
             (fun i => cell_rectangle ox oy c
                         (nth (Z.to_nat i) (snake g) (cell 0 0)) (shaded n i))).
  - cbn [bind]. change (int_mul BORDER_THICKNESS 2) with 4.
    change BORDER_THICKNESS with 2.
    assert (Hb : int_sub ox 2 = ox - 2 /\ int_sub oy 2 = oy - 2
                 /\ int_add (c * width g) 4 = c * width g + 4
                 /\ int_add (c * height g) 4 = c * height g + 4).
    { unfold int_sub, int_add. rewrite !wrap_small by (apply Hint; lia). auto. }
    destruct Hb as [-> [-> [-> ->]]]. reflexivity.
  - intros i Hi. apply count_up_In in Hi. unfold vector_at.
    destruct (Z.ltb_spec i 0) as [Hneg | _]; [lia|].
    rewrite (nth_error_nth' (snake g) (cell 0 0)) by (unfold n in Hi; lia).
    cbn [bind]. rewrite segment_color_shaded by (unfold n in *; lia).
    reflexivity.
Qed.

Lemma count_up_nth (n : Z) (i : nat) :
  Z.of_nat i < n -> nth_error (count_up n) i = Some (Z.of_nat i).
Proof.
  intros Hi. unfold count_up. rewrite nth_error_map, nth_error_seq.
  destruct (Nat.ltb_spec i (Z.to_nat n)) as [_ | Hge]; [reflexivity | lia].
Qed.

(** The square of a grid cell, free of wrap-around. *)
Lemma cell_rectangle_plain (g : Game) (screenWidth screenHeight : Z)
    (p : Vector2Int) (color : Color.t) :
  renderable g screenWidth screenHeight -> in_grid g p ->
  let c := board_cell_size g screenWidth screenHeight in
  let ox := board_offset screenWidth c (width g) in
  let oy := board_offset screenHeight c (height g) in
  cell_rectangle ox oy c p color
  = DrawRectangle (ox + x p * c) (oy + y p * c) c c color
  /\ 0 <= c
  /\ (ox <= ox + x p * c /\ ox + x p * c + c <= ox + c * width g)
  /\ (oy <= oy + y p * c /\ oy + y p * c + c <= oy + c * height g).
Proof.
  intros [Hw [Hh [Hsw [Hsh _]]]] [Hx Hy] c ox oy.
  destruct (board_cell_size_fits g screenWidth screenHeight Hw Hh
              ltac:(lia) ltac:(lia)) as [Hc [Hfw Hfh]].
  fold c in Hc, Hfw, Hfh.
  destruct (board_geometry (width g) screenWidth c Hw ltac:(lia) Hc Hfw)
    as [Hox [Hox' _]].
  destruct (board_geometry (height g) screenHeight c Hh ltac:(lia) Hc Hfh)
    as [Hoy [Hoy' _]].
  fold ox in Hox, Hox'. fold oy in Hoy, Hoy'.
  assert (Hxc : 0 <= x p * c /\ x p * c + c <= c * width g) by nia.
  assert (Hyc : 0 <= y p * c /\ y p * c + c <= c * height g) by nia.
  assert (Hint : forall z, 0 <= z <= max_int -> in_int z)
    by (unfold in_int, min_int, max_int; lia).
  split; [|split; [assumption | split; lia]].
  unfold cell_rectangle, int_add, int_mul.
  rewrite (wrap_small (x p * c)), (wrap_small (y p * c)) by (apply Hint; lia).
  rewrite !wrap_small by (apply Hint; lia). reflexivity.
Qed.


(** Extra X16: [Render] draws segment [i] of the snake with its call number
    [4 + i], as a square of the cell size at the offset plus the cell's
    coordinates times the cell size, in the colour the gradient gives
    segment [i].  For a cell of the grid the square lies inside the board,
    and the squares of two different cells do not overlap.  The apple is
    call number 3, drawn the same way in [RED], before the snake. *)
Theorem X16_Render_draws_cells_inside_board (g : Game)
    (screenWidth screenHeight : Z) (i : nat) (p : Vector2Int) :
  renderable g screenWidth screenHeight ->
  nth_error (snake g) i = Some p -> in_grid g p ->
  let c := board_cell_size g screenWidth screenHeight in
  let ox := board_offset screenWidth c (width g) in
  let oy := board_offset screenHeight c (height g) in
  exists calls color,
    Render RAYWHITE RED g screenWidth screenHeight = Done calls
    /\ nth_error calls (4 + i)
       = Some (DrawRectangle (ox + x p * c) (oy + y p * c) c c color)
    /\ segment_color (Z.of_nat (length (snake g))) (Z.of_nat i) = Done color
    /\ (in_grid g (apple g) ->
        nth_error calls 3
        = Some (DrawRectangle (ox + x (apple g) * c) (oy + y (apple g) * c)
                  c c RED))
    /\ (ox <= ox + x p * c /\ ox + x p * c + c <= ox + c * width g)
    /\ (oy <= oy + y p * c /\ oy + y p * c + c <= oy + c * height g)
    /\ (forall q, in_grid g q -> q <> p ->
          ox + x p * c + c <= ox + x q * c \/ ox + x q * c + c <= ox + x p * c
          \/ oy + y p * c + c <= oy + y q * c
          \/ oy + y q * c + c <= oy + y p * c).
Proof.
  intros Hr Hi Hp c ox oy.
  rewrite (Render_calls g screenWidth screenHeight Hr).
  fold c ox oy.
  destruct (cell_rectangle_plain g screenWidth screenHeight p
              (shaded (Z.of_nat (length (snake g))) (Z.of_nat i)) Hr Hp)
    as [Hrect [Hc [Hxin Hyin]]].
  fold c ox oy in Hrect, Hxin, Hyin.
  assert (Hlt : (i < length (snake g))%nat)
    by (apply nth_error_Some; congruence).
  eexists. eexists.
  split; [reflexivity | split; [|split; [|split; [|split; [|split]]]]].
  - change (4 + i)%nat with (S (S (S (S i)))). cbn [nth_error].
    rewrite nth_error_map, count_up_nth by lia. cbn [option_map].
    rewrite Nat2Z.id, (nth_error_nth _ _ _ Hi). now rewrite Hrect.
  - apply segment_color_shaded; [lia | apply Hr].
  - intros Happle. cbn [nth_error].
    destruct (cell_rectangle_plain g screenWidth screenHeight (apple g) RED
                Hr Happle) as [Hrect' _].
    fold c ox oy in Hrect'. now rewrite Hrect'.
  - exact Hxin.
  - exact Hyin.
  - intros q _ Hne.
    assert (Hxy : x q <> x p \/ y q <> y p).
    { destruct p as [px py], q as [qx qy]. cbn [x y].
      destruct (Z.eq_dec qx px) as [-> | Hx]; [|now left].
      destruct (Z.eq_dec qy py) as [-> | Hy]; [congruence | now right]. }
    destruct Hxy as [Hx | Hy]; nia.
Qed.

End RenderProofs.

(** Extra X17: the gradient of the snake.  The head is drawn in
    [SNAKE_HEAD_COLOR] itself; from head to tail no channel ever gets
    brighter, and every colour is opaque.  A snake of at most 255 segments
    keeps some blue in every segment; on a longer one the last segment is
    black. *)
Theorem X17_segment_colors_fade_from_head (n i j : Z) :
  0 <= i <= j -> j < n -> n * 255 <= max_int ->
  segment_color n 0 = Done SNAKE_HEAD_COLOR
  /\ exists ci cj,
       segment_color n i = Done ci /\ segment_color n j = Done cj
       /\ 0 <= Color.r cj <= Color.r ci /\ 0 <= Color.g cj <= Color.g ci
       /\ 0 <= Color.b cj <= Color.b ci
       /\ Color.a ci = 255 /\ Color.a cj = 255
       /\ (n <= 255 -> 1 <= Color.b cj)
       /\ (255 < n -> j = n - 1 ->
           Color.r cj = 0 /\ Color.g cj = 0 /\ Color.b cj = 0).
Proof.
  intros Hij Hj Hn.
  assert (Hhead : shaded n 0 = SNAKE_HEAD_COLOR).
  { unfold shaded, gradient_factor. rewrite Z.sub_0_r.
    rewrite (Z.mul_comm n 255), Z.div_mul by lia. reflexivity. }
  split.
  - rewrite segment_color_shaded by lia. now rewrite Hhead.
  - exists (shaded n i), (shaded n j).
    rewrite !segment_color_shaded by lia.
    split; [reflexivity | split; [reflexivity|]].
    pose proof (gradient_factor_range n i ltac:(lia)) as Hfi.
    pose proof (gradient_factor_range n j ltac:(lia)) as Hfj.
    assert (Hmono : gradient_factor n j <= gradient_factor n i).
    { unfold gradient_factor. apply Z.div_le_mono; nia. }
    assert (Hch : forall ch, 0 <= ch ->
              0 <= ch * gradient_factor n j / 255
                <= ch * gradient_factor n i / 255).
    { intros ch Hc. split; [apply Z.div_pos; nia|].
      apply Z.div_le_mono; nia. }
    unfold shaded. cbn [Color.r Color.g Color.b Color.a SNAKE_HEAD_COLOR].
    split; [apply Hch; lia | split; [apply Hch; lia | split; [apply Hch; lia|]]].
    split; [reflexivity | split; [reflexivity | split]].
    + intros Hshort. rewrite Z.mul_comm, Z.div_mul by lia.
      unfold gradient_factor. apply Z.div_le_lower_bound; nia.
    + intros Hlong ->.
      assert (Hzero : gradient_factor n (n - 1) = 0).
      { unfold gradient_factor. replace (n - (n - 1)) with 1 by lia.
        apply Z.div_small. lia. }
      rewrite Hzero. repeat split; reflexivity.
Qed.

(** ** The move *)

Lemma nth_error_removelast {A : Type} (l : list A) (i : nat) :
  (S i < length l)%nat -> nth_error (removelast l) i = nth_error l i.
Proof.
  revert i. induction l as [|a [|b l] IH]; intros i Hi; cbn [length] in Hi.
  - lia.
  - lia.
  - change (removelast (a :: b :: l)) with (a :: removelast (b :: l)).
    destruct i as [|i]; [reflexivity|]. cbn [nth_error]. apply IH.
    cbn [length]. lia.
Qed.

Section Move.
Context {G : Type} {E : RandomEngine G}.

(** Extra X18: a tick that neither collides nor eats moves the snake by one
    cell: the new head is the old head moved along the committed direction,
    every other cell takes the place of the cell before it, the old tail
    cell is given up, and the length and the apple stay as they were. *)
Theorem X18_move_shifts_every_cell (gen : G) (g : Game) (front : Vector2Int)
    (rest : list Vector2Int) :
  snake g = front :: rest ->
  let newHead := step_head front (direction (consume_queue g)) in
  IsGameOver g newHead = false -> newHead <> apple g ->
  exists g', Snake_cpp.Update gen g = Done (false, g')
    /\ nth_error (snake g') 0 = Some newHead
    /\ (forall i, (S i < length (snake g))%nat ->
                  nth_error (snake g') (S i) = nth_error (snake g) i)
    /\ length (snake g') = length (snake g)
    /\ apple g' = apple g.
Proof.
  intros Hs newHead Hfree Hmove.
  rewrite (Update_move gen g front rest Hs Hfree Hmove). eexists.
  split; [reflexivity|].
  cbn [snake apple set_snake nth_error length]. rewrite consume_queue_apple.
  split; [reflexivity | split; [|split; [|reflexivity]]].
  - intros i Hi. now apply nth_error_removelast.
  - apply length_removelast. rewrite Hs. discriminate.
Qed.

End Move.

(** ** The extras, run on examples *)

Lemma food_ahead_in_play : snake_ok food_ahead.
Proof. apply snake_okb_iff. reflexivity. Qed.

Lemma food_ahead_fits : cell_count food_ahead <= max_int.
Proof. vm_compute. discriminate. Qed.

Lemma X1_tick_keeps_snake_in_play_witness :
  (snake_ok food_ahead /\ cell_count food_ahead <= max_int)
  /\ exists b g', Snake_cpp.Update tt food_ahead = Done (b, g')
       /\ width g' = 5 /\ height g' = 5
       /\ (b = false ->
           snake_ok g'
           /\ (length (snake g') = 3%nat \/ length (snake g') = 4%nat)).
Proof.
  split.
  - exact (conj food_ahead_in_play food_ahead_fits).
  - exact (proj1 (X1_tick_keeps_snake_in_play tt 1%nat food_ahead
                    food_ahead_in_play food_ahead_fits)).
Defined.

Lemma X2_tick_keeps_apple_off_snake_witness :
  (in_grid food_ahead (apple food_ahead)
   /\ ~ In (apple food_ahead) (snake food_ahead))
  /\ forall g', Snake_cpp.Update 5 food_ahead = Done (false, g') ->
       in_grid g' (apple g')
       /\ (~ In (apple g') (snake g')
           \/ Z.of_nat (length (snake g')) = cell_count g').
Proof.
  assert (Hin : in_grid food_ahead (apple food_ahead))
    by (apply in_gridb_iff; reflexivity).
  assert (Hout : ~ In (apple food_ahead) (snake food_ahead))
    by (apply contains_not_In; reflexivity).
  split.
  - exact (conj Hin Hout).
  - exact (proj1 (X2_tick_keeps_apple_off_snake 5 1%nat food_ahead
                    food_ahead_in_play food_ahead_fits Hin Hout)).
Defined.

Lemma X3_full_grid_ends_the_game_witness :
  (snake_ok after_last_bite_25
   /\ Z.of_nat (length (snake after_last_bite_25))
      = cell_count after_last_bite_25)
  /\ Snake_cpp.Update tt after_last_bite_25
     = Done (true, consume_queue after_last_bite_25).
Proof.
  assert (Hok : snake_ok after_last_bite_25)
    by (apply snake_okb_iff; vm_compute; reflexivity).
  assert (Hfull : Z.of_nat (length (snake after_last_bite_25))
                  = cell_count after_last_bite_25)
    by (vm_compute; reflexivity).
  split.
  - exact (conj Hok Hfull).
  - exact (proj1 (X3_full_grid_ends_the_game tt 1%nat after_last_bite_25
                    Hok Hfull)).
Defined.

Lemma X4_tick_after_reset_is_safe_witness :
  (5 <= width up_queued /\ 5 <= height up_queued
   /\ cell_count up_queued <= max_int /\ queue_ok up_queued)
  /\ exists g1 g2, Snake_cpp.ResetGame tt up_queued = Done g1
       /\ Snake_cpp.Update tt g1 = Done (false, g2).
Proof.
  assert (Hw : 5 <= width up_queued) by (simpl; lia).
  assert (Hh : 5 <= height up_queued) by (simpl; lia).
  assert (Hfit : cell_count up_queued <= max_int) by (vm_compute; discriminate).
  assert (Hq : queue_ok up_queued) by (split; [reflexivity | simpl; lia]).
  split.
  - auto.
  - exact (proj1 (X4_tick_after_reset_is_safe tt tt up_queued Hw Hh Hfit Hq)).
Defined.

Lemma X9_main_cpp_queue_holds_quarter_turns_witness :
  quarter_turns (directionQueue up_queued) = true
  /\ quarter_turns
       (directionQueue
          (fold_left Main_cpp.QueueDirection [UP; LEFT; LEFT; DOWN; UP] up_queued))
     = true.
Proof.
  split.
  - reflexivity.
  - exact (proj1 (X9_main_cpp_queue_holds_quarter_turns 1%nat tt up_queued
                    [UP; LEFT; LEFT; DOWN; UP] eq_refl)).
Defined.

Lemma X10_GetCellSize_largest_fit_witness :
  (1 <= 25 /\ 4 <= 800 <= max_int /\ 4 <= 450 <= max_int)
  /\ exists cellSize, GetCellSize 25 25 800 450 = Done cellSize
       /\ 0 <= cellSize
       /\ cellSize * 25 <= 800 - 4 /\ cellSize * 25 <= 450 - 4
       /\ (forall c, c * 25 <= 800 - 4 -> c * 25 <= 450 - 4 -> c <= cellSize)
       /\ (1 <= cellSize <-> 25 <= 800 - 4 /\ 25 <= 450 - 4).
Proof.
  assert (Hg : 1 <= 25) by lia.
  assert (Hw : 4 <= 800 <= max_int) by (vm_compute; split; discriminate).
  assert (Hh : 4 <= 450 <= max_int) by (vm_compute; split; discriminate).
  split.
  - auto.
  - exact (X10_GetCellSize_largest_fit 25 25 800 450 Hg Hg Hw Hh).
Defined.

Lemma X11_emptyCells_counts_free_cells_witness :
  (NoDup (snake food_ahead) /\ Forall (in_grid food_ahead) (snake food_ahead))
  /\ Z.of_nat (length (Snake_cpp.emptyCells food_ahead)) = 25 - 3.
Proof.
  destruct food_ahead_in_play as [_ [Hnd [Hgrid _]]].
  split.
  - exact (conj Hnd Hgrid).
  - exact (proj2 (proj2 (X11_emptyCells_counts_free_cells food_ahead Hnd Hgrid))).
Defined.

Lemma X12_any_free_cell_can_be_drawn_witness :
  (cell_count food_ahead <= max_int /\ in_grid food_ahead (cell 4 4)
   /\ ~ In (cell 4 4) (snake food_ahead))
  /\ exists seed : Z, Snake_cpp.GetNewApplePosition seed food_ahead
                      = Done (cell 4 4).
Proof.
  assert (Hin : in_grid food_ahead (cell 4 4))
    by (apply in_gridb_iff; reflexivity).
  assert (Hout : ~ In (cell 4 4) (snake food_ahead))
    by (apply contains_not_In; reflexivity).
  split.
  - exact (conj food_ahead_fits (conj Hin Hout)).
  - exact (X12_any_free_cell_can_be_drawn food_ahead (cell 4 4)
             food_ahead_fits Hin Hout).
Defined.

Lemma X13_rejection_loop_returns_first_free_draw_witness :
  (contains (snake food_ahead) (fst (Main_cpp.attempt 0 1 food_ahead)) = true
   /\ contains (snake food_ahead) (fst (Main_cpp.attempt 1 1 food_ahead)) = false)
  /\ Main_cpp.GetNewApplePosition 2 1 food_ahead = Done (cell 3 4, 5).
Proof.
  assert (Hbusy : forall k, (k < 1)%nat ->
            contains (snake food_ahead) (fst (Main_cpp.attempt k 1 food_ahead))
            = true).
  { intros k Hk. assert (k = 0%nat) as -> by lia. reflexivity. }
  split.
  - split; reflexivity.
  - exact (proj1 (X13_rejection_loop_returns_first_free_draw 1 2 1 food_ahead
                    Hbusy) eq_refl ltac:(lia)).
Defined.

Lemma X14_ResetGame_revisions_lay_out_alike_witness :
  (in_int (width initial_game) /\ in_int (height initial_game))
  /\ exists gSnake gMain,
       Snake_cpp.ResetGame 7 initial_game = Done gSnake
       /\ Main_cpp.ResetGame 1 3 initial_game = Done (gMain, 5)
       /\ gMain = set_apple gSnake (apple gMain)
       /\ snake gSnake = reset_layout initial_game.
Proof.
  assert (Hiw : in_int (width initial_game)) by (vm_compute; split; discriminate).
  assert (Hih : in_int (height initial_game)) by (vm_compute; split; discriminate).
  split.
  - auto.
  - eexists. eexists. split; [vm_compute; reflexivity|].
    split; [vm_compute; reflexivity|].
    apply (X14_ResetGame_revisions_lay_out_alike 1 7 3 5 initial_game _ _ Hiw Hih);
      vm_compute; reflexivity.
Defined.

Lemma food_ahead_renderable : renderable food_ahead 800 450.
Proof. unfold renderable, max_int. simpl. lia. Qed.


Lemma X16_Render_draws_cells_inside_board_witness :
  (renderable food_ahead 800 450
   /\ nth_error (snake food_ahead) 1 = Some (cell 1 2)
   /\ in_grid food_ahead (cell 1 2))
  /\ exists calls color,
       Render raylib_RAYWHITE raylib_RED food_ahead 800 450 = Done calls
       /\ nth_error calls 5 = Some (DrawRectangle 266 180 89 89 color).
Proof.
  assert (Hin : in_grid food_ahead (cell 1 2))
    by (apply in_gridb_iff; reflexivity).
  split.
  - exact (conj food_ahead_renderable (conj eq_refl Hin)).
  - destruct (X16_Render_draws_cells_inside_board raylib_RAYWHITE raylib_RED
                food_ahead 800 450 1 (cell 1 2) food_ahead_renderable
                eq_refl Hin) as [calls [color [Hcalls [Hnth _]]]].
    exists calls, color. split; [exact Hcalls | exact Hnth].
Defined.

Lemma X17_segment_colors_fade_from_head_witness :
  (0 <= 0 <= 2 /\ 2 < 3 /\ 3 * 255 <= max_int)
  /\ segment_color 3 0 = Done SNAKE_HEAD_COLOR.
Proof.
  assert (Hij : 0 <= 0 <= 2) by lia.
  assert (Hj : 2 < 3) by lia.
  assert (Hn : 3 * 255 <= max_int) by (vm_compute; discriminate).
  split.
  - auto.
  - exact (proj1 (X17_segment_colors_fade_from_head 3 0 2 Hij Hj Hn)).
Defined.

Lemma X18_move_shifts_every_cell_witness :
  (snake up_queued = [cell 12 12; cell 11 12; cell 10 12]
   /\ IsGameOver up_queued (cell 12 11) = false
   /\ cell 12 11 <> apple up_queued)
  /\ exists g', Snake_cpp.Update tt up_queued = Done (false, g')
       /\ nth_error (snake g') 0 = Some (cell 12 11)
       /\ (forall i, (S i < 3)%nat ->
                     nth_error (snake g') (S i) = nth_error (snake up_queued) i)
       /\ length (snake g') = 3%nat
       /\ apple g' = cell 3 3.
Proof.
  assert (Hmove : cell 12 11 <> apple up_queued)
    by (apply Vector2Int_eqb_neq; reflexivity).
  split.
  - split; [reflexivity | split; [reflexivity | exact Hmove]].
  - exact (X18_move_shifts_every_cell tt up_queued (cell 12 12)
             [cell 11 12; cell 10 12] eq_refl eq_refl Hmove).
Defined.
